(** * GXDLMSReader: the transaction engine of the DLMS client example

    A shallow embedding of [dlms-client-example-go/GXDLMSReader.go]
    (package main of Gurux/examples-go) and proofs about its frame
    transaction ([ReadDLMSPacket]), its block sequencer ([ReadDataBlock],
    [ReadDataBlocks]), [ReadList] and the teardown path ([Release],
    [Disconnect], [Close]).

    The reader drives two collaborators that live in other Go modules
    (gxcommon-go: the media; gxdlms-go: the client/codec, the reply
    accumulator, the byte buffer).  Their behaviour is not in this
    repository, so they enter the development as the operations of a type
    class; every call that crosses that boundary is recorded in an event
    log so that sends, sleeps and codec calls can be counted.

    The command line parser of [dlms-client-example-go/main.go],
    [getParameters], is embedded in the module [Params]. *)

From Stdlib Require Import ZArith List String Bool Lia.
From Stdlib.Strings Require Byte.
Import ListNotations.
Open Scope Z_scope.

Set Implicit Arguments.

(** ** Go data *)

Definition byte := Byte.byte.

(** A Go slice: [None] is the nil slice, [Some []] an empty non-nil one. *)
Definition slice (A : Type) := option (list A).

Definition len {A : Type} (s : slice A) : Z :=
  match s with None => 0 | Some l => Z.of_nat (List.length l) end.

Definition is_nil {A : Type} (s : slice A) : bool :=
  match s with None => true | Some _ => false end.

(** The elements a [range] loop visits. *)
Definition elems {A : Type} (s : slice A) : list A :=
  match s with None => [] | Some l => l end.

(** Go's [int] is 64 bits wide on the supported platforms; [attempt++]
    wraps. *)
Definition wrap64 (z : Z) : Z := (z + 2 ^ 63) mod 2 ^ 64 - 2 ^ 63.
Definition incr (a : Z) : Z := wrap64 (a + 1).

(** Values of static type [any]. *)
#[warnings="-register-all"]
Inductive any : Type :=
| any_nil
| any_byte (b : byte)
| any_bytes (s : slice byte)
| any_list (s : option (list any))
| any_opaque (tag : Z).

Definition any_is_nil (a : any) : bool :=
  match a with any_nil => true | _ => false end.

(** Errors made by the collaborators are opaque messages; the reader's own
    errors are the constructors below. *)
Definition xerror := option string.

Inductive goerror : Type :=
| ErrReplyNil                              (* "reply is nil" *)
| ErrPacketEmpty                           (* "packet is empty" *)
| ErrNoReply                               (* "failed to receive reply from the device in given time" *)
| ErrDlms (code : Z)                       (* "dlms error %s" *)
| ErrInvalidReplyCount (got expected : Z)  (* "invalid reply count: got %d, expected %d" *)
| ErrExternal (msg : string).

Definition error := option goerror.

Definition lift_err (e : xerror) : error :=
  match e with None => None | Some m => Some (ErrExternal m) end.

(** gxcommon.ReceiveParameters, the fields the reader touches. *)
Record ReceiveParameters : Type := mkParams {
  EOP : any;
  Count : Z;
  AllData : bool;
  p_WaitTime : Z;
  Reply : any
}.

Definition set_Count (c : Z) (p : ReceiveParameters) : ReceiveParameters :=
  mkParams (EOP p) c (AllData p) (p_WaitTime p) (Reply p).
Definition set_Reply (a : any) (p : ReceiveParameters) : ReceiveParameters :=
  mkParams (EOP p) (Count p) (AllData p) (p_WaitTime p) a.

Definition time_Second : Z := 1000000000.

(** ** The collaborators' types *)

Class LibTypes : Type := {
  Media : Type;          (* state behind gxcommon.IGXMedia *)
  Client : Type;         (* state behind *dlms.GXDLMSSecureClient *)
  GXByteBuffer : Type;   (* types.GXByteBuffer *)
  ReplyInternals : Type; (* the unexported part of dlms.GXReplyData *)
  IGXDLMSBase : Type;    (* a reference to a COSEM object *)
  ObjectStore : Type     (* the attribute values of the COSEM objects *)
}.

Section Model.

Context {T : LibTypes}.

(** dlms.GXReplyData: the exported fields the reader reads or writes, and
    the rest. *)
Record GXReplyData : Type := mkReply {
  Error : Z;
  Data : GXByteBuffer;
  Value : any;
  DataType : Z;
  internals : ReplyInternals
}.

Definition set_Error (e : Z) (r : GXReplyData) : GXReplyData :=
  mkReply e (Data r) (Value r) (DataType r) (internals r).

Definition KeyValuePair : Type := (IGXDLMSBase * Z)%type.

(** ** The collaborators' operations *)

Class LibOps : Type := {
  (* gxcommon.IGXMedia *)
  media_Send : slice byte -> Media -> xerror * Media;
  media_Receive : ReceiveParameters -> Media -> bool * xerror * ReceiveParameters * Media;
  media_Close : Media -> xerror * Media;
  NewReceiveParameters : ReceiveParameters;
  TraceLevelInfo : Z;
  (* types.GXByteBuffer *)
  NewGXByteBuffer : GXByteBuffer;
  buf_Set : slice byte -> GXByteBuffer -> xerror * GXByteBuffer;
  buf_Size : GXByteBuffer -> Z;
  (* dlms.GXReplyData *)
  NewGXReplyData : GXReplyData;
  IsStreaming : GXReplyData -> bool;
  IsMoreData : GXReplyData -> bool;
  IsComplete : GXReplyData -> bool;
  Clear : GXReplyData -> GXReplyData;
  (* dlms.GXDLMSSecureClient *)
  InterfaceType : Client -> Z;
  GetFrameSize : GXByteBuffer -> Client -> Z;
  GetData : GXByteBuffer -> GXReplyData -> GXReplyData -> Client ->
            bool * xerror * GXByteBuffer * GXReplyData * GXReplyData * Client;
  ConnectionState : Client -> Z;
  PreEstablishedConnection : Client -> bool;
  ReceiverReady : GXReplyData -> Client -> slice byte * xerror * Client;
  Ciphering_Security : Client -> option Z;
  client_ReadList : list KeyValuePair -> Client -> slice (slice byte) * xerror * Client;
  UpdateValues : list KeyValuePair -> list any -> Client -> ObjectStore ->
                 xerror * Client * ObjectStore;
  ReleaseRequest : Client -> slice (slice byte) * xerror * Client;
  DisconnectRequest : Client -> slice byte * xerror * Client;
  (* enums *)
  InterfaceTypeHDLC : Z;
  InterfaceTypeHdlcWithModeE : Z;
  InterfaceTypeWRAPPER : Z;
  ConnectionStateNone : Z;
  SecurityNone : Z;
  ErrorCodeRejected : Z
}.

Context {Ops : LibOps}.

(** ** The reader and the world it runs in *)

Record GXDLMSReader : Type := mkReader {
  WaitTime : Z;
  RetryCount : Z;
  InvocationCounter : string;
  media : option Media;
  trace : Z;
  client : option Client;
  traceFile : string;
  OnNotification : bool  (* whether a callback is registered *)
}.

Inductive TraceLine : Type :=
| TraceTX (data : slice byte)
| TraceRX (rd : GXByteBuffer)
| TraceReleaseFailed (e : goerror).

(** What the outside can observe of a run. *)
Inductive Event : Type :=
| EvSend (data : slice byte)
| EvReceive (p : ReceiveParameters) (succeeded : bool)
| EvMediaClose
| EvLock
| EvUnlock
| EvGetData
| EvReceiverReady
| EvReadListRequest (l : list KeyValuePair)
| EvReleaseRequest
| EvDisconnectRequest
| EvUpdateValues (l : list KeyValuePair) (values : list any)
| EvNotify (v : any)
| EvSleep (ns : Z)
| EvLogPrintf (attempt : Z)
| EvPrintln (line : TraceLine)
| EvTraceFile (file : string) (line : TraceLine).

Record World : Type := mkWorld {
  rdr : GXDLMSReader;
  objects : ObjectStore;
  events : list Event   (* newest first *)
}.

Definition emit (e : Event) (w : World) : World :=
  mkWorld (rdr w) (objects w) (e :: events w).

Definition with_media (m : option Media) (w : World) : World :=
  let r := rdr w in
  mkWorld (mkReader (WaitTime r) (RetryCount r) (InvocationCounter r) m
                    (trace r) (client r) (traceFile r) (OnNotification r))
          (objects w) (events w).

Definition with_client (c : option Client) (w : World) : World :=
  let r := rdr w in
  mkWorld (mkReader (WaitTime r) (RetryCount r) (InvocationCounter r) (media r)
                    (trace r) c (traceFile r) (OnNotification r))
          (objects w) (events w).

Definition with_objects (o : ObjectStore) (w : World) : World :=
  mkWorld (rdr w) o (events w).

(** ** Computations: state, Go panics, and loops that may not end *)

Inductive outcome (A : Type) : Type :=
| Ret (a : A) (w : World)
| Panic (w : World)
| Diverge.

Arguments Panic {A} w.
Arguments Diverge {A}.

Definition M (A : Type) : Type := World -> outcome A.

Definition ret {A : Type} (a : A) : M A := fun w => Ret a w.

Definition bind {A B : Type} (m : M A) (k : A -> M B) : M B :=
  fun w => match m w with
           | Ret a w' => k a w'
           | Panic w' => Panic w'
           | Diverge => Diverge
           end.

Definition diverge {A : Type} : M A := fun _ => Diverge.
Definition panic {A : Type} : M A := fun w => Panic w.

Definition tell (e : Event) : M unit := fun w => Ret tt (emit e w).

Definition get_reader : M GXDLMSReader := fun w => Ret (rdr w) w.

(** [defer unlock()]: runs when the function leaves, by return or by
    panic. *)
Definition defer_unlock {A : Type} (m : M A) : M A :=
  fun w => match m w with
           | Ret a w' => Ret a (emit EvUnlock w')
           | Panic w' => Panic (emit EvUnlock w')
           | Diverge => Diverge
           end.

End Model.

Arguments Ret {T A} a w.
Arguments Panic {T A} w.
Arguments Diverge {T A}.

Declare Scope go_scope.
Delimit Scope go_scope with go.
Notation "x <- m ;; k" := (bind m (fun x => k))
  (at level 61, m at next level, right associativity) : go_scope.
Notation "' p <- m ;; k" := (bind m (fun x => let 'p := x in k))
  (at level 61, p pattern, m at next level, right associativity) : go_scope.
Notation "m ;; k" := (bind m (fun _ => k))
  (at level 61, right associativity) : go_scope.
Open Scope go_scope.

Section Reader.

Context {T : LibTypes} {Ops : LibOps}.

(** ** Calls across the boundary

    A method called on a nil [r.media] or [r.client] panics. *)

Definition the_client : M Client :=
  fun w => match client (rdr w) with
           | Some c => Ret c w
           | None => Panic w
           end.

(** Dereferencing a [*GXReplyData]. *)
Definition deref (reply : option GXReplyData) : M GXReplyData :=
  match reply with Some r => ret r | None => panic end.

(** [p.Reply.([]byte)], the one-result form: panics unless the dynamic type
    is [[]byte]. *)
Definition assert_bytes (a : any) : M (slice byte) :=
  match a with any_bytes s => ret s | _ => panic end.

Definition GetSynchronous : M unit :=
  fun w => match media (rdr w) with
           | Some _ => Ret tt (emit EvLock w)
           | None => Panic w
           end.

Definition call_Send (data : slice byte) : M xerror :=
  fun w => match media (rdr w) with
           | Some m =>
               let '(e, m') := media_Send data m in
               Ret e (emit (EvSend data) (with_media (Some m') w))
           | None => Panic w
           end.

Definition call_Receive (p : ReceiveParameters) : M (bool * xerror * ReceiveParameters) :=
  fun w => match media (rdr w) with
           | Some m =>
               let '(ok, e, p', m') := media_Receive p m in
               Ret (ok, e, p') (emit (EvReceive p ok) (with_media (Some m') w))
           | None => Panic w
           end.

Definition call_Close : M xerror :=
  fun w => match media (rdr w) with
           | Some m =>
               let '(e, m') := media_Close m in
               Ret e (emit EvMediaClose (with_media (Some m') w))
           | None => Panic w
           end.

Definition call_GetData (rd : GXByteBuffer) (reply notify : GXReplyData)
  : M (bool * xerror * GXByteBuffer * GXReplyData * GXReplyData) :=
  fun w => match client (rdr w) with
           | Some c =>
               let '(complete, e, rd', reply', notify', c') := GetData rd reply notify c in
               Ret (complete, e, rd', reply', notify')
                   (emit EvGetData (with_client (Some c') w))
           | None => Panic w
           end.

Definition call_ReceiverReady (reply : GXReplyData) : M (slice byte * xerror) :=
  fun w => match client (rdr w) with
           | Some c =>
               let '(next, e, c') := ReceiverReady reply c in
               Ret (next, e) (emit EvReceiverReady (with_client (Some c') w))
           | None => Panic w
           end.

Definition call_ReadList (l : list KeyValuePair) : M (slice (slice byte) * xerror) :=
  fun w => match client (rdr w) with
           | Some c =>
               let '(frames, e, c') := client_ReadList l c in
               Ret (frames, e) (emit (EvReadListRequest l) (with_client (Some c') w))
           | None => Panic w
           end.

Definition call_UpdateValues (l : list KeyValuePair) (values : list any) : M xerror :=
  fun w => match client (rdr w) with
           | Some c =>
               let '(e, c', o') := UpdateValues l values c (objects w) in
               Ret e (emit (EvUpdateValues l values)
                           (with_objects o' (with_client (Some c') w)))
           | None => Panic w
           end.

Definition call_ReleaseRequest : M (slice (slice byte) * xerror) :=
  fun w => match client (rdr w) with
           | Some c =>
               let '(frames, e, c') := ReleaseRequest c in
               Ret (frames, e) (emit EvReleaseRequest (with_client (Some c') w))
           | None => Panic w
           end.

Definition call_DisconnectRequest : M (slice byte * xerror) :=
  fun w => match client (rdr w) with
           | Some c =>
               let '(frame, e, c') := DisconnectRequest c in
               Ret (frame, e) (emit EvDisconnectRequest (with_client (Some c') w))
           | None => Panic w
           end.

(** ** NewGXDLMSReader (lines 31-50) *)

Definition NewGXDLMSReader (client : option Client) (media : option Media)
    (trace : Z) (invocationCounter : string) (waitTime : Z) : GXDLMSReader :=
  let waitTime := if waitTime <=? 0 then 5000 else waitTime in
  mkReader waitTime 3 invocationCounter media trace client "trace.txt" false.

(** ** writeTrace (lines 668-685) *)

Definition writeTrace (line : TraceLine) : M unit :=
  r <- get_reader ;;
  (if TraceLevelInfo <? trace r then tell (EvPrintln line) else ret tt) ;;
  if (traceFile r =? "")%string then ret tt
  else tell (EvTraceFile (traceFile r) line).

(** ** ReadDLMSPacket (lines 343-456) *)

(** The first loop, lines 371-397.  [inl] is a [return err] out of the
    function, [inr] leaves the loop. *)
Fixpoint sendLoop (fuel : nat) (data : slice byte) (reply : GXReplyData)
    (succeeded : bool) (attempt : Z) (p : ReceiveParameters)
  : M (goerror + ReceiveParameters) :=
  match fuel with
  | O => diverge
  | S fuel' =>
    if negb succeeded && negb (attempt =? 3) then
      if negb (IsStreaming reply) then
        if len data =? 0 then ret (inl ErrPacketEmpty)
        else
          writeTrace (TraceTX data) ;;
          e <- call_Send data ;;
          match e with
          | Some m => ret (inl (ErrExternal m))
          | None =>
            '(succeeded, e, p) <- call_Receive p ;;
            match e with
            | Some m => ret (inl (ErrExternal m))
            | None =>
              if negb succeeded then
                let attempt := incr attempt in
                r <- get_reader ;;
                if RetryCount r <=? attempt then ret (inl ErrNoReply)
                else
                  let p := if any_is_nil (EOP p) then set_Count 1 p else p in
                  tell (EvLogPrintf attempt) ;;
                  sendLoop fuel' data reply succeeded attempt p
              else sendLoop fuel' data reply succeeded attempt p
            end
          end
      else sendLoop fuel' data reply succeeded attempt p
    else ret (inr p)
  end.

(** The inner receive loop, lines 423-441.  [inr] is the [break]. *)
Fixpoint receiveLoop (fuel : nat) (data : slice byte) (attempt : Z)
    (p : ReceiveParameters) : M (goerror + Z * ReceiveParameters) :=
  match fuel with
  | O => diverge
  | S fuel' =>
    '(succeeded, e, p) <- call_Receive p ;;
    match e with
    | Some m => ret (inl (ErrExternal m))
    | None =>
      if succeeded then ret (inr (attempt, p))
      else
        let attempt := incr attempt in
        r <- get_reader ;;
        if RetryCount r <=? attempt then ret (inl ErrNoReply)
        else
          let p := set_Reply any_nil p in
          e <- call_Send data ;;
          match e with
          | Some m => ret (inl (ErrExternal m))
          | None =>
            tell (EvLogPrintf attempt) ;;
            receiveLoop fuel' data attempt p
          end
    end
  end.

(** The loop "until whole COSEM packet is received", lines 406-446.  The
    accumulator comes back with either result since [GetData] writes it. *)
Fixpoint getDataLoop (fuel : nat) (data : slice byte) (rd : GXByteBuffer)
    (reply notify : GXReplyData) (attempt : Z) (p : ReceiveParameters)
  : M ((goerror + GXByteBuffer) * GXReplyData) :=
  match fuel with
  | O => diverge
  | S fuel' =>
    '(complete, e, rd, reply, notify) <- call_GetData rd reply notify ;;
    match e with
    | Some m => ret (inl (ErrExternal m), reply)
    | None =>
      if complete then ret (inr rd, reply)
      else
        notify <- (if IsComplete notify && negb (IsMoreData notify) then
                     r <- get_reader ;;
                     (if OnNotification r then tell (EvNotify (Value notify))
                      else ret tt) ;;
                     ret (Clear notify)
                   else ret notify) ;;
        p <- (if any_is_nil (EOP p) then
                c <- the_client ;; ret (set_Count (GetFrameSize rd c) p)
              else ret p) ;;
        x <- receiveLoop fuel' data attempt p ;;
        match x with
        | inl err => ret (inl err, reply)
        | inr (attempt, p) =>
          b <- assert_bytes (Reply p) ;;
          let '(e, rd) := buf_Set b rd in
          match e with
          | Some m => ret (inl (ErrExternal m), reply)
          | None => getDataLoop fuel' data rd reply notify attempt p
          end
        end
    end
  end.

(** Lines 362-447: everything done under the lock up to the point where
    the codec reports a complete reply. *)
Definition transact (fuel : nat) (data : slice byte) (reply : GXReplyData)
    (eop : any) : M ((goerror + GXByteBuffer) * GXReplyData) :=
  let notify := NewGXReplyData in
  let rd := NewGXByteBuffer in
  c <- the_client ;;
  r <- get_reader ;;
  let p := mkParams eop (GetFrameSize rd c) true (WaitTime r)
                    (Reply NewReceiveParameters) in
  x <- sendLoop fuel data reply false 0 p ;;
  match x with
  | inl err => ret (inl err, reply)
  | inr p =>
    b <- assert_bytes (Reply p) ;;
    let '(e, rd) := buf_Set b rd in
    match e with
    | Some m => ret (inl (ErrExternal m), reply)
    | None =>
      '(y, reply) <- getDataLoop fuel data rd reply notify 0 p ;;
      match y with
      | inl err => ret (inl err, reply)
      | inr rd => writeTrace (TraceRX rd) ;; ret (inr rd, reply)
      end
    end
  end.

(** Lines 353-357. *)
Definition end_of_packet : M any :=
  c <- the_client ;;
  ret (if negb (InterfaceType c =? InterfaceTypeHDLC)
          && negb (InterfaceType c =? InterfaceTypeHdlcWithModeE)
       then any_nil else any_byte Byte.x7e).

Fixpoint ReadDLMSPacket (fuel : nat) (data : slice byte)
    (reply : option GXReplyData) : M (error * option GXReplyData) :=
  match reply with
  | None => ret (Some ErrReplyNil, None)
  | Some reply =>
    if is_nil data && negb (IsStreaming reply) then ret (None, Some reply)
    else
      let reply := set_Error 0 reply in
      eop <- end_of_packet ;;
      GetSynchronous ;;
      defer_unlock (
        '(y, reply) <- transact fuel data reply eop ;;
        match y with
        | inl err => ret (Some err, Some reply)
        | inr _ =>
          if negb (Error reply =? 0) then
            if Error reply =? ErrorCodeRejected then
              tell (EvSleep time_Second) ;;
              match fuel with
              | O => diverge
              | S fuel' => ReadDLMSPacket fuel' data (Some reply)
              end
            else ret (Some (ErrDlms (Error reply)), Some reply)
          else ret (None, Some reply)
        end)
  end.

(** ** ReadDataBlock (lines 473-497) *)

(** The loop condition, lines 480-482, with Go's short-circuit order. *)
Definition more_to_read (reply : GXReplyData) : M bool :=
  a <- (if IsMoreData reply then
          c <- the_client ;;
          ret (negb (ConnectionState c =? ConnectionStateNone)
               || PreEstablishedConnection c)
        else ret false) ;;
  ret (a || ((Error reply =? 0) && (buf_Size (Data reply) =? 0))).

(** Lines 483-491: the frame the next transaction sends. *)
Definition next_frame (reply : GXReplyData) : M (goerror + slice byte) :=
  if IsStreaming reply then ret (inr None)
  else
    '(next, e) <- call_ReceiverReady reply ;;
    match e with
    | Some m => ret (inl (ErrExternal m))
    | None => ret (inr next)
    end.

Fixpoint ReadDataBlock_loop (fuel : nat) (reply : GXReplyData)
  : M (error * option GXReplyData) :=
  match fuel with
  | O => diverge
  | S fuel' =>
    go <- more_to_read reply ;;
    if go then
      x <- next_frame reply ;;
      match x with
      | inl err => ret (Some err, Some reply)
      | inr data =>
        '(err, reply') <- ReadDLMSPacket fuel' data (Some reply) ;;
        match err with
        | Some e => ret (Some e, reply')
        | None => reply <- deref reply' ;; ReadDataBlock_loop fuel' reply
        end
      end
    else ret (None, Some reply)
  end.

Definition ReadDataBlock (fuel : nat) (data : slice byte)
    (reply : option GXReplyData) : M (error * option GXReplyData) :=
  '(err, reply) <- ReadDLMSPacket fuel data reply ;;
  match err with
  | Some e => ret (Some e, reply)
  | None =>
    GetSynchronous ;;
    defer_unlock (reply <- deref reply ;; ReadDataBlock_loop fuel reply)
  end.

(** ** ReadDataBlocks (lines 459-470) *)

(** The [range] loop; [inl] is the [return false, err]. *)
Fixpoint ReadDataBlocks_range (fuel : nat) (blocks : list (slice byte))
    (reply : option GXReplyData) : M (error * option GXReplyData) :=
  match blocks with
  | [] => ret (None, reply)
  | b :: rest =>
    cur <- deref reply ;;
    '(err, reply) <- ReadDataBlock fuel b (Some (Clear cur)) ;;
    match err with
    | Some e => ret (Some e, reply)
    | None => ReadDataBlocks_range fuel rest reply
    end
  end.

Definition ReadDataBlocks (fuel : nat) (blocks : slice (slice byte))
    (reply : option GXReplyData) : M (bool * error * option GXReplyData) :=
  if is_nil blocks then ret (true, None, reply)
  else
    '(err, reply) <- ReadDataBlocks_range fuel (elems blocks) reply ;;
    match err with
    | Some e => ret (false, Some e, reply)
    | None => cur <- deref reply ;; ret (Error cur =? 0, None, reply)
    end.

(** ** ReadList (lines 523-545) *)

(** [reply.Value.([]any)], the two-result form, then [append]. *)
Definition append_values (values : list any) (v : any) : list any :=
  match v with
  | any_list s => values ++ elems s
  | _ => values
  end.

(** The [range] loop of lines 530-540; [Some e] is the [return err]. *)
Fixpoint ReadList_range (fuel : nat) (frames : list (slice byte))
    (reply : GXReplyData) (values : list any) : M (error * list any) :=
  match frames with
  | [] => ret (None, values)
  | frame :: rest =>
    '(err, reply') <- ReadDataBlock fuel frame (Some reply) ;;
    match err with
    | Some e => ret (Some e, values)
    | None =>
      reply <- deref reply' ;;
      let values := if negb (IsMoreData reply)
                    then append_values values (Value reply) else values in
      ReadList_range fuel rest (Clear reply) values
    end
  end.

Definition ReadList (fuel : nat) (list : list KeyValuePair) : M error :=
  '(frames, e) <- call_ReadList list ;;
  match e with
  | Some m => ret (Some (ErrExternal m))
  | None =>
    '(err, values) <- ReadList_range fuel (elems frames) NewGXReplyData [] ;;
    match err with
    | Some e => ret (Some e)
    | None =>
      if negb (Z.of_nat (List.length values) =? Z.of_nat (List.length list)) then
        ret (Some (ErrInvalidReplyCount (Z.of_nat (List.length values))
                                        (Z.of_nat (List.length list))))
      else
        e <- call_UpdateValues list values ;;
        ret (lift_err e)
    end
  end.

(** ** Release, Disconnect, Close (lines 618-666) *)

(** The condition of lines 622-623; a nil [Ciphering()] panics. *)
Definition needs_release (c : Client) : M bool :=
  if InterfaceType c =? InterfaceTypeWRAPPER then ret true
  else
    match Ciphering_Security c with
    | Some s => ret (negb (s =? SecurityNone) && negb (PreEstablishedConnection c))
    | None => panic
    end.

Definition Release (fuel : nat) : M error :=
  r <- get_reader ;;
  match client r, media r with
  | Some c, Some _ =>
    needed <- needs_release c ;;
    if needed then
      '(frames, e) <- call_ReleaseRequest ;;
      match e with
      | Some m => ret (Some (ErrExternal m))
      | None =>
        '(_, err, _) <- ReadDataBlocks fuel frames (Some NewGXReplyData) ;;
        ret err
      end
    else ret None
  | _, _ => ret None
  end.

(** Lines 645-653, what [Disconnect] does after the release step. *)
Definition Disconnect_request (fuel : nat) : M error :=
  '(frame, e) <- call_DisconnectRequest ;;
  match e with
  | Some m => ret (Some (ErrExternal m))
  | None =>
    if is_nil frame then ret None
    else
      '(err, _) <- ReadDLMSPacket fuel frame (Some NewGXReplyData) ;;
      ret err
  end.

Definition Disconnect (fuel : nat) : M error :=
  r <- get_reader ;;
  match client r, media r with
  | Some _, Some _ =>
    err <- Release fuel ;;
    (match err with
     | Some e => writeTrace (TraceReleaseFailed e)
     | None => ret tt
     end) ;;
    Disconnect_request fuel
  | _, _ => ret None
  end.

Definition Close (fuel : nat) : M error :=
  r <- get_reader ;;
  match media r with
  | None => ret None
  | Some _ =>
    _ <- Disconnect fuel ;;
    e <- call_Close ;;
    fun w => Ret (lift_err e) (with_client None (with_media None w))
  end.

End Reader.

(** ** Counting what crossed the boundary *)

Section Observations.

Context {T : LibTypes} {Ops : LibOps}.

Definition is_send (e : Event) : bool :=
  match e with EvSend _ => true | _ => false end.
Definition is_update (e : Event) : bool :=
  match e with EvUpdateValues _ _ => true | _ => false end.

Definition count (f : Event -> bool) (w : World) : nat :=
  List.length (filter f (events w)).

Definition sends : World -> nat := count is_send.
Definition updates : World -> nat := count is_update.

End Observations.

(** ** Vocabulary of the properties *)

Section Vocabulary.

Context {T : LibTypes} {Ops : LibOps}.

Definition present {A : Type} (o : option A) : bool :=
  match o with Some _ => true | None => false end.

(** [steady P w w']: [w'] comes after [w], nothing but events allowed by
    [P] was added to the log, the COSEM objects are untouched, and the
    reader still has its media, its client and its retry bound. *)
Definition steady (P : Event -> bool) (w w' : World) : Prop :=
  objects w' = objects w
  /\ (exists evs, events w' = evs ++ events w /\ forallb P evs = true)
  /\ present (media (rdr w')) = present (media (rdr w))
  /\ present (client (rdr w')) = present (client (rdr w))
  /\ RetryCount (rdr w') = RetryCount (rdr w).

Definition preserves {A : Type} (R : World -> World -> Prop) (m : M A) : Prop :=
  forall w a w', m w = Ret a w' -> R w w'.

Definition returns {A : Type} (Q : A -> Prop) (m : M A) : Prop :=
  forall w a w', m w = Ret a w' -> Q a.

(** [m'] does what [m] does whenever [m] does not run out of fuel. *)
Definition extends {A : Type} (m m' : M A) : Prop :=
  forall w, m w <> Diverge -> m' w = m w.

(** The events of one transaction under the lock. *)
Definition transact_event (e : Event) : bool :=
  match e with
  | EvSend _ | EvReceive _ _ | EvGetData | EvNotify _ | EvLogPrintf _
  | EvPrintln _ | EvTraceFile _ _ => true
  | _ => false
  end.


(** The events of [ReadDLMSPacket] and [ReadDataBlock]. *)
Definition block_event (e : Event) : bool :=
  match e with
  | EvLock | EvUnlock | EvSleep _ | EvReceiverReady => true
  | e => transact_event e
  end.

Definition list_event (e : Event) : bool :=
  match e with
  | EvReadListRequest _ => true
  | e => block_event e
  end.


(** The condition under which the block sequencer keeps reading, as the
    specification words it: (a) more data is pending and the connection
    state is not None or the connection is pre-established, or (b) the
    error code is zero and no data has arrived. *)
Definition continuation_condition (reply : GXReplyData) (c : Client) : bool :=
  (IsMoreData reply
   && (negb (ConnectionState c =? ConnectionStateNone) || PreEstablishedConnection c))
  || ((Error reply =? 0) && (buf_Size (Data reply) =? 0)).

(** [blocks_done fuel k blocks reply w reply' w']: [ReadDataBlock] ran [k]
    times, once per block and in order, each time on the cleared
    accumulator, and each time without error. *)
Inductive blocks_done (fuel : nat)
  : nat -> list (slice byte) -> GXReplyData -> World -> GXReplyData -> World -> Prop :=
| blocks_done_nil reply w : blocks_done fuel 0 [] reply w reply w
| blocks_done_cons n b rest reply w reply1 w1 reply' w' :
    ReadDataBlock fuel b (Some (Clear reply)) w = Ret (None, Some reply1) w1 ->
    blocks_done fuel n rest reply1 w1 reply' w' ->
    blocks_done fuel (S n) (b :: rest) reply w reply' w'.





(** A media on which sending works and nothing ever arrives. *)
Definition silent_media : Prop :=
  (forall d m, fst (media_Send d m) = None)
  /\ (forall p m, exists m', media_Receive p m = (false, None, p, m')).

End Vocabulary.

(** ** A simulated device

    A scripted media and a one-byte-tag codec, used to run the reader on
    concrete inputs. *)

Module Sim.

(** What one call of [Receive] does: its two results and, if any, what it
    stores in [p.Reply]. *)
Record Rx : Type := mkRx {
  rx_ok : bool;
  rx_err : xerror;
  rx_reply : option any
}.

Definition answer (b : list byte) : Rx := mkRx true None (Some (any_bytes (Some b))).
Definition timeout : Rx := mkRx false None None.

Record Flags : Type := mkFlags {
  streaming : bool;
  more : bool;
  complete : bool
}.

Record Codec : Type := mkCodec {
  interface : Z;
  connection : Z;
  preestablished : bool;
  security : option Z;
  release_frames : slice (slice byte) * xerror;
  disconnect_frame : slice byte * xerror;
  readlist_frames : slice (slice byte) * xerror;
  update_result : xerror
}.

#[export] Instance types : LibTypes := {|
  Media := list Rx;
  Client := Codec;
  GXByteBuffer := list byte;
  ReplyInternals := Flags;
  IGXDLMSBase := nat;
  ObjectStore := list (nat * Z * any)
|}.

Definition fresh : GXReplyData := mkReply 0 [] any_nil 0 (mkFlags false false false).

(** An accumulator in the middle of a streamed frame. *)
Definition streaming_reply : GXReplyData :=
  mkReply 0 [] any_nil 0 (mkFlags true false false).

Definition receive (p : ReceiveParameters) (m : list Rx)
  : bool * xerror * ReceiveParameters * list Rx :=
  match m with
  | [] => (false, None, p, [])
  | rx :: m' =>
      (rx_ok rx, rx_err rx,
       match rx_reply rx with Some a => set_Reply a p | None => p end, m')
  end.

(** The codec reads the first byte of the buffer as a tag:
    00 complete reply whose payload is the rest; 01 complete, device error
    "rejected"; 02 complete, device error 1; 03 complete block with more
    to follow; 04 undecodable; anything else, or nothing: not complete
    yet. *)
Definition parse (rd : list byte) (reply notify : GXReplyData) (c : Codec)
  : bool * xerror * list byte * GXReplyData * GXReplyData * Codec :=
  match rd with
  | Byte.x00 :: payload =>
      (true, None, [],
       mkReply (Error reply) (Data reply ++ payload)
               (any_list (Some (map any_byte payload))) 0
               (mkFlags false false true),
       notify, c)
  | Byte.x01 :: _ =>
      (true, None, [], set_Error (-2) reply, notify, c)
  | Byte.x02 :: _ =>
      (true, None, [], set_Error 1 reply, notify, c)
  | Byte.x03 :: payload =>
      (true, None, [],
       mkReply (Error reply) (Data reply ++ payload) (Value reply) 0
               (mkFlags false true false),
       notify, c)
  | Byte.x04 :: _ => (false, Some "undecodable"%string, rd, reply, notify, c)
  | _ => (false, None, rd, reply, notify, c)
  end.

Definition update (l : list KeyValuePair) (values : list any) (c : Codec)
    (o : list (nat * Z * any)) : xerror * Codec * list (nat * Z * any) :=
  match update_result c with
  | Some m => (Some m, c, o)
  | None => (None, c, combine l values ++ o)
  end.

#[export] Instance ops : LibOps := {|
  media_Send := fun _ m => (None, m);
  media_Receive := receive;
  media_Close := fun m => (None, m);
  NewReceiveParameters := mkParams any_nil 0 false 0 any_nil;
  TraceLevelInfo := 3;
  NewGXByteBuffer := [];
  buf_Set := fun b rd => (None, rd ++ elems b);
  buf_Size := fun rd => Z.of_nat (List.length rd);
  NewGXReplyData := fresh;
  IsStreaming := fun r => streaming (internals r);
  IsMoreData := fun r => more (internals r);
  IsComplete := fun r => complete (internals r);
  Clear := fun _ => fresh;
  InterfaceType := interface;
  GetFrameSize := fun _ _ => 1;
  GetData := parse;
  ConnectionState := connection;
  PreEstablishedConnection := preestablished;
  ReceiverReady := fun _ c => (Some [Byte.x11], None, c);
  Ciphering_Security := security;
  client_ReadList := fun _ c => (readlist_frames c, c);
  UpdateValues := update;
  ReleaseRequest := fun c => (release_frames c, c);
  DisconnectRequest := fun c => (disconnect_frame c, c);
  InterfaceTypeHDLC := 0;
  InterfaceTypeHdlcWithModeE := 5;
  InterfaceTypeWRAPPER := 1;
  ConnectionStateNone := 0;
  SecurityNone := 0;
  ErrorCodeRejected := -2
|}.

(** An HDLC codec with an established association and no ciphering. *)
Definition codec : Codec :=
  mkCodec 0 2 false (Some 0)
          (Some [Some [Byte.x53]], None) (Some [Byte.x53], None)
          (Some [Some [Byte.xc0]], None) None.


(** A reader as [NewGXDLMSReader] makes it, with the retry bound set to
    [retries] and the media playing [script]. *)
Definition reader (c : Codec) (retries : Z) (script : list Rx) : GXDLMSReader :=
  let r := NewGXDLMSReader (Some c) (Some script) 0 "" 5000 in
  mkReader (WaitTime r) retries (InvocationCounter r) (media r) (trace r)
           (client r) (traceFile r) (OnNotification r).

Definition world_of (c : Codec) (retries : Z) (script : list Rx) : World :=
  mkWorld (reader c retries script) [] [].

Definition world (retries : Z) (script : list Rx) : World :=
  world_of codec retries script.

Definition frame : slice byte := Some [Byte.x7e; Byte.xa0; Byte.x7e].

End Sim.

(** ** More vocabulary: locks, receives, frames on the wire *)

Section MoreVocabulary.

Context {T : LibTypes} {Ops : LibOps}.

Definition is_lock (e : Event) : bool :=
  match e with EvLock => true | _ => false end.
Definition is_unlock (e : Event) : bool :=
  match e with EvUnlock => true | _ => false end.
Definition is_receive (e : Event) : bool :=
  match e with EvReceive _ _ => true | _ => false end.
Definition is_close (e : Event) : bool :=
  match e with EvMediaClose => true | _ => false end.

Definition locks : World -> nat := count is_lock.
Definition releases : World -> nat := count is_unlock.
Definition receives : World -> nat := count is_receive.
Definition closes : World -> nat := count is_close.

(** Between [w] and [w'] the media was locked as often as it was
    unlocked. *)
Definition balanced (w w' : World) : Prop :=
  (locks w' + releases w = releases w' + locks w)%nat.

Definition slice_eq_dec (a b : slice byte) : {a = b} + {a <> b}.
Proof.
  decide equality. apply list_eq_dec. apply Byte.byte_eq_dec.
Defined.

(** The events of a block exchange in which every frame sent is
    [data]. *)
Definition frame_event (data : slice byte) (e : Event) : bool :=
  match e with
  | EvSend d => if slice_eq_dec d data then true else false
  | e => block_event e
  end.

(** Any event but taking or releasing the lock. *)
Definition lock_free_event (e : Event) : bool :=
  negb (is_lock e) && negb (is_unlock e).

(** The events of [writeTrace]. *)
Definition trace_event (e : Event) : bool :=
  match e with
  | EvPrintln _ | EvTraceFile _ _ => true
  | _ => false
  end.

(** The events added to the log between [w] and [w']. *)
Definition added (w w' : World) (evs : list Event) : Prop :=
  events w' = evs ++ events w.

(** The errors an exchange with the device can end in: the frame was
    empty, the device did not answer in time, a collaborator failed, or the
    device reported an error code other than zero and "rejected". *)
Definition exchange_error (e : goerror) : Prop :=
  match e with
  | ErrPacketEmpty | ErrNoReply | ErrExternal _ => True
  | ErrDlms c => c <> 0 /\ c <> ErrorCodeRejected
  | ErrReplyNil | ErrInvalidReplyCount _ _ => False
  end.

(** [IsStreaming] does not look at the error code. *)
Definition streaming_ignores_error : Prop :=
  forall (e : Z) (r : GXReplyData), IsStreaming (set_Error e r) = IsStreaming r.

(** The call [m] started in [w] came to an end in [w'], by returning or by
    a panic. *)
Definition ends {A : Type} (m : M A) (w w' : World) : Prop :=
  (exists a, m w = Ret a w') \/ m w = Panic w'.

(** Every call that comes to an end has added events that satisfy [Q]. *)
Definition emits {A : Type} (Q : list Event -> Prop) (m : M A) : Prop :=
  forall w w', ends m w w' -> exists evs, added w w' evs /\ Q evs.

(** On a piece of the log (newest event first): how many times the lock
    is held at its end, counted from its beginning; the most it was held
    at any moment; how many times it was taken. *)
Definition lock_step (e : Event) : Z :=
  if is_lock e then 1 else if is_unlock e then -1 else 0.

Fixpoint held (evs : list Event) : Z :=
  match evs with
  | [] => 0
  | e :: older => held older + lock_step e
  end.

Fixpoint deepest (evs : list Event) : Z :=
  match evs with
  | [] => 0
  | e :: older => Z.max (held (e :: older)) (deepest older)
  end.

Definition taken (evs : list Event) : Z :=
  Z.of_nat (List.length (filter is_lock evs)).

(** Classes of pieces of the log: without lock events; with the lock
    back where it was; the same and, if the lock was taken at all, held at
    some moment; the same and held as many times over as it was taken. *)
Definition quiet (evs : list Event) : Prop :=
  forallb lock_free_event evs = true.

Definition level (evs : list Event) : Prop := held evs = 0.

Definition flat (evs : list Event) : Prop :=
  held evs = 0 /\ (1 <= taken evs -> 1 <= deepest evs).

Definition chain (evs : list Event) : Prop :=
  held evs = 0 /\ taken evs <= deepest evs.

(** A class of pieces of the log that holds the lock-free events and is
    closed under sequence. *)
Definition sequential (Q : list Event -> Prop) : Prop :=
  Q [] /\ (forall e, lock_free_event e = true -> Q [e])
  /\ (forall a b, Q a -> Q b -> Q (b ++ a)).

(** What a body run under [GetSynchronous] and its deferred unlock adds:
    nothing when taking the lock panicked, else what the body added,
    between the two lock events. *)
Definition locked (Q : list Event -> Prop) (evs : list Event) : Prop :=
  evs = [] \/ exists body, evs = EvUnlock :: body ++ [EvLock] /\ Q body.

(** What [ReadDataBlock] adds: its first transaction, then its own lock
    around the follow-ups. *)
Definition block (evs : list Event) : Prop :=
  exists first rest, evs = rest ++ first /\ chain first /\ locked flat rest.

End MoreVocabulary.

(** ** The simulated device on a faulty line

    The codec of [Sim] behind a media on which nothing ever arrives, and
    behind one that refuses every send. *)

Module Faulty.

Definition with_transport
    (send : slice byte -> @Media Sim.types -> xerror * @Media Sim.types)
    (receive : ReceiveParameters -> @Media Sim.types ->
               bool * xerror * ReceiveParameters * @Media Sim.types)
  : @LibOps Sim.types :=
  {| media_Send := send;
     media_Receive := receive;
     media_Close := @media_Close _ Sim.ops;
     NewReceiveParameters := @NewReceiveParameters _ Sim.ops;
     TraceLevelInfo := @TraceLevelInfo _ Sim.ops;
     NewGXByteBuffer := @NewGXByteBuffer _ Sim.ops;
     buf_Set := @buf_Set _ Sim.ops;
     buf_Size := @buf_Size _ Sim.ops;
     NewGXReplyData := @NewGXReplyData _ Sim.ops;
     IsStreaming := @IsStreaming _ Sim.ops;
     IsMoreData := @IsMoreData _ Sim.ops;
     IsComplete := @IsComplete _ Sim.ops;
     Clear := @Clear _ Sim.ops;
     InterfaceType := @InterfaceType _ Sim.ops;
     GetFrameSize := @GetFrameSize _ Sim.ops;
     GetData := @GetData _ Sim.ops;
     ConnectionState := @ConnectionState _ Sim.ops;
     PreEstablishedConnection := @PreEstablishedConnection _ Sim.ops;
     ReceiverReady := @ReceiverReady _ Sim.ops;
     Ciphering_Security := @Ciphering_Security _ Sim.ops;
     client_ReadList := @client_ReadList _ Sim.ops;
     UpdateValues := @UpdateValues _ Sim.ops;
     ReleaseRequest := @ReleaseRequest _ Sim.ops;
     DisconnectRequest := @DisconnectRequest _ Sim.ops;
     InterfaceTypeHDLC := @InterfaceTypeHDLC _ Sim.ops;
     InterfaceTypeHdlcWithModeE := @InterfaceTypeHdlcWithModeE _ Sim.ops;
     InterfaceTypeWRAPPER := @InterfaceTypeWRAPPER _ Sim.ops;
     ConnectionStateNone := @ConnectionStateNone _ Sim.ops;
     SecurityNone := @SecurityNone _ Sim.ops;
     ErrorCodeRejected := @ErrorCodeRejected _ Sim.ops |}.

(** Every send goes out, nothing ever comes back. *)
Definition silent : @LibOps Sim.types :=
  with_transport (fun _ m => (None, m)) (fun p m => (false, None, p, m)).

(** Every send fails. *)
Definition broken : @LibOps Sim.types :=
  with_transport (fun _ m => (Some "write failed"%string, m)) Sim.receive.

End Faulty.

(** ** The command line (main.go, getParameters)

    [getParameters] turns the argument list into the settings of a run.
    It calls the DLMS client's setters, the enum parsers of gxdlms-go, the
    constructor of gxnet-go and a few functions of Go's standard library
    whose behaviour depends on Unicode tables or on number syntax
    ([strconv.Atoi], [strconv.ParseUint], [strings.ToLower],
    [strings.TrimSpace]); all of these are operations of the class
    [CommandLineOps].  [strings.Split], [strings.LastIndex],
    [strings.HasPrefix], [len] and slicing work on bytes and are
    written out. *)

Module Params.

Import Ascii.

(** gxnet.GXNet, the fields the parser writes. *)
Record GXNet : Type := mkNet {
  Protocol : Z;
  HostName : string;
  Port : Z
}.

Inductive EnumKind : Type :=
| KAuthentication | KSecurity | KSecuritySuite | KSigning | KStandard
| KInterfaceType | KConformance | KServiceClass | KTraceLevel.

(** The setters of the client (and of its ciphering and HDLC settings)
    that return an error. *)
Inductive Setting : Type :=
| SetAuthentication (v : Z)
| SetPassword (pw : string)
| SetClientAddress (n : Z)
| SetServerAddress (n : Z)
| SetUseLogicalNameReferencing (b : bool)
| SetSecurity (v : Z)
| SetSecuritySuite (v : Z)
| SetSigning (v : Z)
| SetSystemTitle (b : list byte)
| SetRecipientSystemTitle (b : list byte)
| SetAuthenticationKey (b : list byte)
| SetBlockCipherKey (b : list byte)
| SetBroadcastBlockCipherKey (b : list byte)
| SetDedicatedKey (b : list byte)
| SetInvocationCounter (n : Z)
| SetStandard (v : Z)
| SetUseUtc2NormalTime (b : bool)
| SetGateway (networkID : Z) (physicalDeviceAddress : list byte)
| SetInterfaceType (v : Z)
| SetGbtWindowSize (n : Z)
| SetWindowSizeRX (n : Z)
| SetMaxInfoRX (n : Z)
| SetProposedConformance (v : Z)
| SetManufacturerID (s : string)
| SetServiceClass (v : Z)
| SetAutoIncreaseInvokeID (b : bool).

Class CommandLineOps {T : LibTypes} : Type := {
  (* gxdlms-go *)
  NewGXDLMSSecureClient : Client;
  apply_setting : Setting -> Client -> xerror * Client;
  set_MacDestinationAddress : Z -> Client -> Client;
  ServerAddress : Client -> Z;
  Standard : Client -> Z;
  StandardItaly : Z;
  StandardIndia : Z;
  StandardSaudiArabia : Z;
  parse_enum : EnumKind -> string -> Z + string;
  GetServerAddress : Z -> Z -> Z + string;
  GetServerAddressFromSerialNumber : Z -> Z -> Z + string;
  HexToBytes : string -> list byte;
  (* gxcommon-go, gxnet-go *)
  TraceLevelInfo : Z;
  NewGXNet : Z -> string -> Z -> GXNet;
  NetworkTypeTCP : Z;
  NetworkTypeUDP : Z;
  (* strconv, strings *)
  Atoi : string -> option Z;
  ParseUint : Z -> string -> option Z;
  ToLower : string -> string;
  TrimSpace : string -> string
}.

(** The messages of the errors [getParameters] makes itself, and the
    errors it passes on. *)
Inductive ParamError : Type :=
| ErrUnexpectedArgument (a : string)
| ErrRequiresValue (flag : string)
| ErrInvalidPort (v : string)
| ErrSerialNotSupported
| ErrInvalidClientAddress (v : string)
| ErrInvalidServerAddress (v : string)
| ErrInvalidLogicalServerAddress (v : string)
| ErrInvalidReferencing (v : string)
| ErrExpectedLNAttr (p : string)
| ErrInvalidAttributeIndex (attrStr p : string)
| ErrInvalidF (v : string)
| ErrInvalidNetworkId (s : string)
| ErrInvalidM (v : string)
| ErrInvalidW (v : string)
| ErrInvalidw (v : string)
| ErrInvalidX (v : string)
| ErrUnknownFlag (a : string)
| ErrLibrary (msg : string).

Section Parser.

Context {T : LibTypes} {C : CommandLineOps}.

Record gxSettings : Type := mkSettings {
  media : option GXNet;
  trace : Z;
  client : Client;
  invocationCounterLN : string;
  readObjects : list (string * Z);
  outputFile : string;
  ExportSecuritySetupLN : string;
  GenerateSecuritySetupLN : string;
  WaitTime : Z
}.

Definition put_media (m : option GXNet) (o : gxSettings) : gxSettings :=
  mkSettings m (trace o) (client o) (invocationCounterLN o) (readObjects o)
             (outputFile o) (ExportSecuritySetupLN o) (GenerateSecuritySetupLN o)
             (WaitTime o).
Definition put_trace (t : Z) (o : gxSettings) : gxSettings :=
  mkSettings (media o) t (client o) (invocationCounterLN o) (readObjects o)
             (outputFile o) (ExportSecuritySetupLN o) (GenerateSecuritySetupLN o)
             (WaitTime o).
Definition put_client (c : Client) (o : gxSettings) : gxSettings :=
  mkSettings (media o) (trace o) c (invocationCounterLN o) (readObjects o)
             (outputFile o) (ExportSecuritySetupLN o) (GenerateSecuritySetupLN o)
             (WaitTime o).
Definition put_invocationCounterLN (v : string) (o : gxSettings) : gxSettings :=
  mkSettings (media o) (trace o) (client o) v (readObjects o)
             (outputFile o) (ExportSecuritySetupLN o) (GenerateSecuritySetupLN o)
             (WaitTime o).
Definition put_readObjects (l : list (string * Z)) (o : gxSettings) : gxSettings :=
  mkSettings (media o) (trace o) (client o) (invocationCounterLN o) l
             (outputFile o) (ExportSecuritySetupLN o) (GenerateSecuritySetupLN o)
             (WaitTime o).
Definition put_outputFile (v : string) (o : gxSettings) : gxSettings :=
  mkSettings (media o) (trace o) (client o) (invocationCounterLN o) (readObjects o)
             v (ExportSecuritySetupLN o) (GenerateSecuritySetupLN o) (WaitTime o).
Definition put_Export (v : string) (o : gxSettings) : gxSettings :=
  mkSettings (media o) (trace o) (client o) (invocationCounterLN o) (readObjects o)
             (outputFile o) v (GenerateSecuritySetupLN o) (WaitTime o).
Definition put_Generate (v : string) (o : gxSettings) : gxSettings :=
  mkSettings (media o) (trace o) (client o) (invocationCounterLN o) (readObjects o)
             (outputFile o) (ExportSecuritySetupLN o) v (WaitTime o).
Definition put_WaitTime (n : Z) (o : gxSettings) : gxSettings :=
  mkSettings (media o) (trace o) (client o) (invocationCounterLN o) (readObjects o)
             (outputFile o) (ExportSecuritySetupLN o) (GenerateSecuritySetupLN o) n.

(** What [getParameters] comes to: [(nil, nil)] for a help flag, an error,
    the settings, or a run-time panic. *)
Inductive parsed : Type :=
| Help
| Failed (e : ParamError)
| Parsed (o : gxSettings)
| Crashed.

(** What one turn of the loop comes to: the function returns, or the loop
    goes on, after [i++] once more when the flag took a value. *)
Inductive turn : Type :=
| Return (r : parsed)
| Next (o : gxSettings) (took_value : bool).

(** *** Strings as Go has them: bytes *)

Definition slen (s : string) : Z := Z.of_nat (String.length s).

(** [s[i:j]] for [0 <= i <= j <= len(s)]. *)
Definition slice_of (s : string) (i j : Z) : string :=
  String.substring (Z.to_nat i) (Z.to_nat (j - i)) s.

(** [strings.LastIndex(s, string(c))]. *)
Fixpoint last_index_from (c : ascii) (s : string) (i : Z) (found : Z) : Z :=
  match s with
  | EmptyString => found
  | String a s' => last_index_from c s' (i + 1) (if Ascii.eqb a c then i else found)
  end.
Definition LastIndex (s : string) (c : ascii) : Z := last_index_from c s 0 (-1).

(** [strings.Split(s, string(c))]. *)
Fixpoint Split (s : string) (c : ascii) : list string :=
  match s with
  | EmptyString => [EmptyString]
  | String a s' =>
      if Ascii.eqb a c then EmptyString :: Split s' c
      else match Split s' c with
           | piece :: rest => String a piece :: rest
           | [] => [String a EmptyString]
           end
  end.

(** *** The flags *)

(** [needValue()] followed by the rest of the case. *)
Definition needValue (flag : string) (value : option string)
    (k : string -> turn) : turn :=
  match value with
  | Some v => k v
  | None => Return (Failed (ErrRequiresValue flag))
  end.

(** [err = opts.client.SetX(...); if err != nil { return nil, err }]. *)
Definition set (s : Setting) (o : gxSettings) : turn :=
  match apply_setting s (client o) with
  | (Some msg, _) => Return (Failed (ErrLibrary msg))
  | (None, c) => Next (put_client c o) true
  end.

Definition set_novalue (s : Setting) (o : gxSettings) : turn :=
  match apply_setting s (client o) with
  | (Some msg, _) => Return (Failed (ErrLibrary msg))
  | (None, c) => Next (put_client c o) false
  end.

(** [ret, err := enums.XParse(v); if err != nil { return nil, err }]. *)
Definition parse_then (k : EnumKind) (v : string) (f : Z -> turn) : turn :=
  match parse_enum k v with
  | inl ret => f ret
  | inr msg => Return (Failed (ErrLibrary msg))
  end.

(** The loop body of the [-g] case, lines 328-345. *)
Fixpoint read_objects (acc : list (string * Z)) (parts : list string)
  : ParamError + list (string * Z) :=
  match parts with
  | [] => inr acc
  | p :: rest =>
      let p := TrimSpace p in
      if String.eqb p "" then read_objects acc rest
      else
        let idx := LastIndex p ":"%char in
        if (idx <=? 0) || (idx =? slen p - 1) then inl (ErrExpectedLNAttr p)
        else
          let ln := TrimSpace (slice_of p 0 idx) in
          let attrStr := TrimSpace (slice_of p (idx + 1) (slen p)) in
          match Atoi attrStr with
          | None => inl (ErrInvalidAttributeIndex attrStr p)
          | Some attr =>
              if attr <=? 0 then inl (ErrInvalidAttributeIndex attrStr p)
              else read_objects (acc ++ [(ln, attr)]) rest
          end
  end.

(** The [switch], lines 185-655. *)
Definition flag_case (a flag : string) (value : option string) (o : gxSettings)
  : turn :=
  if String.eqb flag "h" then
    needValue flag value (fun v =>
      let m := match media o with
               | None => NewGXNet NetworkTypeTCP "" 0
               | Some m => m
               end in
      Next (put_media (Some (mkNet (Protocol m) v (Port m))) o) true)
  else if String.eqb flag "p" then
    needValue flag value (fun v =>
      match Atoi v with
      | None => Return (Failed (ErrInvalidPort v))
      | Some n =>
          match media o with
          | Some m => Next (put_media (Some (mkNet (Protocol m) (HostName m) n)) o) true
          | None => Next o true
          end
      end)
  else if String.eqb flag "S" then Return (Failed ErrSerialNotSupported)
  else if String.eqb flag "a" then
    needValue flag value (fun v =>
      parse_then KAuthentication v (fun ret => set (SetAuthentication ret) o))
  else if String.eqb flag "P" then
    needValue flag value (fun v => set (SetPassword v) o)
  else if String.eqb flag "c" then
    needValue flag value (fun v =>
      match Atoi v with
      | None => Return (Failed (ErrInvalidClientAddress v))
      | Some ret => set (SetClientAddress ret) o
      end)
  else if String.eqb flag "s" then
    needValue flag value (fun v =>
      match Atoi v with
      | None => Return (Failed (ErrInvalidServerAddress v))
      | Some ret =>
          if negb (ServerAddress (client o) =? 1) then
            match GetServerAddress (ServerAddress (client o)) ret with
            | inr _ => Return (Failed (ErrInvalidServerAddress v))
            | inl ret2 => set (SetServerAddress ret2) o
            end
          else set (SetServerAddress ret) o
      end)
  else if String.eqb flag "l" then
    needValue flag value (fun v =>
      match Atoi v with
      | None => Return (Failed (ErrInvalidLogicalServerAddress v))
      | Some n =>
          match GetServerAddress n (ServerAddress (client o)) with
          | inr _ => Return (Failed (ErrInvalidLogicalServerAddress v))
          | inl ret2 => set (SetServerAddress ret2) o
          end
      end)
  else if String.eqb flag "r" then
    needValue flag value (fun v =>
      let lower := ToLower v in
      if String.eqb lower "sn" then set (SetUseLogicalNameReferencing true) o
      else if String.eqb lower "ln" then set (SetUseLogicalNameReferencing false) o
      else Return (Failed (ErrInvalidReferencing v)))
  else if String.eqb flag "t" then
    needValue flag value (fun v =>
      parse_then KTraceLevel v (fun ret => Next (put_trace ret o) true))
  else if String.eqb flag "g" then
    needValue flag value (fun v =>
      match read_objects (readObjects o) (Split v ";"%char) with
      | inl e => Return (Failed e)
      | inr l => Next (put_readObjects l o) true
      end)
  else if String.eqb flag "C" then
    needValue flag value (fun v =>
      parse_then KSecurity v (fun ret => set (SetSecurity ret) o))
  else if String.eqb flag "V" then
    needValue flag value (fun v =>
      parse_then KSecuritySuite v (fun ret => set (SetSecuritySuite ret) o))
  else if String.eqb flag "K" then
    needValue flag value (fun v =>
      parse_then KSigning v (fun ret => set (SetSigning ret) o))
  else if String.eqb flag "v" then
    needValue flag value (fun v => Next (put_invocationCounterLN v o) true)
  else if String.eqb flag "o" then
    needValue flag value (fun v => Next (put_outputFile v o) true)
  else if String.eqb flag "T" then
    needValue flag value (fun v => set (SetSystemTitle (HexToBytes v)) o)
  else if String.eqb flag "M" then
    needValue flag value (fun v => set (SetRecipientSystemTitle (HexToBytes v)) o)
  else if String.eqb flag "A" then
    needValue flag value (fun v => set (SetAuthenticationKey (HexToBytes v)) o)
  else if String.eqb flag "B" then
    needValue flag value (fun v => set (SetBlockCipherKey (HexToBytes v)) o)
  else if String.eqb flag "b" then
    needValue flag value (fun v => set (SetBroadcastBlockCipherKey (HexToBytes v)) o)
  else if String.eqb flag "D" then
    needValue flag value (fun v => set (SetDedicatedKey (HexToBytes v)) o)
  else if String.eqb flag "F" then
    needValue flag value (fun v =>
      match ParseUint 32 v with
      | None => Return (Failed (ErrInvalidF v))
      | Some ret => set (SetInvocationCounter (ret mod 2 ^ 32)) o
      end)
  else if String.eqb flag "d" then
    needValue flag value (fun v =>
      parse_then KStandard v (fun ret =>
        match apply_setting (SetStandard ret) (client o) with
        | (Some msg, _) => Return (Failed (ErrLibrary msg))
        | (None, c) =>
            if (Standard c =? StandardItaly) || (Standard c =? StandardIndia)
               || (Standard c =? StandardSaudiArabia)
            then set (SetUseUtc2NormalTime true) (put_client c o)
            else Next (put_client c o) true
        end))
  else if String.eqb flag "E" then
    needValue flag value (fun v => Next (put_Export v o) true)
  else if String.eqb flag "N" then
    needValue flag value (fun v => Next (put_Generate v o) true)
  else if String.eqb flag "G" then
    needValue flag value (fun v =>
      let tmp := Split v ":"%char in
      match tmp with
      | [] => Return Crashed
      | tmp0 :: tmp' =>
          match Atoi tmp0 with
          | None => Return (Failed (ErrInvalidNetworkId tmp0))
          | Some ret =>
              match tmp' with
              | [] => Return Crashed
              | tmp1 :: _ => set (SetGateway (ret mod 256) (HexToBytes tmp1)) o
              end
          end
      end)
  else if String.eqb flag "i" then
    needValue flag value (fun v =>
      parse_then KInterfaceType v (fun ret => set (SetInterfaceType ret) o))
  else if String.eqb flag "m" then
    needValue flag value (fun v =>
      match Atoi v with
      | None => Return (Failed (ErrInvalidM v))
      | Some n =>
          Next (put_client (set_MacDestinationAddress (n mod 65536) (client o)) o) true
      end)
  else if String.eqb flag "W" then
    needValue flag value (fun v =>
      match Atoi v with
      | None => Return (Failed (ErrInvalidW v))
      | Some n => set (SetGbtWindowSize (n mod 256)) o
      end)
  else if String.eqb flag "w" then
    needValue flag value (fun v =>
      match Atoi v with
      | None => Return (Failed (ErrInvalidw v))
      | Some n => set (SetWindowSizeRX (n mod 256)) o
      end)
  else if String.eqb flag "f" then
    needValue flag value (fun v =>
      match Atoi v with
      | None => Return (Failed (ErrInvalidw v))
      | Some n => set (SetMaxInfoRX (n mod 65536)) o
      end)
  else if String.eqb flag "x" then
    needValue flag value (fun v =>
      match Atoi v with
      | None => Return (Failed (ErrInvalidX v))
      | Some n => Next (put_WaitTime n o) true
      end)
  else if String.eqb flag "O" then
    needValue flag value (fun v =>
      parse_then KConformance v (fun ret => set (SetProposedConformance ret) o))
  else if String.eqb flag "L" then
    needValue flag value (fun v => set (SetManufacturerID v) o)
  else if String.eqb flag "R" then
    needValue flag value (fun v =>
      parse_then KServiceClass v (fun ret => set (SetServiceClass ret) o))
  else if String.eqb flag "u" then
    let m := match media o with
             | None => NewGXNet NetworkTypeUDP "" 0
             | Some m => m
             end in
    Next (put_media (Some (mkNet NetworkTypeUDP (HostName m) (Port m))) o) false
  else if String.eqb flag "n" then
    needValue flag value (fun v =>
      match ParseUint 64 v with
      | None => Return (Failed (ErrInvalidF v))
      | Some ret =>
          match GetServerAddressFromSerialNumber ret 1 with
          | inr msg => Return (Failed (ErrLibrary msg))
          | inl ret2 => set (SetServerAddress ret2) o
          end
      end)
  else if String.eqb flag "I" then
    set_novalue (SetAutoIncreaseInvokeID true) o
  else Return (Failed (ErrUnknownFlag a)).

(** One turn of the loop, lines 168-656, on the argument [a] with the
    argument after it, if there is one. *)
Definition one_argument (a : string) (value : option string) (o : gxSettings)
  : turn :=
  if String.eqb a "--help" || String.eqb a "-?" || String.eqb a "-help" then
    Return Help
  else if negb (String.prefix "-" a) || negb (slen a =? 2) then
    Return (Failed (ErrUnexpectedArgument a))
  else flag_case a (slice_of a 1 (slen a)) value o.

(** The loop, lines 167-657. *)
Fixpoint parse_loop (o : gxSettings) (args : list string) : parsed :=
  match args with
  | [] => Parsed o
  | a :: rest =>
      match one_argument a (hd_error rest) o with
      | Return r => r
      | Next o' false => parse_loop o' rest
      | Next o' true =>
          match rest with
          | _ :: rest' => parse_loop o' rest'
          | [] => Parsed o'
          end
      end
  end.

Definition defaults : gxSettings :=
  mkSettings None TraceLevelInfo NewGXDLMSSecureClient "" [] "" "" "" 5000.

Definition getParameters (args : list string) : parsed := parse_loop defaults args.

End Parser.

(** The case labels of the [switch]: the flags that call [needValue], and
    the others. *)
Definition value_flags : list string :=
  ["h"; "p"; "a"; "P"; "c"; "s"; "l"; "r"; "t"; "g"; "C"; "V"; "K"; "v"; "o";
   "T"; "M"; "A"; "B"; "b"; "D"; "F"; "d"; "E"; "N"; "G"; "i"; "m"; "W"; "w";
   "f"; "x"; "O"; "L"; "R"; "n"]%string.
Definition other_flags : list string := ["S"; "u"; "I"]%string.

End Params.

(** ** A simulated command line

    Decimal numbers, ASCII letters and blanks, and a client that accepts
    every setting. *)

Module SimArgs.

Import Ascii.

Definition digit (c : ascii) : option Z :=
  let n := Z.of_nat (nat_of_ascii c) in
  if (48 <=? n) && (n <=? 57) then Some (n - 48) else None.

Fixpoint digits (s : string) (acc : Z) : option Z :=
  match s with
  | EmptyString => Some acc
  | String c s' =>
      match digit c with
      | Some d => digits s' (10 * acc + d)
      | None => None
      end
  end.

Definition atoi (s : string) : option Z :=
  match s with
  | EmptyString => None
  | String "-" s' =>
      match s' with
      | EmptyString => None
      | _ => option_map Z.opp (digits s' 0)
      end
  | _ => digits s 0
  end.

Definition parse_uint (bits : Z) (s : string) : option Z :=
  match s with
  | EmptyString => None
  | _ => match digits s 0 with
         | Some n => if n <? 2 ^ bits then Some n else None
         | None => None
         end
  end.

Definition lower (c : ascii) : ascii :=
  let n := nat_of_ascii c in
  if (65 <=? n)%nat && (n <=? 90)%nat then ascii_of_nat (n + 32) else c.

Fixpoint to_lower (s : string) : string :=
  match s with
  | EmptyString => EmptyString
  | String c s' => String (lower c) (to_lower s')
  end.

Fixpoint trim_left (s : string) : string :=
  match s with
  | String " " s' => trim_left s'
  | _ => s
  end.

Fixpoint trim_right (s : string) : string :=
  match s with
  | EmptyString => EmptyString
  | String c s' =>
      match trim_right s' with
      | EmptyString => if Ascii.eqb c " " then EmptyString else String c EmptyString
      | t => String c t
      end
  end.

#[export] Instance command_line : @Params.CommandLineOps Sim.types :=
  @Params.Build_CommandLineOps Sim.types
    (* NewGXDLMSSecureClient *) Sim.codec
    (* apply_setting *) (fun _ c => (None, c))
    (* set_MacDestinationAddress *) (fun _ c => c)
    (* ServerAddress *) (fun _ => 1)
    (* Standard *) (fun _ => 0)
    (* StandardItaly, StandardIndia, StandardSaudiArabia *) 1 2 3
    (* parse_enum *)
    (fun _ s => match atoi s with
                | Some n => inl n
                | None => inr "unknown value"%string
                end)
    (* GetServerAddress *) (fun logical physical => inl (logical * 16384 + physical))
    (* GetServerAddressFromSerialNumber *) (fun n _ => inl n)
    (* HexToBytes *) (fun _ => [])
    (* TraceLevelInfo *) 3
    (* NewGXNet *) Params.mkNet
    (* NetworkTypeTCP, NetworkTypeUDP *) 0 1
    (* Atoi, ParseUint *) atoi parse_uint
    (* ToLower *) to_lower
    (* TrimSpace *) (fun s => trim_right (trim_left s)).

End SimArgs.

(** * Proofs *)

(** ** Reasoning about computations *)

Section Combinators.

Context {T : LibTypes} {Ops : LibOps}.

Lemma bind_Ret {A B} (m : M A) (k : A -> M B) w b w' :
  bind m k w = Ret b w' -> exists a w1, m w = Ret a w1 /\ k a w1 = Ret b w'.
Proof.
  unfold bind. destruct (m w) eqn:E; try discriminate. eauto.
Qed.

Lemma returns_ret {A} (Q : A -> Prop) a : Q a -> returns Q (ret a).
Proof. intros H w a' w' E. now inversion E; subst. Qed.

Lemma returns_bind {A B} (Q : B -> Prop) (m : M A) (k : A -> M B) :
  (forall a, returns Q (k a)) -> returns Q (bind m k).
Proof.
  intros Hk w b w' H. apply bind_Ret in H as (a & w1 & _ & H). eapply Hk; eauto.
Qed.

Lemma returns_bind_with {A B} (P : A -> Prop) (Q : B -> Prop) (m : M A) (k : A -> M B) :
  returns P m -> (forall a, P a -> returns Q (k a)) -> returns Q (bind m k).
Proof.
  intros Hm Hk w b w' H. apply bind_Ret in H as (a & w1 & Ha & H).
  eapply Hk; eauto.
Qed.

Lemma returns_diverge {A} (Q : A -> Prop) : returns Q diverge.
Proof. intros w a w' H. discriminate. Qed.

Lemma returns_panic {A} (Q : A -> Prop) : returns Q panic.
Proof. intros w a w' H. discriminate. Qed.

Lemma returns_defer_unlock {A} (Q : A -> Prop) (m : M A) :
  returns Q m -> returns Q (defer_unlock m).
Proof.
  intros Hm w a w'. unfold defer_unlock. destruct (m w) eqn:E; try discriminate.
  intros H; inversion H; subst. eapply Hm; eauto.
Qed.

Lemma steady_refl P w : steady P w w.
Proof.
  repeat split; auto. exists []; auto.
Qed.

Lemma steady_trans P w1 w2 w3 : steady P w1 w2 -> steady P w2 w3 -> steady P w1 w3.
Proof.
  intros (Ho & (e1 & He1 & Hp1) & Hm & Hc & Hr) (Ho' & (e2 & He2 & Hp2) & Hm' & Hc' & Hr').
  repeat split; try congruence.
  exists (e2 ++ e1). split.
  - rewrite He2, He1. now rewrite app_assoc.
  - rewrite forallb_app. now rewrite Hp1, Hp2.
Qed.

Lemma steady_weaken (P Q : Event -> bool) w w' :
  (forall e, P e = true -> Q e = true) -> steady P w w' -> steady Q w w'.
Proof.
  intros HPQ (Ho & (e1 & He1 & Hp1) & Hm & Hc & Hr).
  repeat split; auto. exists e1; split; auto.
  rewrite forallb_forall in *. auto.
Qed.

Lemma steady_emit P e w : P e = true -> steady P w (emit e w).
Proof.
  intros H. repeat split; auto. exists [e]. simpl. now rewrite H.
Qed.

Lemma preserves_ret {A} P (a : A) : preserves (steady P) (ret a).
Proof. intros w a' w' H. inversion H; subst. apply steady_refl. Qed.

Lemma preserves_bind {A B} P (m : M A) (k : A -> M B) :
  preserves (steady P) m -> (forall a, preserves (steady P) (k a)) ->
  preserves (steady P) (bind m k).
Proof.
  intros Hm Hk w b w'. unfold bind. destruct (m w) eqn:E; try discriminate.
  intros H. eapply steady_trans; eauto. eapply Hk; eauto.
Qed.

Lemma preserves_weaken {A} (P Q : Event -> bool) (m : M A) :
  (forall e, P e = true -> Q e = true) ->
  preserves (steady P) m -> preserves (steady Q) m.
Proof. intros HPQ H w a w' E. eapply steady_weaken; eauto. Qed.

Lemma preserves_diverge {A} R : preserves R (@diverge T A).
Proof. intros w a w' H. discriminate. Qed.

Lemma preserves_panic {A} R : preserves R (@panic T A).
Proof. intros w a w' H. discriminate. Qed.

Lemma preserves_tell P e : P e = true -> preserves (steady P) (tell e).
Proof. intros H w a w' E. inversion E; subst. now apply steady_emit. Qed.

Lemma preserves_get_reader R : (forall w, R w w) -> preserves R get_reader.
Proof. intros H w a w' E. inversion E; subst; auto. Qed.

Lemma preserves_the_client P : preserves (steady P) the_client.
Proof.
  intros w a w'. unfold the_client. destruct (client (rdr w)); intros E; inversion E; subst.
  apply steady_refl.
Qed.

Lemma steady_media P e m w :
  P e = true -> present (media (rdr w)) = true ->
  steady P w (emit e (with_media (Some m) w)).
Proof.
  intros H Hm. repeat split; simpl; auto. exists [e]. simpl. now rewrite H.
Qed.

Lemma steady_client P e c w :
  P e = true -> present (client (rdr w)) = true ->
  steady P w (emit e (with_client (Some c) w)).
Proof.
  intros H Hm. repeat split; simpl; auto. exists [e]. simpl. now rewrite H.
Qed.


Lemma preserves_GetSynchronous P :
  P EvLock = true -> preserves (steady P) GetSynchronous.
Proof.
  intros HP w a w' H. unfold GetSynchronous in H.
  destruct (media (rdr w)); inversion H; subst. now apply steady_emit.
Qed.

Lemma preserves_call_Send P data :
  (forall d, P (EvSend d) = true) -> preserves (steady P) (call_Send data).
Proof.
  intros HP w a w' H. unfold call_Send in H.
  destruct (media (rdr w)) eqn:E; [|discriminate].
  destruct (media_Send data m). inversion H; subst.
  apply steady_media; auto. now rewrite E.
Qed.

Lemma preserves_call_Receive P p :
  (forall q b, P (EvReceive q b) = true) -> preserves (steady P) (call_Receive p).
Proof.
  intros HP w a w' H. unfold call_Receive in H.
  destruct (media (rdr w)) eqn:E; [|discriminate].
  destruct (media_Receive p m) as [[[? ?] ?] ?]. inversion H; subst.
  apply steady_media; auto. now rewrite E.
Qed.

Lemma preserves_call_Close P :
  P EvMediaClose = true -> preserves (steady P) call_Close.
Proof.
  intros HP w a w' H. unfold call_Close in H.
  destruct (media (rdr w)) eqn:E; [|discriminate].
  destruct (media_Close m). inversion H; subst.
  apply steady_media; auto. now rewrite E.
Qed.

Lemma preserves_call_GetData P rd reply notify :
  P EvGetData = true -> preserves (steady P) (call_GetData rd reply notify).
Proof.
  intros HP w a w' H. unfold call_GetData in H.
  destruct (client (rdr w)) eqn:E; [|discriminate].
  destruct (GetData rd reply notify c) as [[[[[? ?] ?] ?] ?] ?]. inversion H; subst.
  apply steady_client; auto. now rewrite E.
Qed.

Lemma preserves_call_ReceiverReady P reply :
  P EvReceiverReady = true -> preserves (steady P) (call_ReceiverReady reply).
Proof.
  intros HP w a w' H. unfold call_ReceiverReady in H.
  destruct (client (rdr w)) eqn:E; [|discriminate].
  destruct (ReceiverReady reply c) as [[? ?] ?]. inversion H; subst.
  apply steady_client; auto. now rewrite E.
Qed.

Lemma preserves_call_ReadList P l :
  (forall x, P (EvReadListRequest x) = true) -> preserves (steady P) (call_ReadList l).
Proof.
  intros HP w a w' H. unfold call_ReadList in H.
  destruct (client (rdr w)) eqn:E; [|discriminate].
  destruct (client_ReadList l c) as [[? ?] ?]. inversion H; subst.
  apply steady_client; auto. now rewrite E.
Qed.



Lemma preserves_defer_unlock {A} P (m : M A) :
  P EvUnlock = true -> preserves (steady P) m -> preserves (steady P) (defer_unlock m).
Proof.
  intros HP Hm w a w'. unfold defer_unlock. destruct (m w) eqn:E; try discriminate.
  intros H; inversion H; subst. eapply steady_trans; [eapply Hm; eauto|].
  now apply steady_emit.
Qed.

Lemma preserves_deref P r : preserves (steady P) (deref r).
Proof. destruct r; [apply preserves_ret | apply preserves_panic]. Qed.

Lemma preserves_assert_bytes P a : preserves (steady P) (assert_bytes a).
Proof. destruct a; first [apply preserves_ret | apply preserves_panic]. Qed.

Lemma extends_refl {A} (m : M A) : extends m m.
Proof. intros w _. reflexivity. Qed.

Lemma extends_diverge {A} (m : M A) : extends diverge m.
Proof. intros w H. now destruct H. Qed.

Lemma extends_bind {A B} (m m' : M A) (k k' : A -> M B) :
  extends m m' -> (forall a, extends (k a) (k' a)) ->
  extends (bind m k) (bind m' k').
Proof.
  intros Hm Hk w. unfold bind. intros H.
  destruct (m w) eqn:E.
  - rewrite (Hm w) by (rewrite E; discriminate). rewrite E. now apply Hk.
  - rewrite (Hm w) by (rewrite E; discriminate). now rewrite E.
  - now destruct H.
Qed.

Lemma extends_defer_unlock {A} (m m' : M A) :
  extends m m' -> extends (defer_unlock m) (defer_unlock m').
Proof.
  intros Hm w. unfold defer_unlock. intros H.
  destruct (m w) eqn:E.
  - rewrite (Hm w) by (rewrite E; discriminate). now rewrite E.
  - rewrite (Hm w) by (rewrite E; discriminate). now rewrite E.
  - now destruct H.
Qed.

End Combinators.

(** One step through the structure of a computation. *)
Ltac steady_step :=
  match goal with
  | |- preserves _ (ret _) => apply preserves_ret
  | |- preserves _ diverge => apply preserves_diverge
  | |- preserves _ panic => apply preserves_panic
  | |- preserves _ (bind _ _) => apply preserves_bind; [|intros]
  | |- preserves _ (tell _) => apply preserves_tell; reflexivity
  | |- preserves _ get_reader => apply preserves_get_reader; apply steady_refl
  | |- preserves _ the_client => apply preserves_the_client
  | |- preserves _ (deref _) => apply preserves_deref
  | |- preserves _ (assert_bytes _) => apply preserves_assert_bytes
  | |- preserves _ GetSynchronous => apply preserves_GetSynchronous; reflexivity
  | |- preserves _ (call_Send _) => apply preserves_call_Send; reflexivity
  | |- preserves _ (call_Receive _) => apply preserves_call_Receive; reflexivity
  | |- preserves _ (call_GetData _ _ _) => apply preserves_call_GetData; reflexivity
  | |- preserves _ (call_ReceiverReady _) => apply preserves_call_ReceiverReady; reflexivity
  | |- preserves _ (defer_unlock _) => apply preserves_defer_unlock; [reflexivity|]
  | |- preserves _ (match ?x with _ => _ end) => destruct x
  end.

Ltac extends_step :=
  match goal with
  | |- extends ?m ?m => apply extends_refl
  | |- extends diverge _ => apply extends_diverge
  | |- extends (bind _ _) (bind _ _) => apply extends_bind; [|intros]
  | |- extends (defer_unlock _) (defer_unlock _) => apply extends_defer_unlock
  | |- extends (match ?x with _ => _ end) _ => destruct x
  end.

Ltac returns_step :=
  match goal with
  | |- returns _ diverge => apply returns_diverge
  | |- returns _ panic => apply returns_panic
  | |- returns _ (bind _ _) => apply returns_bind; intros
  | |- returns _ (defer_unlock _) => apply returns_defer_unlock
  | |- returns _ (match ?x with _ => _ end) => destruct x eqn:?
  end.

(** ** What the loops leave alone, and fuel *)

Section Loops.

Context {T : LibTypes} {Ops : LibOps}.

Lemma preserves_writeTrace P line :
  (forall l, P (EvPrintln l) = true) -> (forall f l, P (EvTraceFile f l) = true) ->
  preserves (steady P) (writeTrace line).
Proof.
  intros H1 H2. unfold writeTrace.
  apply preserves_bind; [apply preserves_get_reader; apply steady_refl|intros r].
  apply preserves_bind; [|intros _].
  - destruct (_ <? _); [apply preserves_tell; auto | apply preserves_ret].
  - destruct (_ =? _)%string; [apply preserves_ret | apply preserves_tell; auto].
Qed.

Lemma preserves_sendLoop fuel data reply ok attempt p :
  preserves (steady transact_event) (sendLoop fuel data reply ok attempt p).
Proof.
  revert ok attempt p. induction fuel as [|fuel IH]; intros; simpl.
  - apply preserves_diverge.
  - repeat first [ apply IH | apply preserves_writeTrace; reflexivity | steady_step ].
Qed.

Lemma preserves_receiveLoop fuel data attempt p :
  preserves (steady transact_event) (receiveLoop fuel data attempt p).
Proof.
  revert attempt p. induction fuel as [|fuel IH]; intros; simpl.
  - apply preserves_diverge.
  - repeat first [ apply IH | steady_step ].
Qed.

Lemma preserves_getDataLoop fuel data rd reply notify attempt p :
  preserves (steady transact_event) (getDataLoop fuel data rd reply notify attempt p).
Proof.
  revert rd reply notify attempt p. induction fuel as [|fuel IH]; intros; simpl.
  - apply preserves_diverge.
  - repeat first [ apply IH | apply preserves_receiveLoop | steady_step ].
Qed.

Lemma preserves_transact fuel data reply eop :
  preserves (steady transact_event) (transact fuel data reply eop).
Proof.
  unfold transact.
  repeat first [ apply preserves_sendLoop | apply preserves_getDataLoop
               | apply preserves_writeTrace; reflexivity | steady_step ].
Qed.

Lemma transact_block_event e : transact_event e = true -> block_event e = true.
Proof. destruct e; simpl; auto. Qed.

Lemma preserves_ReadDLMSPacket fuel data reply :
  preserves (steady block_event) (ReadDLMSPacket fuel data reply).
Proof.
  revert reply. induction fuel as [|fuel IH]; intros; simpl; unfold end_of_packet;
  repeat first [ apply IH
               | apply preserves_weaken with (P := transact_event);
                 [exact transact_block_event | apply preserves_transact]
               | steady_step ].
Qed.

Lemma preserves_ReadDataBlock_loop fuel reply :
  preserves (steady block_event) (ReadDataBlock_loop fuel reply).
Proof.
  revert reply. induction fuel as [|fuel IH]; intros; simpl; unfold more_to_read, next_frame.
  - apply preserves_diverge.
  - repeat first [ apply IH | apply preserves_ReadDLMSPacket | steady_step ].
Qed.

Lemma preserves_ReadDataBlock fuel data reply :
  preserves (steady block_event) (ReadDataBlock fuel data reply).
Proof.
  unfold ReadDataBlock.
  repeat first [ apply preserves_ReadDataBlock_loop | apply preserves_ReadDLMSPacket | steady_step ].
Qed.

Lemma preserves_ReadDataBlocks_range fuel blocks reply :
  preserves (steady block_event) (ReadDataBlocks_range fuel blocks reply).
Proof.
  revert reply. induction blocks as [|b rest IH]; intros; simpl;
  repeat first [ apply IH | apply preserves_ReadDataBlock | steady_step ].
Qed.

Lemma preserves_ReadDataBlocks fuel blocks reply :
  preserves (steady block_event) (ReadDataBlocks fuel blocks reply).
Proof.
  unfold ReadDataBlocks.
  repeat first [ apply preserves_ReadDataBlocks_range | steady_step ].
Qed.

Lemma preserves_ReadList_range fuel frames reply values :
  preserves (steady block_event) (ReadList_range fuel frames reply values).
Proof.
  revert reply values. induction frames as [|b rest IH]; intros; simpl;
  repeat first [ apply IH | apply preserves_ReadDataBlock | steady_step ].
Qed.

Lemma sendLoop_fuel f f' data reply ok attempt p :
  (f <= f')%nat ->
  extends (sendLoop f data reply ok attempt p) (sendLoop f' data reply ok attempt p).
Proof.
  revert f' ok attempt p. induction f as [|f IH]; intros f' ok attempt p Hle.
  - apply extends_diverge.
  - destruct f' as [|f']; [lia|]. simpl.
    repeat first [ apply IH; lia | extends_step ].
Qed.

Lemma receiveLoop_fuel f f' data attempt p :
  (f <= f')%nat ->
  extends (receiveLoop f data attempt p) (receiveLoop f' data attempt p).
Proof.
  revert f' attempt p. induction f as [|f IH]; intros f' attempt p Hle.
  - apply extends_diverge.
  - destruct f' as [|f']; [lia|]. simpl.
    repeat first [ apply IH; lia | extends_step ].
Qed.

Lemma getDataLoop_fuel f f' data rd reply notify attempt p :
  (f <= f')%nat ->
  extends (getDataLoop f data rd reply notify attempt p)
          (getDataLoop f' data rd reply notify attempt p).
Proof.
  revert f' rd reply notify attempt p.
  induction f as [|f IH]; intros f' rd reply notify attempt p Hle.
  - apply extends_diverge.
  - destruct f' as [|f']; [lia|]. simpl.
    repeat first [ apply IH; lia | apply receiveLoop_fuel; lia | extends_step ].
Qed.

Lemma transact_fuel f f' data reply eop :
  (f <= f')%nat ->
  extends (transact f data reply eop) (transact f' data reply eop).
Proof.
  intros Hle. unfold transact.
  repeat first [ apply sendLoop_fuel; lia | apply getDataLoop_fuel; lia | extends_step ].
Qed.

Lemma ReadDLMSPacket_fuel f f' data reply :
  (f <= f')%nat ->
  extends (ReadDLMSPacket f data reply) (ReadDLMSPacket f' data reply).
Proof.
  revert f' reply. induction f as [|f IH]; intros f' reply Hle.
  - destruct f'; simpl; repeat first [ apply transact_fuel; lia | extends_step ].
  - destruct f' as [|f']; [lia|]. simpl.
    repeat first [ apply IH; lia | apply transact_fuel; lia | extends_step ].
Qed.

End Loops.

(** ** The frame transaction *)

Section FrameTransaction.

Context {T : LibTypes} {Ops : LibOps}.

(** "packet is empty" is only ever said of a frame of length zero. *)

Lemma sendLoop_packet_empty fuel data reply ok attempt p :
  returns (fun x => x = inl ErrPacketEmpty -> len data = 0)
          (sendLoop fuel data reply ok attempt p).
Proof.
  revert ok attempt p. induction fuel as [|fuel IH]; intros; simpl.
  - apply returns_diverge.
  - repeat first [ apply IH | returns_step
                 | apply returns_ret; intros E;
                   first [discriminate E | now apply Z.eqb_eq] ].
Qed.

Lemma receiveLoop_packet_empty fuel data attempt p :
  returns (fun x => x <> inl ErrPacketEmpty) (receiveLoop fuel data attempt p).
Proof.
  revert attempt p. induction fuel as [|fuel IH]; intros; simpl.
  - apply returns_diverge.
  - repeat first [ apply IH | returns_step | apply returns_ret; discriminate ].
Qed.

Lemma getDataLoop_packet_empty fuel data rd reply notify attempt p :
  returns (fun x => fst x <> inl ErrPacketEmpty)
          (getDataLoop fuel data rd reply notify attempt p).
Proof.
  revert rd reply notify attempt p. induction fuel as [|fuel IH]; intros; simpl.
  - apply returns_diverge.
  - apply returns_bind; intros [[[[complete e] rd'] reply'] notify'].
    destruct e; [apply returns_ret; discriminate|].
    destruct complete; [apply returns_ret; discriminate|].
    apply returns_bind; intros notify''. apply returns_bind; intros p'.
    apply returns_bind_with with (P := fun x => x <> inl ErrPacketEmpty);
      [apply receiveLoop_packet_empty|].
    intros [err|[att p'']] Hx.
    + apply returns_ret. simpl. congruence.
    + repeat first [ apply IH | returns_step | apply returns_ret; discriminate ].
Qed.

Lemma transact_packet_empty fuel data reply eop :
  returns (fun x => fst x = inl ErrPacketEmpty -> len data = 0)
          (transact fuel data reply eop).
Proof.
  unfold transact. apply returns_bind; intros c. apply returns_bind; intros r.
  eapply returns_bind_with; [apply sendLoop_packet_empty|].
  intros [err|p] Hx;
    [apply returns_ret; simpl; intros E; apply Hx; inversion E; reflexivity|].
  apply returns_bind; intros b.
  destruct (buf_Set b NewGXByteBuffer) as [[m|] rd];
    [apply returns_ret; discriminate|].
  eapply returns_bind_with; [apply getDataLoop_packet_empty|].
  intros [[err|rd'] reply'] Hy; simpl in Hy.
  - apply returns_ret. simpl. intros E. now destruct Hy.
  - apply returns_bind; intros _. apply returns_ret. discriminate.
Qed.

Lemma ReadDLMSPacket_packet_empty fuel data reply :
  returns (fun x => fst x = Some ErrPacketEmpty -> len data = 0)
          (ReadDLMSPacket fuel data reply).
Proof.
  revert reply. induction fuel as [|fuel IH]; intros [reply|]; simpl;
    try (apply returns_ret; simpl; discriminate).
  all: destruct (is_nil data && negb (IsStreaming reply));
    [apply returns_ret; simpl; discriminate|].
  all: apply returns_bind; intros eop; apply returns_bind; intros _;
    apply returns_defer_unlock.
  all: eapply returns_bind_with; [apply transact_packet_empty|].
  all: intros [[err|rd] reply'] Hy; simpl in Hy;
    [apply returns_ret; simpl; intros E; apply Hy; inversion E; reflexivity|].
  all: repeat first [ apply IH | returns_step | apply returns_ret; discriminate ].
Qed.

(** While the accumulator is streaming the first loop never leaves. *)
Lemma sendLoop_streaming fuel data reply p w :
  IsStreaming reply = true -> sendLoop fuel data reply false 0 p w = Diverge.
Proof.
  intros Hs. induction fuel as [|fuel IH]; simpl; auto.
  now rewrite Hs.
Qed.

Lemma transact_streaming fuel data reply eop w :
  IsStreaming reply = true ->
  forall a w', transact fuel data reply eop w <> Ret a w'.
Proof.
  intros Hs a w' H. unfold transact in H.
  apply bind_Ret in H as (c & w1 & _ & H).
  apply bind_Ret in H as (r & w2 & _ & H).
  apply bind_Ret in H as (x & w3 & Hx & _).
  rewrite sendLoop_streaming in Hx by assumption. discriminate.
Qed.

(** So a transaction entered with a streaming accumulator never returns:
    the first loop neither sends nor receives, and nothing in it changes
    the loop condition. *)
Lemma streaming_transaction_never_returns fuel data reply w :
  IsStreaming reply = true -> IsStreaming (set_Error 0 reply) = true ->
  forall a w', ReadDLMSPacket fuel data (Some reply) w <> Ret a w'.
Proof.
  intros Hs Hs0 a w' H.
  destruct fuel; simpl in H; rewrite Hs, andb_false_r in H.
  all: apply bind_Ret in H as (eop & w1 & _ & H).
  all: apply bind_Ret in H as (? & w2 & _ & H).
  all: unfold defer_unlock in H.
  all: match type of H with
       | context [bind ?m ?k ?w] => destruct (bind m k w) eqn:E; try discriminate
       end.
  all: apply bind_Ret in E as (tx & w3 & Hx & _).
  all: now apply transact_streaming in Hx.
Qed.

(** Claim C9.  Called with a nil frame while the accumulator is not
    streaming, [ReadDLMSPacket] returns nil at once, whatever the fuel: the
    world (so the event log: nothing sent, nothing received) and the
    accumulator come back unchanged.  And for such an accumulator the
    error "packet is empty" is only ever returned for a frame that is
    empty but not nil. *)
Theorem nil_frame_returns_at_once :
  forall (fuel : nat) (reply : GXReplyData) (w : World),
    IsStreaming reply = false ->
    ReadDLMSPacket fuel None (Some reply) w = Ret (None, Some reply) w
    /\ (forall data r w',
          ReadDLMSPacket fuel data (Some reply) w = Ret (Some ErrPacketEmpty, r) w' ->
          data = Some []).
Proof.
  intros fuel reply w Hs. split.
  - destruct fuel; simpl; now rewrite Hs.
  - intros data r w' H.
    pose proof (ReadDLMSPacket_packet_empty _ _ _ _ H eq_refl) as Hlen.
    destruct data as [[|b l]|]; auto.
    + simpl in Hlen. lia.
    + destruct fuel; simpl in H; rewrite Hs in H; discriminate.
Qed.

(** Claim C5, amended.  A nil accumulator yields the error "reply is nil"
    at once.  A frame that is empty but not nil, with an accumulator that
    is not streaming, yields "packet is empty" under the lock and before
    anything is sent.  A nil frame with an accumulator that is not
    streaming is not an error: the call returns nil at once.  While the
    accumulator is streaming no "packet is empty" error is returned. *)
Theorem frame_preconditions :
  (forall fuel data (w : World),
      ReadDLMSPacket fuel data None w = Ret (Some ErrReplyNil, None) w)
  /\ (forall fuel (reply : GXReplyData) (w : World) c m,
        IsStreaming (set_Error 0 reply) = false ->
        client (rdr w) = Some c -> media (rdr w) = Some m ->
        ReadDLMSPacket (S fuel) (Some []) (Some reply) w
        = Ret (Some ErrPacketEmpty, Some (set_Error 0 reply))
              (emit EvUnlock (emit EvLock w)))
  /\ (forall fuel (reply : GXReplyData) (w : World),
        IsStreaming reply = false ->
        ReadDLMSPacket fuel None (Some reply) w = Ret (None, Some reply) w)
  /\ (forall fuel data (reply : GXReplyData) (w : World) r w',
        IsStreaming (set_Error 0 reply) = true ->
        ReadDLMSPacket fuel data (Some reply) w <> Ret (Some ErrPacketEmpty, r) w').
Proof.
  repeat split.
  - intros. destruct fuel; reflexivity.
  - intros fuel reply w c m Hs Ec Em.
    simpl.
    unfold end_of_packet, bind, the_client, GetSynchronous, defer_unlock, transact,
      bind, the_client, get_reader, ret.
    rewrite Ec, Em. simpl. rewrite Ec. simpl. now rewrite Hs.
  - intros fuel reply w Hs. destruct fuel; simpl; now rewrite Hs.
  - intros fuel data reply w r w' Hs H.
    destruct fuel; simpl in H.
    all: destruct (is_nil data && negb (IsStreaming reply)); [discriminate|].
    all: apply bind_Ret in H as (eop & w1 & _ & H).
    all: apply bind_Ret in H as (? & w2 & _ & H).
    all: unfold defer_unlock in H.
    all: match type of H with
         | context [bind ?m ?k ?w] => destruct (bind m k w) eqn:E; try discriminate
         end.
    all: apply bind_Ret in E as (tx & w3 & Hx & _).
    all: now apply transact_streaming in Hx.
Qed.

End FrameTransaction.

(** ** The block sequencer and ReadList *)

Section Blocks.

Context {T : LibTypes} {Ops : LibOps}.

Lemma more_to_read_spec reply w b w' :
  more_to_read reply w = Ret b w' ->
  w' = w /\ forall c, client (rdr w) = Some c -> b = continuation_condition reply c.
Proof.
  unfold more_to_read, continuation_condition, bind, the_client, ret.
  destruct (IsMoreData reply); simpl.
  - destruct (client (rdr w)) eqn:E; [|discriminate].
    intros H; inversion H; subst. split; auto. intros c' Hc. now inversion Hc; subst.
  - intros H; inversion H; subst. split; auto.
Qed.

Lemma more_to_read_client reply w c :
  client (rdr w) = Some c ->
  more_to_read reply w = Ret (continuation_condition reply c) w.
Proof.
  intros Hc. unfold more_to_read, continuation_condition.
  destruct (IsMoreData reply); unfold bind, the_client, ret; simpl;
    rewrite ?Hc; reflexivity.
Qed.

Lemma ReadDataBlock_loop_exit fuel reply w r' w' :
  ReadDataBlock_loop fuel reply w = Ret (None, r') w' ->
  exists reply', r' = Some reply'
    /\ forall c', client (rdr w') = Some c' -> continuation_condition reply' c' = false.
Proof.
  revert reply w. induction fuel as [|fuel IH]; intros reply w H; simpl in H;
    [discriminate|].
  apply bind_Ret in H as (go & w1 & Hgo & H).
  apply more_to_read_spec in Hgo as [-> Hgo].
  destruct go.
  - apply bind_Ret in H as (nf & w2 & _ & H).
    destruct nf as [err|data]; [discriminate|].
    apply bind_Ret in H as ([err reply1] & w3 & _ & H).
    destruct err; [discriminate|].
    apply bind_Ret in H as (reply2 & w4 & _ & H).
    eapply IH; eauto.
  - inversion H; subst. exists reply. split; auto.
    intros c' Hc. symmetry. now apply Hgo.
Qed.

(** Claim C3.  [ReadDataBlock] runs the frame transaction once, and an
    error of it ends the call.  The loop condition of the source is the
    [continuation_condition] of the specification.  When it is false the
    loop returns nil without another transaction.  When it holds and the
    accumulator is streaming, the next transaction gets the nil frame and
    the codec is not asked for one.  When it holds and the accumulator is
    not streaming, the codec's [ReceiverReady] is asked, on the current
    accumulator, for the next frame.  And when [ReadDataBlock] returns nil
    the condition is false of the accumulator it leaves. *)
Theorem ReadDataBlock_continuation :
  forall (fuel : nat) (w : World) (c : Client),
    client (rdr w) = Some c ->
    (forall data reply,
        ReadDataBlock fuel data reply w =
        match ReadDLMSPacket fuel data reply w with
        | Ret (Some e, r) w1 => Ret (Some e, r) w1
        | Ret (None, r) w1 =>
            (GetSynchronous ;;
             defer_unlock (cur <- deref r ;; ReadDataBlock_loop fuel cur)) w1
        | Panic w1 => Panic w1
        | Diverge => Diverge
        end)
    /\ (forall reply,
          more_to_read reply w = Ret (continuation_condition reply c) w)
    /\ (forall reply,
          continuation_condition reply c = false ->
          ReadDataBlock_loop (S fuel) reply w = Ret (None, Some reply) w)
    /\ (forall reply,
          continuation_condition reply c = true ->
          IsStreaming reply = true ->
          ReadDataBlock_loop (S fuel) reply w =
          ('(err, reply') <- ReadDLMSPacket fuel None (Some reply) ;;
           match err with
           | Some e => ret (Some e, reply')
           | None => cur <- deref reply' ;; ReadDataBlock_loop fuel cur
           end) w)
    /\ (forall reply next e c',
          continuation_condition reply c = true ->
          IsStreaming reply = false ->
          ReceiverReady reply c = (next, e, c') ->
          ReadDataBlock_loop (S fuel) reply w =
          match e with
          | Some m => Ret (Some (ErrExternal m), Some reply)
          | None =>
              '(err, reply') <- ReadDLMSPacket fuel next (Some reply) ;;
              match err with
              | Some e => ret (Some e, reply')
              | None => cur <- deref reply' ;; ReadDataBlock_loop fuel cur
              end
          end (emit EvReceiverReady (with_client (Some c') w)))
    /\ (forall data reply r' w',
          ReadDataBlock fuel data reply w = Ret (None, r') w' ->
          exists reply' c',
            r' = Some reply' /\ client (rdr w') = Some c'
            /\ continuation_condition reply' c' = false).
Proof.
  intros fuel w c Hc. repeat split.
  - intros data reply. unfold ReadDataBlock. unfold bind at 1.
    destruct (ReadDLMSPacket fuel data reply w) as [[[e|] r] w1|w1|]; reflexivity.
  - intros reply. now apply more_to_read_client.
  - intros reply Hcond. simpl. unfold bind at 1.
    now rewrite (more_to_read_client reply _ Hc), Hcond.
  - intros reply Hcond Hs. simpl. unfold bind at 1.
    rewrite (more_to_read_client reply _ Hc), Hcond.
    unfold next_frame. rewrite Hs. reflexivity.
  - intros reply next e c' Hcond Hs Hrr. simpl. unfold bind at 1.
    rewrite (more_to_read_client reply _ Hc), Hcond.
    unfold next_frame. rewrite Hs. simpl.
    unfold bind at 1. unfold bind at 1. unfold call_ReceiverReady.
    rewrite Hc, Hrr. destruct e; reflexivity.
  - intros data reply r' w' H.
    pose proof (preserves_ReadDataBlock _ _ _ _ H) as (_ & _ & _ & Hp & _).
    rewrite Hc in Hp. simpl in Hp.
    unfold ReadDataBlock in H.
    apply bind_Ret in H as ([err r1] & w1 & _ & H).
    destruct err; [discriminate|].
    apply bind_Ret in H as (_ & w2 & _ & H).
    unfold defer_unlock in H.
    match type of H with
    | context [bind ?m ?k ?w] => destruct (bind m k w) eqn:E; try discriminate
    end.
    inversion H; subst. clear H.
    apply bind_Ret in E as (cur & w3 & _ & E).
    apply ReadDataBlock_loop_exit in E as (reply' & -> & Hex).
    simpl in Hp. destruct (client (rdr w0)) as [c'|] eqn:Ec; [|discriminate].
    exists reply', c'. repeat split; auto.
Qed.

Lemma ReadDataBlocks_range_done fuel n blocks reply w reply' w' :
  blocks_done fuel n blocks reply w reply' w' ->
  n = List.length blocks
  /\ ReadDataBlocks_range fuel blocks (Some reply) w = Ret (None, Some reply') w'.
Proof.
  induction 1 as [|n b rest reply w reply1 w1 reply' w' Hb _ [IHn IH]]; simpl.
  - auto.
  - split; [congruence|].
    unfold bind at 1. simpl. unfold bind at 1. now rewrite Hb.
Qed.

Lemma ReadDataBlocks_range_app fuel done rest reply w reply1 w1 n :
  blocks_done fuel n done reply w reply1 w1 ->
  ReadDataBlocks_range fuel (done ++ rest) (Some reply) w
  = ReadDataBlocks_range fuel rest (Some reply1) w1.
Proof.
  induction 1 as [|n b tl reply w reply1 w1 reply' w' Hb _ IH]; simpl; auto.
  unfold bind at 1. simpl. unfold bind at 1. now rewrite Hb.
Qed.

(** Claim C4.  For a non-nil block set, [ReadDataBlocks] clears the
    accumulator before each block and runs [ReadDataBlock] once per block
    in order: when all [k] runs succeed, [k] is the number of blocks and
    the result is nil together with a boolean that is true exactly when
    the accumulator's error code is zero; when the run on the [j+1]-th block
    is the first to fail, the result is false with that error right after
    that run, and the remaining blocks are not run. *)
Theorem ReadDataBlocks_runs :
  forall (fuel : nat) (blocks : list (slice byte)) (reply : GXReplyData) (w : World),
    (forall k reply' w',
        blocks_done fuel k blocks reply w reply' w' ->
        k = List.length blocks
        /\ ReadDataBlocks fuel (Some blocks) (Some reply) w
           = Ret (Error reply' =? 0, None, Some reply') w'
        /\ ((Error reply' =? 0) = true <-> Error reply' = 0))
    /\ (forall j done b rest reply1 w1 e r2 w2,
          blocks = done ++ b :: rest ->
          blocks_done fuel j done reply w reply1 w1 ->
          ReadDataBlock fuel b (Some (Clear reply1)) w1 = Ret (Some e, r2) w2 ->
          (S j <= List.length blocks)%nat
          /\ ReadDataBlocks fuel (Some blocks) (Some reply) w
             = Ret (false, Some e, r2) w2).
Proof.
  intros fuel blocks reply w. split.
  - intros k reply' w' H.
    apply ReadDataBlocks_range_done in H as [Hk H].
    repeat split; auto.
    + unfold ReadDataBlocks. simpl. unfold bind at 1. now rewrite H.
    + apply Z.eqb_eq.
    + apply Z.eqb_eq.
  - intros j done b rest reply1 w1 e r2 w2 -> Hdone Hb.
    pose proof (ReadDataBlocks_range_done Hdone) as [Hj _].
    split.
    + rewrite length_app. simpl. lia.
    + unfold ReadDataBlocks. simpl. unfold bind at 1.
      rewrite (ReadDataBlocks_range_app _ Hdone). simpl.
      unfold bind at 1. simpl. unfold bind at 1. now rewrite Hb.
Qed.


Lemma block_list_event e : block_event e = true -> list_event e = true.
Proof. destruct e; simpl; auto. Qed.

Lemma filter_none {A} (P f : A -> bool) (l : list A) :
  (forall e, P e = true -> f e = false) -> forallb P l = true -> filter f l = [].
Proof.
  intros HP. induction l as [|e l IH]; simpl; auto.
  intros H. apply andb_true_iff in H as [He Hl].
  rewrite (HP e He). auto.
Qed.

Lemma steady_count P f w w' :
  (forall e, P e = true -> f e = false) ->
  steady P w w' -> count f w' = count f w.
Proof.
  intros HP (_ & (evs & He & Hp) & _).
  unfold count. rewrite He, filter_app, length_app.
  now rewrite (filter_none P f evs HP Hp).
Qed.

Lemma steady_updates P w w' :
  (forall e, P e = true -> is_update e = false) ->
  steady P w w' -> updates w' = updates w /\ objects w' = objects w.
Proof.
  intros HP H. split; [now apply steady_count with (P := P)|apply H].
Qed.

(** Claim C10.  When [ReadList] returns the count-mismatch error,
    [UpdateValues] has not been called and no attribute value has been
    changed by the call. *)
Theorem ReadList_count_mismatch_applies_nothing :
  forall (fuel : nat) (request : list KeyValuePair) (w : World) got expected w',
    ReadList fuel request w = Ret (Some (ErrInvalidReplyCount got expected)) w' ->
    updates w' = updates w /\ objects w' = objects w.
Proof.
  intros fuel request w got expected w' H.
  apply steady_updates with (P := list_event); [now intros []|].
  unfold ReadList in H.
  apply bind_Ret in H as ([frames e] & w1 & Hf & H).
  apply preserves_call_ReadList with (P := list_event) in Hf; [|reflexivity].
  destruct e; [inversion H; subst; auto|].
  apply bind_Ret in H as ([err values] & w2 & Hr & H).
  apply preserves_ReadList_range in Hr.
  apply steady_weaken with (Q := list_event) in Hr; [|exact block_list_event].
  destruct err; [inversion H; subst; eapply steady_trans; eauto|].
  destruct (negb _).
  - inversion H; subst. eapply steady_trans; eauto.
  - apply bind_Ret in H as ([m|] & w3 & _ & H); discriminate.
Qed.

End Blocks.

(** ** Teardown *)

Section Teardown.

Context {T : LibTypes} {Ops : LibOps}.







(** Claim C8.  [Close] is idempotent: once a call of [Close] has returned,
    with or without an error, a second call returns nil and leaves the
    world as it is, so nothing is released, disconnected or closed
    again. *)
Theorem Close_twice :
  forall fuel fuel' (w : World) err w',
    Close fuel w = Ret err w' ->
    Close fuel' w' = Ret None w'.
Proof.
  intros fuel fuel' w err w' H. unfold Close in H.
  apply bind_Ret in H as (r & w1 & Hr & H). inversion Hr; subst; clear Hr.
  destruct (media (rdr w1)) eqn:Em.
  - apply bind_Ret in H as (? & w2 & _ & H).
    apply bind_Ret in H as (? & w3 & _ & H).
    inversion H; subst. reflexivity.
  - inversion H; subst. unfold Close, bind, get_reader. now rewrite Em.
Qed.


End Teardown.

(** ** Rejected replies *)

Section Rejected.

Context {T : LibTypes} {Ops : LibOps}.








End Rejected.

(** ** The retry bound *)

Section Retry.

Context {T : LibTypes} {Ops : LibOps}.

Lemma incr_small a : 0 <= a < 3 -> incr a = a + 1.
Proof.
  intros H. unfold incr, wrap64. rewrite Z.mod_small; lia.
Qed.

Lemma writeTrace_runs line w :
  exists w', writeTrace line w = Ret tt w'
             /\ rdr w' = rdr w /\ sends w' = sends w.
Proof.
  unfold writeTrace, bind, get_reader, tell, ret.
  destruct (TraceLevelInfo <? trace (rdr w)); simpl;
    destruct (traceFile (rdr w) =? "")%string; eauto.
Qed.

Lemma sendLoop_silent_next fuel data reply a p w :
  silent_media -> IsStreaming reply = false -> len data <> 0 ->
  media (rdr w) <> None -> 0 <= a < 3 ->
  exists w1 w2,
    (media (rdr w2) <> None /\ RetryCount (rdr w2) = RetryCount (rdr w)
     /\ client (rdr w2) = client (rdr w) /\ sends w2 = S (sends w))
    /\ (client (rdr w1) = client (rdr w) /\ sends w1 = S (sends w))
    /\ sendLoop (S fuel) data reply false a p w
       = if RetryCount (rdr w) <=? a + 1 then Ret (inl ErrNoReply) w1
         else sendLoop fuel data reply false (a + 1)
                (if any_is_nil (EOP p) then set_Count 1 p else p) w2.
Proof.
  intros [Hsend Hrecv] Hs Hlen Hm Ha.
  destruct (media (rdr w)) as [m|] eqn:Em; [clear Hm|congruence].
  destruct (writeTrace_runs (TraceTX data) w) as (wt & Ht & Hr & Hn).
  destruct (media_Send data m) as [e m1] eqn:Es.
  pose proof (Hsend data m) as He. rewrite Es in He. simpl in He. subst e.
  destruct (Hrecv p m1) as (m2 & Er).
  exists (emit (EvReceive p false)
            (with_media (Some m2) (emit (EvSend data) (with_media (Some m1) wt)))).
  exists (emit (EvLogPrintf (a + 1))
            (emit (EvReceive p false)
               (with_media (Some m2) (emit (EvSend data) (with_media (Some m1) wt))))).
  repeat split.
  - simpl. discriminate.
  - simpl. now rewrite Hr.
  - simpl. now rewrite Hr.
  - unfold sends, count in *. simpl. now rewrite Hn.
  - simpl. now rewrite Hr.
  - unfold sends, count in *. simpl. now rewrite Hn.
  - simpl. rewrite Hs. simpl.
    replace (a =? 3) with false by (symmetry; apply Z.eqb_neq; lia).
    replace (len data =? 0) with false by (symmetry; now apply Z.eqb_neq).
    simpl. unfold bind at 1. rewrite Ht.
    unfold bind at 1. unfold call_Send. rewrite Hr, Em, Es.
    unfold bind at 1. unfold call_Receive. simpl. rewrite Er. simpl.
    unfold bind at 1. unfold get_reader. simpl.
    rewrite incr_small by assumption. rewrite Hr.
    destruct (RetryCount (rdr w) <=? a + 1); reflexivity.
Qed.

(** With a retry bound of 1, 2 or 3 the first loop sends that many times
    and gives up. *)
Lemma sendLoop_silent_within_three fuel data reply p w :
  silent_media -> IsStreaming reply = false -> len data <> 0 ->
  media (rdr w) <> None -> 1 <= RetryCount (rdr w) <= 3 ->
  exists w',
    sendLoop (3 + fuel) data reply false 0 p w = Ret (inl ErrNoReply) w'
    /\ Z.of_nat (sends w') = Z.of_nat (sends w) + RetryCount (rdr w).
Proof.
  intros Hsil Hs Hlen Hm HN.
  destruct (@sendLoop_silent_next (2 + fuel) data reply 0 p w)
    as (w1 & w2 & (Hm2 & Hr2 & _ & Hn2) & (_ & Hn1) & E1); auto; [lia|].
  change (S (2 + fuel)) with (3 + fuel)%nat in E1. rewrite E1. simpl (0 + 1).
  destruct (RetryCount (rdr w) <=? 1) eqn:C1.
  { apply Z.leb_le in C1. exists w1. split; auto. lia. }
  apply Z.leb_gt in C1.
  destruct (@sendLoop_silent_next (1 + fuel) data reply 1
              (if any_is_nil (EOP p) then set_Count 1 p else p) w2)
    as (w3 & w4 & (Hm4 & Hr4 & _ & Hn4) & (_ & Hn3) & E2); auto; [lia|].
  change (S (1 + fuel)) with (2 + fuel)%nat in E2. rewrite E2. simpl (1 + 1).
  rewrite Hr2.
  destruct (RetryCount (rdr w) <=? 2) eqn:C2.
  { apply Z.leb_le in C2. exists w3. split; auto. lia. }
  apply Z.leb_gt in C2.
  match goal with
  | |- context [sendLoop _ _ _ _ 2 ?q w4] =>
      destruct (@sendLoop_silent_next fuel data reply 2 q w4)
        as (w5 & w6 & _ & (_ & Hn5) & E3); auto; [lia|]
  end.
  change (1 + fuel)%nat with (S fuel). rewrite E3. simpl (2 + 1).
  rewrite Hr4, Hr2.
  replace (RetryCount (rdr w) <=? 3) with true by (symmetry; apply Z.leb_le; lia).
  exists w5. split; auto. lia.
Qed.

(** With any larger bound the loop's own limit of 3 ends it first: three
    sends, no error, and [p.Reply] still what it was. *)
Lemma sendLoop_silent_beyond_three fuel data reply p w :
  silent_media -> IsStreaming reply = false -> len data <> 0 ->
  media (rdr w) <> None -> 4 <= RetryCount (rdr w) ->
  exists p' w',
    sendLoop (4 + fuel) data reply false 0 p w = Ret (inr p') w'
    /\ Reply p' = Reply p
    /\ client (rdr w') = client (rdr w)
    /\ sends w' = (sends w + 3)%nat.
Proof.
  intros Hsil Hs Hlen Hm HN.
  assert (forall q, Reply (if any_is_nil (EOP q) then set_Count 1 q else q) = Reply q)
    as Hfb by (intros q; now destruct (any_is_nil (EOP q))).
  destruct (@sendLoop_silent_next (3 + fuel) data reply 0 p w)
    as (w1 & w2 & (Hm2 & Hr2 & Hc2 & Hn2) & _ & E1); auto; [lia|].
  change (S (3 + fuel)) with (4 + fuel)%nat in E1. rewrite E1. simpl (0 + 1).
  replace (RetryCount (rdr w) <=? 1) with false by (symmetry; apply Z.leb_gt; lia).
  pose proof (Hfb p) as Hp1.
  set (p1 := if any_is_nil (EOP p) then set_Count 1 p else p) in *.
  destruct (@sendLoop_silent_next (2 + fuel) data reply 1 p1 w2)
    as (w3 & w4 & (Hm4 & Hr4 & Hc4 & Hn4) & _ & E2); auto; [lia|].
  change (S (2 + fuel)) with (3 + fuel)%nat in E2. rewrite E2. simpl (1 + 1).
  rewrite Hr2.
  replace (RetryCount (rdr w) <=? 2) with false by (symmetry; apply Z.leb_gt; lia).
  pose proof (Hfb p1) as Hp2.
  set (p2 := if any_is_nil (EOP p1) then set_Count 1 p1 else p1) in *.
  destruct (@sendLoop_silent_next (1 + fuel) data reply 2 p2 w4)
    as (w5 & w6 & (Hm6 & Hr6 & Hc6 & Hn6) & _ & E3); auto; [lia|].
  change (S (1 + fuel)) with (2 + fuel)%nat in E3. rewrite E3. simpl (2 + 1).
  rewrite Hr4, Hr2.
  replace (RetryCount (rdr w) <=? 3) with false by (symmetry; apply Z.leb_gt; lia).
  pose proof (Hfb p2) as Hp3.
  set (p3 := if any_is_nil (EOP p2) then set_Count 1 p2 else p2) in *.
  exists p3, w6. repeat split.
  - congruence.
  - congruence.
  - lia.
Qed.

Lemma end_of_packet_runs w c :
  client (rdr w) = Some c -> exists eop, end_of_packet w = Ret eop w.
Proof.
  intros Hc. unfold end_of_packet, bind, the_client, ret. rewrite Hc. eauto.
Qed.

Lemma ReadDLMSPacket_locked fuel data reply w c m :
  is_nil data = false -> client (rdr w) = Some c -> media (rdr w) = Some m ->
  exists eop,
    ReadDLMSPacket fuel data (Some reply) w
    = defer_unlock
        ('(y, reply1) <-
           (x <- sendLoop fuel data (set_Error 0 reply) false 0
                   (mkParams eop (GetFrameSize NewGXByteBuffer c) true
                             (WaitTime (rdr w)) (Reply NewReceiveParameters)) ;;
            match x with
            | inl err => ret (inl err, set_Error 0 reply)
            | inr p =>
                b <- assert_bytes (Reply p) ;;
                let '(e, rd) := buf_Set b NewGXByteBuffer in
                match e with
                | Some msg => ret (inl (ErrExternal msg), set_Error 0 reply)
                | None =>
                    '(y, reply1) <- getDataLoop fuel data rd (set_Error 0 reply)
                                      NewGXReplyData 0 p ;;
                    match y with
                    | inl err => ret (inl err, reply1)
                    | inr rd => writeTrace (TraceRX rd) ;; ret (inr rd, reply1)
                    end
                end
            end) ;;
         match y with
         | inl err => ret (Some err, Some reply1)
         | inr _ =>
             if negb (Error reply1 =? 0) then
               if Error reply1 =? ErrorCodeRejected then
                 tell (EvSleep time_Second) ;;
                 match fuel with
                 | O => diverge
                 | S fuel' => ReadDLMSPacket fuel' data (Some reply1)
                 end
               else ret (Some (ErrDlms (Error reply1)), Some reply1)
             else ret (None, Some reply1)
         end) (emit EvLock w).
Proof.
  intros Hnil Hc Hm.
  destruct (end_of_packet_runs w Hc) as (eop & He). exists eop.
  destruct fuel; cbn -[sendLoop getDataLoop]; rewrite Hnil; cbn -[sendLoop getDataLoop].
  all: unfold bind at 1; rewrite He; unfold bind at 1; unfold GetSynchronous; rewrite Hm.
  all: unfold defer_unlock, transact.
  all: unfold bind at 1; unfold bind at 1; unfold the_client;
    cbn -[sendLoop getDataLoop].
  all: rewrite Hc; reflexivity.
Qed.

(** The frame transaction on a silent media, by retry bound: a bound of
    1, 2 or 3 gives that many sends and the time-out error; with a bound
    of 4 or more the first loop stops at its own limit of 3 and the call
    goes on to [p.Reply.([]byte)]. *)
Lemma silent_media_retry_bound :
  forall (fuel : nat) (data : slice byte) (reply : GXReplyData) (w : World),
    silent_media ->
    IsStreaming (set_Error 0 reply) = false -> len data <> 0 ->
    client (rdr w) <> None -> media (rdr w) <> None ->
    (1 <= RetryCount (rdr w) <= 3 ->
       exists w',
         ReadDLMSPacket (3 + fuel) data (Some reply) w
         = Ret (Some ErrNoReply, Some (set_Error 0 reply)) w'
         /\ Z.of_nat (sends w') = Z.of_nat (sends w) + RetryCount (rdr w))
    /\ (4 <= RetryCount (rdr w) ->
        (forall s, Reply NewReceiveParameters <> any_bytes s) ->
        exists w',
          ReadDLMSPacket (4 + fuel) data (Some reply) w = Panic w'
          /\ sends w' = (sends w + 3)%nat).
Proof.
  intros fuel data reply w Hsil Hs Hlen Hc Hm.
  assert (is_nil data = false) as Hnil by (destruct data; [reflexivity|now destruct Hlen]).
  destruct (client (rdr w)) as [c|] eqn:Ec; [clear Hc|congruence].
  destruct (media (rdr w)) as [m|] eqn:Em; [|congruence].
  split.
  - intros HN.
    destruct (@ReadDLMSPacket_locked (3 + fuel) data reply w c m Hnil Ec Em) as (eop & ->).
    destruct (@sendLoop_silent_within_three fuel data (set_Error 0 reply)
                (mkParams eop (GetFrameSize NewGXByteBuffer c) true
                   (WaitTime (rdr w)) (Reply NewReceiveParameters))
                (emit EvLock w))
      as (w' & E & Hn); auto.
    { simpl. rewrite Em. discriminate. }
    exists (emit EvUnlock w'). split.
    + unfold defer_unlock. unfold bind at 1. unfold bind at 1. rewrite E. reflexivity.
    + unfold sends, count in *. simpl in *. lia.
  - intros HN Hnb.
    destruct (@ReadDLMSPacket_locked (4 + fuel) data reply w c m Hnil Ec Em) as (eop & ->).
    destruct (@sendLoop_silent_beyond_three fuel data (set_Error 0 reply)
                (mkParams eop (GetFrameSize NewGXByteBuffer c) true
                   (WaitTime (rdr w)) (Reply NewReceiveParameters))
                (emit EvLock w))
      as (p' & w' & E & Hp & _ & Hn); auto.
    { simpl. rewrite Em. discriminate. }
    exists (emit EvUnlock w'). split.
    + unfold defer_unlock. unfold bind at 1. unfold bind at 1. rewrite E.
      unfold bind at 1. simpl in Hp. rewrite Hp.
      destruct (Reply NewReceiveParameters) eqn:Er; try reflexivity.
      now destruct (Hnb s).
    + unfold sends, count in *. simpl in *. lia.
Qed.

End Retry.

(** * Further properties of the reader *)

(** ** What a nil error and a device error mean *)

Section Verdicts.

Context {T : LibTypes} {Ops : LibOps}.

Lemma sendLoop_errors fuel data reply ok attempt p :
  returns (fun x => forall e, x = inl e -> exchange_error e)
          (sendLoop fuel data reply ok attempt p).
Proof.
  revert ok attempt p. induction fuel as [|fuel IH]; intros; simpl.
  - apply returns_diverge.
  - repeat first [ apply IH | returns_step
                 | apply returns_ret; intros e E; inversion E; exact I ].
Qed.

Lemma receiveLoop_errors fuel data attempt p :
  returns (fun x => forall e, x = inl e -> exchange_error e)
          (receiveLoop fuel data attempt p).
Proof.
  revert attempt p. induction fuel as [|fuel IH]; intros; simpl.
  - apply returns_diverge.
  - repeat first [ apply IH | returns_step
                 | apply returns_ret; intros e E; inversion E; exact I ].
Qed.

Lemma getDataLoop_errors fuel data rd reply notify attempt p :
  returns (fun x => forall e, fst x = inl e -> exchange_error e)
          (getDataLoop fuel data rd reply notify attempt p).
Proof.
  revert rd reply notify attempt p. induction fuel as [|fuel IH]; intros; simpl.
  - apply returns_diverge.
  - apply returns_bind; intros [[[[complete e] rd'] reply'] notify'].
    destruct e; [apply returns_ret; intros e E; inversion E; exact I|].
    destruct complete; [apply returns_ret; intros e E; inversion E|].
    apply returns_bind; intros notify''. apply returns_bind; intros p'.
    eapply returns_bind_with; [apply receiveLoop_errors|].
    intros [err|[att p'']] Hx.
    + apply returns_ret. simpl. intros e E. inversion E; subst. now apply Hx.
    + repeat first [ apply IH | returns_step
                   | apply returns_ret; intros e E; inversion E; exact I ].
Qed.

Lemma transact_errors fuel data reply eop :
  returns (fun x => forall e, fst x = inl e -> exchange_error e)
          (transact fuel data reply eop).
Proof.
  unfold transact. apply returns_bind; intros c. apply returns_bind; intros r.
  eapply returns_bind_with; [apply sendLoop_errors|].
  intros [err|p] Hx.
  { apply returns_ret. simpl. intros e E. inversion E; subst. now apply Hx. }
  apply returns_bind; intros b.
  destruct (buf_Set b NewGXByteBuffer) as [[m|] rd];
    [apply returns_ret; intros e E; inversion E; exact I|].
  eapply returns_bind_with; [apply getDataLoop_errors|].
  intros [[err|rd'] reply'] Hy; simpl in Hy.
  - apply returns_ret. simpl. intros e E. inversion E; subst. now apply Hy.
  - apply returns_bind; intros _. apply returns_ret. intros e E. inversion E.
Qed.

(** What [ReadDLMSPacket] can return on a non-nil accumulator and a
    non-nil frame. *)
Lemma ReadDLMSPacket_verdicts fuel data reply :
  is_nil data = false ->
  returns (fun x =>
             exists r', snd x = Some r'
               /\ match fst x with
                  | None => Error r' = 0
                  | Some e => exchange_error e
                  end)
          (ReadDLMSPacket fuel data (Some reply)).
Proof.
  intros Hd. revert reply.
  induction fuel as [|fuel IH]; intros reply; simpl; rewrite Hd; simpl.
  all: apply returns_bind; intros eop; apply returns_bind; intros _;
    apply returns_defer_unlock.
  all: eapply returns_bind_with; [apply transact_errors|].
  all: intros [[err|rd] reply'] Hy; simpl in Hy;
    [apply returns_ret; exists reply'; split; [reflexivity|]; simpl; now apply Hy|].
  all: destruct (Error reply' =? 0) eqn:E0; simpl;
    [apply returns_ret; exists reply'; split; [reflexivity|];
     simpl; now apply Z.eqb_eq|].
  all: destruct (Error reply' =? ErrorCodeRejected) eqn:Er;
    [|apply returns_ret; exists reply'; split; [reflexivity|]; simpl;
      split; now apply Z.eqb_neq].
  all: apply returns_bind; intros _.
  - apply returns_diverge.
  - apply IH.
Qed.

Lemma ReadDLMSPacket_errors fuel data reply :
  returns (fun x => forall e, fst x = Some e -> exchange_error e)
          (ReadDLMSPacket fuel data (Some reply)).
Proof.
  revert reply. induction fuel as [|fuel IH]; intros reply; simpl.
  all: destruct (is_nil data && negb (IsStreaming reply));
    [apply returns_ret; intros e E; inversion E|].
  all: apply returns_bind; intros eop; apply returns_bind; intros _;
    apply returns_defer_unlock.
  all: eapply returns_bind_with; [apply transact_errors|].
  all: intros [[err|rd] reply'] Hy; simpl in Hy;
    [apply returns_ret; simpl; intros e E; inversion E; subst; now apply Hy|].
  all: destruct (Error reply' =? 0) eqn:E0; simpl;
    [apply returns_ret; intros e E; inversion E|].
  all: destruct (Error reply' =? ErrorCodeRejected) eqn:Er;
    [|apply returns_ret; simpl; intros e E; inversion E; subst;
      split; now apply Z.eqb_neq].
  all: apply returns_bind; intros _.
  - apply returns_diverge.
  - apply IH.
Qed.

Lemma ReadDLMSPacket_keeps_pointer fuel data reply :
  returns (fun x => exists r', snd x = Some r')
          (ReadDLMSPacket fuel data (Some reply)).
Proof.
  revert reply. induction fuel as [|fuel IH]; intros reply; simpl.
  all: repeat first [ apply IH | returns_step | apply returns_ret; simpl; eauto ].
Qed.

(** With a nil frame the call returns the accumulator as it was, or not
    at all. *)
Lemma ReadDLMSPacket_nil_frame fuel reply :
  streaming_ignores_error ->
  returns (fun x => x = (None, Some reply))
          (ReadDLMSPacket fuel None (Some reply)).
Proof.
  intros Hind w a w' H.
  destruct (IsStreaming reply) eqn:Hs.
  - exfalso.
    apply (@streaming_transaction_never_returns _ _ fuel None reply w Hs
             (eq_trans (Hind 0 reply) Hs) a w' H).
  - destruct fuel; simpl in H; rewrite Hs in H; simpl in H; now inversion H.
Qed.

Lemma ReadDLMSPacket_nil_error fuel data reply :
  streaming_ignores_error ->
  returns (fun x => fst x = None ->
                    exists r', snd x = Some r' /\ (Error r' = 0 \/ r' = reply))
          (ReadDLMSPacket fuel data (Some reply)).
Proof.
  intros Hind w a w' H Hn.
  destruct data as [l|].
  - destruct (@ReadDLMSPacket_verdicts fuel (Some l) reply eq_refl w a w' H)
      as (r' & Hr & Hv).
    rewrite Hn in Hv. eauto.
  - apply ReadDLMSPacket_nil_frame in H; auto. subst a. simpl. eauto.
Qed.

Lemma next_frame_errors reply :
  returns (fun x => forall e, x = inl e -> exchange_error e) (next_frame reply).
Proof.
  unfold next_frame.
  repeat first [ returns_step | apply returns_ret; intros e E; inversion E; exact I ].
Qed.

Lemma ReadDataBlock_loop_verdicts fuel reply :
  streaming_ignores_error -> Error reply = 0 ->
  returns (fun x =>
             exists r', snd x = Some r'
               /\ match fst x with
                  | None => Error r' = 0
                  | Some e => exchange_error e
                  end)
          (ReadDataBlock_loop fuel reply).
Proof.
  intros Hind. revert reply.
  induction fuel as [|fuel IH]; intros reply H0; simpl.
  - apply returns_diverge.
  - apply returns_bind; intros go. destruct go;
      [|apply returns_ret; simpl; eauto].
    eapply returns_bind_with; [apply next_frame_errors|].
    intros [err|data] Hnf.
    + apply returns_ret. exists reply. split; [reflexivity|]. simpl. now apply Hnf.
    + intros w a w' H. apply bind_Ret in H as ([err reply'] & w1 & Hp & H).
      pose proof Hp as He. apply ReadDLMSPacket_errors in He.
      pose proof Hp as Hn. apply ReadDLMSPacket_nil_error in Hn; [|exact Hind].
      pose proof Hp as Hr1. apply ReadDLMSPacket_keeps_pointer in Hr1 as (r1 & Hr1).
      simpl in He, Hn, Hr1. subst reply'.
      destruct err as [e|].
      * inversion H; subst. exists r1. split; [reflexivity|]. simpl. now apply He.
      * destruct (Hn eq_refl) as (r2 & E2 & Hz). inversion E2; subst r2.
        simpl in H. eapply IH; [|exact H].
        destruct Hz as [Hz|Hz]; [exact Hz|now subst].
Qed.

Lemma ReadDataBlock_verdicts fuel data reply :
  streaming_ignores_error -> is_nil data = false ->
  returns (fun x =>
             exists r', snd x = Some r'
               /\ match fst x with
                  | None => Error r' = 0
                  | Some e => exchange_error e
                  end)
          (ReadDataBlock fuel data (Some reply)).
Proof.
  intros Hind Hd w a w' H. unfold ReadDataBlock in H.
  apply bind_Ret in H as ([err reply'] & w1 & Hp & H).
  pose proof Hp as Hv. apply ReadDLMSPacket_verdicts in Hv as (r1 & Hr1 & Hv);
    [|exact Hd].
  simpl in Hr1, Hv. subst reply'.
  destruct err as [e|].
  - inversion H; subst. exists r1. split; auto.
  - apply bind_Ret in H as (u & w2 & _ & H).
    unfold defer_unlock in H.
    match type of H with
    | context [bind ?m ?k ?w] => destruct (bind m k w) eqn:E; try discriminate
    end.
    inversion H; subst. clear H.
    apply bind_Ret in E as (cur & w3 & Hc & E). inversion Hc; subst cur w3.
    apply ReadDataBlock_loop_verdicts in E; auto.
Qed.

Lemma ReadDataBlocks_range_verdicts fuel blocks reply :
  streaming_ignores_error ->
  Forall (fun b => is_nil b = false) blocks -> blocks <> [] ->
  returns (fun x =>
             exists r', snd x = Some r'
               /\ match fst x with
                  | None => Error r' = 0
                  | Some e => exchange_error e
                  end)
          (ReadDataBlocks_range fuel blocks (Some reply)).
Proof.
  intros Hind Hall. revert reply.
  induction Hall as [|b rest Hb Hrest IH]; intros reply Hne; [congruence|].
  simpl. intros w a w' H.
  apply bind_Ret in H as (cur & w0 & Hc & H). inversion Hc; subst cur w0.
  apply bind_Ret in H as ([err reply'] & w1 & Hp & H).
  apply ReadDataBlock_verdicts in Hp as (r1 & Hr1 & Hv); auto.
  simpl in Hr1, Hv. subst reply'.
  destruct err as [e|].
  - inversion H; subst. exists r1. split; auto.
  - destruct rest as [|b' rest'].
    + simpl in H. inversion H; subst. exists r1. split; auto.
    + eapply IH; [discriminate|exact H].
Qed.

Lemma ReadDataBlock_loop_errors fuel reply :
  returns (fun x => forall e, fst x = Some e -> exchange_error e)
          (ReadDataBlock_loop fuel reply).
Proof.
  revert reply. induction fuel as [|fuel IH]; intros reply; simpl.
  - apply returns_diverge.
  - apply returns_bind; intros go. destruct go;
      [|apply returns_ret; intros e E; inversion E].
    eapply returns_bind_with; [apply next_frame_errors|].
    intros [err|data] Hnf.
    + apply returns_ret. simpl. intros e E. inversion E; subst. now apply Hnf.
    + eapply returns_bind_with; [apply ReadDLMSPacket_errors|].
      intros [[e|] reply'] He; simpl in He.
      * apply returns_ret. simpl. intros e' E. inversion E; subst. now apply He.
      * apply returns_bind; intros cur. apply IH.
Qed.

Lemma ReadDataBlock_errors fuel data reply :
  returns (fun x => forall e, fst x = Some e -> exchange_error e)
          (ReadDataBlock fuel data (Some reply)).
Proof.
  unfold ReadDataBlock.
  eapply returns_bind_with; [apply ReadDLMSPacket_errors|].
  intros [[e|] reply'] He; simpl in He.
  - apply returns_ret. simpl. intros e' E. inversion E; subst. now apply He.
  - apply returns_bind; intros _. apply returns_defer_unlock.
    apply returns_bind; intros cur. apply ReadDataBlock_loop_errors.
Qed.

Lemma ReadDataBlocks_range_errors fuel blocks reply :
  returns (fun x => forall e, fst x = Some e -> exchange_error e)
          (ReadDataBlocks_range fuel blocks reply).
Proof.
  revert reply. induction blocks as [|b rest IH]; intros reply; simpl.
  - apply returns_ret. intros e E. inversion E.
  - apply returns_bind; intros cur.
    eapply returns_bind_with; [apply ReadDataBlock_errors|].
    intros [[e|] reply'] He; simpl in He.
    + apply returns_ret. simpl. intros e' E. inversion E; subst. now apply He.
    + apply IH.
Qed.

(** Property X1.  For a frame that is not nil, a nil error from [ReadDLMSPacket]
    means that the accumulator's error code is zero: a reply that carries
    a device error is never reported as success. *)
Theorem nil_error_means_error_code_zero :
  forall (fuel : nat) (data : slice byte) (reply : GXReplyData) (w : World) r w',
    is_nil data = false ->
    ReadDLMSPacket fuel data (Some reply) w = Ret (None, r) w' ->
    exists r', r = Some r' /\ Error r' = 0.
Proof.
  intros fuel data reply w r w' Hd H.
  apply ReadDLMSPacket_verdicts in H as (r' & Hr & Hv); [|exact Hd].
  simpl in Hr, Hv. eauto.
Qed.

(** Property X2.  The boolean of [ReadDataBlocks] carries no information for a
    set of frames none of which is nil: whenever the call returns without
    error on a non-empty set the boolean is true and the accumulator's
    error code is zero (for a codec whose [IsStreaming] does not depend on
    the error code). *)
Theorem ReadDataBlocks_ok_whenever_no_error :
  forall (fuel : nat) (blocks : list (slice byte)) (reply : GXReplyData)
         (w : World) ok r w',
    streaming_ignores_error ->
    Forall (fun b => is_nil b = false) blocks -> blocks <> [] ->
    ReadDataBlocks fuel (Some blocks) (Some reply) w = Ret (ok, None, r) w' ->
    ok = true /\ exists r', r = Some r' /\ Error r' = 0.
Proof.
  intros fuel blocks reply w ok r w' Hind Hall Hne H.
  unfold ReadDataBlocks in H. simpl in H.
  apply bind_Ret in H as ([err reply'] & w1 & Hr & H).
  apply ReadDataBlocks_range_verdicts in Hr as (r1 & Hr1 & Hv); auto.
  simpl in Hr1, Hv. subst reply'.
  destruct err as [e|]; [discriminate|].
  simpl in H. inversion H; subst. split; [now apply Z.eqb_eq|eauto].
Qed.

(** Property X3.  Every error [ReadDataBlocks] returns comes with the boolean
    false and is one of: "packet is empty", the time-out, an error of a
    collaborator (media or codec), or a device error whose code is neither
    zero nor "rejected".  It never reports "reply is nil" or a count
    mismatch. *)
Theorem ReadDataBlocks_errors :
  forall (fuel : nat) (blocks : slice (slice byte)) (reply : option GXReplyData)
         (w : World) ok e r w',
    ReadDataBlocks fuel blocks reply w = Ret (ok, Some e, r) w' ->
    ok = false /\ exchange_error e.
Proof.
  intros fuel blocks reply w ok e r w' H.
  unfold ReadDataBlocks in H.
  destruct (is_nil blocks); [discriminate|].
  apply bind_Ret in H as ([err reply'] & w1 & Hr & H).
  apply ReadDataBlocks_range_errors in Hr. simpl in Hr.
  destruct err as [e'|].
  - inversion H; subst. split; auto.
  - apply bind_Ret in H as (cur & w2 & _ & H). discriminate.
Qed.

End Verdicts.

(** ** What the block sequencer leaves alone *)

Section Untouched.

Context {T : LibTypes} {Ops : LibOps}.

(** Property X4.  Whatever the block sequencer does, it leaves the COSEM objects as
    they are, never calls [UpdateValues], never closes the media, and
    keeps the reader's media, client and retry bound. *)
Theorem block_sequencer_leaves_alone :
  forall (fuel : nat) (blocks : slice (slice byte)) (reply : option GXReplyData)
         (w : World) res w',
    ReadDataBlocks fuel blocks reply w = Ret res w' ->
    objects w' = objects w
    /\ updates w' = updates w
    /\ closes w' = closes w
    /\ present (media (rdr w')) = present (media (rdr w))
    /\ present (client (rdr w')) = present (client (rdr w))
    /\ RetryCount (rdr w') = RetryCount (rdr w).
Proof.
  intros fuel blocks reply w res w' H.
  apply preserves_ReadDataBlocks in H.
  assert (updates w' = updates w) as Hu
    by (apply steady_count with (P := block_event); [now intros []|exact H]).
  assert (closes w' = closes w) as Hc
    by (apply steady_count with (P := block_event); [now intros []|exact H]).
  destruct H as (Ho & He & Hm & Hcl & Hr).
  repeat split; auto.
Qed.

End Untouched.

(** ** What goes out on the wire *)

Section Wire.

Context {T : LibTypes} {Ops : LibOps}.

Lemma frame_event_Send data : frame_event data (EvSend data) = true.
Proof. simpl. now destruct (slice_eq_dec data data). Qed.

Lemma preserves_call_Send_frame data :
  preserves (steady (frame_event data)) (call_Send data).
Proof.
  intros w a w' H. unfold call_Send in H.
  destruct (media (rdr w)) eqn:E; [|discriminate].
  destruct (media_Send data m). inversion H; subst.
  apply steady_media; [apply frame_event_Send|now rewrite E].
Qed.

Lemma frame_sendLoop fuel data reply ok attempt p :
  preserves (steady (frame_event data)) (sendLoop fuel data reply ok attempt p).
Proof.
  revert ok attempt p. induction fuel as [|fuel IH]; intros; simpl.
  - apply preserves_diverge.
  - repeat first [ apply IH | apply preserves_call_Send_frame
                 | apply preserves_writeTrace; reflexivity | steady_step ].
Qed.

Lemma frame_receiveLoop fuel data attempt p :
  preserves (steady (frame_event data)) (receiveLoop fuel data attempt p).
Proof.
  revert attempt p. induction fuel as [|fuel IH]; intros; simpl.
  - apply preserves_diverge.
  - repeat first [ apply IH | apply preserves_call_Send_frame | steady_step ].
Qed.

Lemma frame_getDataLoop fuel data rd reply notify attempt p :
  preserves (steady (frame_event data))
            (getDataLoop fuel data rd reply notify attempt p).
Proof.
  revert rd reply notify attempt p. induction fuel as [|fuel IH]; intros; simpl.
  - apply preserves_diverge.
  - repeat first [ apply IH | apply frame_receiveLoop | steady_step ].
Qed.

Lemma frame_transact fuel data reply eop :
  preserves (steady (frame_event data)) (transact fuel data reply eop).
Proof.
  unfold transact.
  repeat first [ apply frame_sendLoop | apply frame_getDataLoop
               | apply preserves_writeTrace; reflexivity | steady_step ].
Qed.

Lemma frame_ReadDLMSPacket fuel data reply :
  preserves (steady (frame_event data)) (ReadDLMSPacket fuel data reply).
Proof.
  revert reply. induction fuel as [|fuel IH]; intros; simpl; unfold end_of_packet;
  repeat first [ apply IH | apply frame_transact | steady_step ].
Qed.

(** Property X5.  [ReadDLMSPacket] puts nothing on the wire but the caller's frame:
    every send of the call, the first one, the re-sends after a time-out
    and those of the re-runs after "rejected", carries [data]. *)
Theorem only_the_given_frame_is_sent :
  forall (fuel : nat) (data : slice byte) (reply : option GXReplyData)
         (w : World) res w',
    ReadDLMSPacket fuel data reply w = Ret res w' ->
    exists evs, added w w' evs /\ forall d, In (EvSend d) evs -> d = data.
Proof.
  intros fuel data reply w res w' H.
  apply frame_ReadDLMSPacket in H.
  destruct H as (_ & (evs & He & Hp) & _).
  exists evs. split; [exact He|].
  intros d Hin. rewrite forallb_forall in Hp.
  apply Hp in Hin. simpl in Hin.
  now destruct (slice_eq_dec d data).
Qed.

End Wire.

(** ** Time-outs, transport errors and streaming *)

Section Transport.

Context {T : LibTypes} {Ops : LibOps}.

Lemma incr_in_range a : 0 <= a -> a + 1 < 2 ^ 63 -> incr a = a + 1.
Proof.
  intros H0 H1. unfold incr, wrap64. rewrite Z.mod_small; lia.
Qed.

(** The second receive loop on a silent media, from [attempt = a]:
    [k + 1] receives and [k] re-sends bring the counter to the bound. *)
Lemma receiveLoop_silent data :
  silent_media ->
  forall (k : nat) (fuel : nat) (a : Z) (p : ReceiveParameters) (w : World),
    media (rdr w) <> None ->
    0 <= a -> a + Z.of_nat (S k) = RetryCount (rdr w) ->
    RetryCount (rdr w) < 2 ^ 63 ->
    exists w',
      receiveLoop (S k + fuel) data a p w = Ret (inl ErrNoReply) w'
      /\ sends w' = (sends w + k)%nat
      /\ receives w' = (receives w + S k)%nat.
Proof.
  intros [Hsend Hrecv].
  induction k as [|k IH]; intros fuel a p w Hm Ha HN Hmax.
  - destruct (media (rdr w)) as [m|] eqn:Em; [|congruence].
    destruct (Hrecv p m) as (m1 & Er).
    eexists. split; [|split].
    + simpl. unfold bind at 1. unfold call_Receive. rewrite Em, Er. simpl.
      unfold bind at 1. unfold get_reader. simpl.
      rewrite incr_in_range by lia.
      replace (RetryCount (rdr w) <=? a + 1) with true
        by (symmetry; apply Z.leb_le; lia).
      reflexivity.
    + unfold sends, count. simpl. lia.
    + unfold receives, count. simpl. lia.
  - destruct (media (rdr w)) as [m|] eqn:Em; [|congruence].
    destruct (Hrecv p m) as (m1 & Er).
    destruct (media_Send data m1) as [e m2] eqn:Es.
    pose proof (Hsend data m1) as He. rewrite Es in He. simpl in He. subst e.
    destruct (IH fuel (a + 1) (set_Reply any_nil p)
                (emit (EvLogPrintf (a + 1))
                   (emit (EvSend data)
                      (with_media (Some m2)
                         (emit (EvReceive p false) (with_media (Some m1) w))))))
      as (w' & Hrun & Hs & Hr).
    { simpl. discriminate. }
    { lia. }
    { simpl. lia. }
    { simpl. exact Hmax. }
    exists w'. split; [|split].
    + change (S (S k) + fuel)%nat with (S (S k + fuel)).
      simpl receiveLoop. unfold bind at 1. unfold call_Receive. rewrite Em, Er.
      cbn [negb]. unfold bind at 1. unfold get_reader.
      rewrite incr_in_range by lia.
      cbn [rdr emit with_media RetryCount].
      replace (RetryCount (rdr w) <=? a + 1) with false
        by (symmetry; apply Z.leb_gt; lia).
      unfold bind at 1. unfold call_Send. cbn [rdr emit with_media media].
      rewrite Es. unfold bind at 1. unfold tell.
      exact Hrun.
    + rewrite Hs. unfold sends, count. simpl. lia.
    + rewrite Hr. unfold receives, count. simpl. lia.
Qed.

(** Property X6.  The second receive loop (lines 423-441) honours the configured
    retry bound, whatever it is: on a media on which nothing arrives, a
    bound of [N >= 1] gives exactly [N] receive attempts and [N - 1]
    re-sends of the frame, and then the time-out error. *)
Theorem second_loop_honours_retry_bound :
  forall (fuel : nat) (data : slice byte) (p : ReceiveParameters) (w : World),
    silent_media ->
    media (rdr w) <> None ->
    1 <= RetryCount (rdr w) < 2 ^ 63 ->
    exists w',
      receiveLoop (Z.to_nat (RetryCount (rdr w)) + fuel) data 0 p w
      = Ret (inl ErrNoReply) w'
      /\ Z.of_nat (receives w') = Z.of_nat (receives w) + RetryCount (rdr w)
      /\ Z.of_nat (sends w') = Z.of_nat (sends w) + RetryCount (rdr w) - 1.
Proof.
  intros fuel data p w Hsil Hm HN.
  destruct (Z.to_nat (RetryCount (rdr w))) as [|k] eqn:Ek; [lia|].
  destruct (@receiveLoop_silent data Hsil k fuel 0 p w) as (w' & Hrun & Hs & Hr);
    auto; try lia.
  exists w'. split; [exact Hrun|]. lia.
Qed.

Lemma writeTrace_quiet line w :
  exists w', writeTrace line w = Ret tt w'
             /\ rdr w' = rdr w /\ sends w' = sends w /\ receives w' = receives w.
Proof.
  destruct (writeTrace_runs line w) as (w' & Ht & Hr & Hn).
  exists w'. repeat split; auto.
  apply steady_count with (P := trace_event); [now intros []|].
  eapply preserves_writeTrace; [| |exact Ht]; reflexivity.
Qed.

(** Property X7.  An error of the media is not a time-out and is never retried:
    when the first [Send] fails, [ReadDLMSPacket] returns that error after
    this one send and without a receive; when the first [Receive] reports
    an error, it returns that error after one send and one receive. *)
Theorem media_errors_are_not_retried :
  forall (fuel : nat) (data : slice byte) (reply : GXReplyData) (w : World)
         (c : Client) (m : Media),
    client (rdr w) = Some c -> media (rdr w) = Some m ->
    IsStreaming (set_Error 0 reply) = false -> len data <> 0 ->
    (forall msg m1,
        media_Send data m = (Some msg, m1) ->
        exists w',
          ReadDLMSPacket (S fuel) data (Some reply) w
          = Ret (Some (ErrExternal msg), Some (set_Error 0 reply)) w'
          /\ sends w' = S (sends w) /\ receives w' = receives w)
    /\ (forall msg m1,
          media_Send data m = (None, m1) ->
          (forall p, exists ok p' m2, media_Receive p m1 = (ok, Some msg, p', m2)) ->
          exists w',
            ReadDLMSPacket (S fuel) data (Some reply) w
            = Ret (Some (ErrExternal msg), Some (set_Error 0 reply)) w'
            /\ sends w' = S (sends w) /\ receives w' = S (receives w)).
Proof.
  intros fuel data reply w c m Hc Hm Hs Hlen.
  assert (is_nil data = false) as Hnil
    by (destruct data; [reflexivity|now destruct Hlen]).
  destruct (@ReadDLMSPacket_locked _ _ (S fuel) data reply w c m Hnil Hc Hm)
    as (eop & Hrun).
  destruct (writeTrace_quiet (TraceTX data) (emit EvLock w))
    as (wt & Ht & Hr & Hn & Hv).
  assert (media (rdr wt) = Some m) as Hmt by (rewrite Hr; exact Hm).
  split.
  - intros msg m1 Es.
    eexists. split; [|split].
    + rewrite Hrun. unfold defer_unlock. unfold bind at 1. unfold bind at 1.
      simpl sendLoop. rewrite Hs. cbn [negb andb Z.eqb].
      replace (len data =? 0) with false by (symmetry; now apply Z.eqb_neq).
      unfold bind at 1. rewrite Ht. unfold bind at 1. unfold call_Send.
      rewrite Hmt, Es. reflexivity.
    + unfold sends, count in *. simpl in *. rewrite Hn. reflexivity.
    + unfold receives, count in *. simpl in *. rewrite Hv. reflexivity.
  - intros msg m1 Es Hrecv.
    destruct (Hrecv (mkParams eop (GetFrameSize NewGXByteBuffer c) true
                       (WaitTime (rdr w)) (Reply NewReceiveParameters)))
      as (ok & p' & m2 & Er).
    eexists. split; [|split].
    + rewrite Hrun. unfold defer_unlock. unfold bind at 1. unfold bind at 1.
      simpl sendLoop. rewrite Hs. cbn [negb andb Z.eqb].
      replace (len data =? 0) with false by (symmetry; now apply Z.eqb_neq).
      unfold bind at 1. rewrite Ht. unfold bind at 1. unfold call_Send.
      rewrite Hmt, Es. unfold bind at 1. unfold call_Receive.
      cbn [rdr emit with_media media]. rewrite Er. reflexivity.
    + unfold sends, count in *. simpl in *. rewrite Hn. reflexivity.
    + unfold receives, count in *. simpl in *. rewrite Hv. reflexivity.
Qed.

(** Property X8.  A transaction on a streaming accumulator never completes: the
    first loop of [ReadDLMSPacket] only sends and receives when the
    accumulator is not streaming and changes nothing otherwise, so the call
    runs out of every amount of fuel; and so does the streaming branch of
    the continuation loop of [ReadDataBlock], which calls it with the nil
    frame. *)
Theorem streaming_accumulator_never_completes :
  forall (data : slice byte) (reply : GXReplyData) (w : World) (c : Client) (m : Media),
    client (rdr w) = Some c -> media (rdr w) = Some m ->
    IsStreaming reply = true -> IsStreaming (set_Error 0 reply) = true ->
    (forall fuel, ReadDLMSPacket fuel data (Some reply) w = Diverge)
    /\ (continuation_condition reply c = true ->
        forall fuel, ReadDataBlock_loop fuel reply w = Diverge).
Proof.
  intros data reply w c m Hc Hm Hs Hs0.
  assert (forall d fuel, ReadDLMSPacket fuel d (Some reply) w = Diverge) as Hspin.
  { intros d fuel.
    destruct (end_of_packet_runs w Hc) as (eop & He).
    destruct fuel; simpl; rewrite Hs, andb_false_r.
    all: unfold bind at 1; rewrite He; unfold bind at 1; unfold GetSynchronous;
      rewrite Hm.
    all: unfold defer_unlock, transact; unfold bind at 1; unfold bind at 1;
      unfold the_client; cbn [rdr emit client]; rewrite Hc.
    all: unfold bind at 1; unfold get_reader; unfold bind at 1.
    all: now rewrite sendLoop_streaming. }
  split; [apply Hspin|].
  intros Hcond fuel. destruct fuel; [reflexivity|].
  simpl. unfold bind at 1. rewrite (more_to_read_client reply _ Hc), Hcond.
  unfold next_frame. rewrite Hs. unfold bind at 1. simpl.
  unfold bind at 1. now rewrite Hspin.
Qed.

(** Property X9.  [NewGXDLMSReader] never yields a wait time that is not
    positive, and a reader fresh from it, on a media on which nothing
    arrives, gives up with the time-out error after exactly three sends. *)
Theorem new_reader_gives_up_after_three_sends :
  forall (c : Client) (m : Media) (level : Z) (invocationCounter : string)
         (waitTime : Z) (objs : ObjectStore) (fuel : nat) (data : slice byte)
         (reply : GXReplyData),
    silent_media -> IsStreaming (set_Error 0 reply) = false -> len data <> 0 ->
    0 < WaitTime (NewGXDLMSReader (Some c) (Some m) level invocationCounter waitTime)
    /\ exists w',
         ReadDLMSPacket (3 + fuel) data (Some reply)
           (mkWorld (NewGXDLMSReader (Some c) (Some m) level invocationCounter waitTime)
                    objs [])
         = Ret (Some ErrNoReply, Some (set_Error 0 reply)) w'
         /\ sends w' = 3%nat.
Proof.
  intros c m level ic waitTime objs fuel data reply Hsil Hs Hlen. split.
  - unfold NewGXDLMSReader. simpl. destruct (waitTime <=? 0) eqn:E; lia.
  - destruct (@silent_media_retry_bound _ _ fuel data reply
                (mkWorld (NewGXDLMSReader (Some c) (Some m) level ic waitTime) objs [])
                Hsil Hs Hlen) as (H & _); try discriminate.
    destruct H as (w' & Hr & Hn); [simpl; lia|].
    exists w'. split; [exact Hr|].
    change (Z.of_nat (sends w') = 0 + 3) in Hn. lia.
Qed.

End Transport.

(** ** The lock, on return and on panic *)

Section Emits.

Context {T : LibTypes} {Ops : LibOps}.

Lemma held_app a b : held (a ++ b) = held a + held b.
Proof. induction a as [|e a IH]; simpl; lia. Qed.

Lemma taken_app a b : taken (a ++ b) = taken a + taken b.
Proof. unfold taken. rewrite filter_app, length_app. lia. Qed.

Lemma taken_nonneg a : 0 <= taken a.
Proof. unfold taken. lia. Qed.

Lemma deepest_nonneg a : 0 <= deepest a.
Proof. induction a; simpl; lia. Qed.

Lemma deepest_app_older a b : deepest b <= deepest (a ++ b).
Proof. induction a as [|e a IH]; simpl; lia. Qed.

Lemma deepest_app_newer a b : held b + deepest a <= deepest (a ++ b).
Proof.
  induction a as [|e a IH]; simpl.
  - destruct b; simpl; lia.
  - rewrite held_app. lia.
Qed.

Lemma emits_ret {A} (Q : list Event -> Prop) (a : A) : Q [] -> emits Q (ret a).
Proof.
  intros HQ w w' [[a' H]|H]; inversion H; subst. exists []. now split.
Qed.

Lemma emits_panic {A} (Q : list Event -> Prop) : Q [] -> emits Q (@panic T A).
Proof.
  intros HQ w w' [[a' H]|H]; inversion H; subst. exists []. now split.
Qed.

Lemma emits_diverge {A} (Q : list Event -> Prop) : emits Q (@diverge T A).
Proof. intros w w' [[a' H]|H]; discriminate. Qed.

Lemma emits_bind_with {A B} (Q1 Q2 Q : list Event -> Prop) (m : M A) (k : A -> M B) :
  emits Q1 m -> (forall a, emits Q2 (k a)) ->
  (forall e1, Q1 e1 -> Q e1) ->
  (forall e1 e2, Q1 e1 -> Q2 e2 -> Q (e2 ++ e1)) ->
  emits Q (bind m k).
Proof.
  intros Hm Hk H1 H12 w w' He. unfold ends, bind in He.
  destruct (m w) as [a w1| w1|] eqn:E.
  - destruct (Hm w w1) as (e1 & Ha1 & HQ1); [left; eauto|].
    destruct (Hk a w1 w') as (e2 & Ha2 & HQ2); [exact He|].
    exists (e2 ++ e1). split; [|auto].
    unfold added in *. rewrite Ha2, Ha1. now rewrite app_assoc.
  - destruct (Hm w w1) as (e1 & Ha1 & HQ1); [right; auto|].
    destruct He as [[a H]|H]; inversion H; subst.
    exists e1. auto.
  - destruct He as [[a H]|H]; discriminate.
Qed.

Lemma emits_bind {A B} (Q : list Event -> Prop) (m : M A) (k : A -> M B) :
  sequential Q -> emits Q m -> (forall a, emits Q (k a)) -> emits Q (bind m k).
Proof.
  intros (_ & _ & Happ) Hm Hk.
  apply emits_bind_with with (Q1 := Q) (Q2 := Q); auto.
Qed.

Lemma emits_weaken {A} (Q Q' : list Event -> Prop) (m : M A) :
  (forall evs, Q evs -> Q' evs) -> emits Q m -> emits Q' m.
Proof.
  intros HQ Hm w w' He. destruct (Hm w w' He) as (evs & Ha & H). eauto.
Qed.

(** A call across the boundary that logs one event, if it does not
    panic. *)
Lemma emits_one {A} (Q : list Event -> Prop) (m : M A) :
  sequential Q ->
  (forall w, match m w with
             | Ret _ w' => exists e, lock_free_event e = true
                                     /\ events w' = e :: events w
             | Panic w' => w' = w
             | Diverge => True
             end) ->
  emits Q m.
Proof.
  intros (Hnil & Hone & _) Hm w w' He. specialize (Hm w).
  destruct He as [[a H]|H]; rewrite H in Hm.
  - destruct Hm as (e & He & Hev). exists [e]. split; [exact Hev|auto].
  - subst. exists []. split; [reflexivity|auto].
Qed.

Lemma emits_none {A} (Q : list Event -> Prop) (m : M A) :
  Q [] ->
  (forall w, match m w with
             | Ret _ w' | Panic w' => events w' = events w
             | Diverge => True
             end) ->
  emits Q m.
Proof.
  intros Hnil Hm w w' He. specialize (Hm w).
  destruct He as [[a H]|H]; rewrite H in Hm; exists []; split; auto.
Qed.

Lemma emits_tell Q e : sequential Q -> lock_free_event e = true -> emits Q (tell e).
Proof.
  intros HQ He. apply emits_one; auto. intros w. simpl.
  exists e. split; [exact He|reflexivity].
Qed.

Lemma emits_get_reader Q : Q [] -> emits Q get_reader.
Proof. intros HQ. apply emits_none; auto. intros w. reflexivity. Qed.

Lemma emits_the_client Q : Q [] -> emits Q the_client.
Proof.
  intros HQ. apply emits_none; auto. intros w. unfold the_client.
  now destruct (client (rdr w)).
Qed.

Lemma emits_deref Q r : Q [] -> emits Q (deref r).
Proof. intros HQ. destruct r; [now apply emits_ret|now apply emits_panic]. Qed.

Lemma emits_assert_bytes Q a : Q [] -> emits Q (assert_bytes a).
Proof. intros HQ. destruct a; first [now apply emits_ret|now apply emits_panic]. Qed.

Lemma emits_call_Send Q data : sequential Q -> emits Q (call_Send data).
Proof.
  intros HQ. apply emits_one; auto. intros w. unfold call_Send.
  destruct (media (rdr w)); [|reflexivity].
  destruct (media_Send data m). simpl. eexists; split; [|reflexivity]; reflexivity.
Qed.

Lemma emits_call_Receive Q p : sequential Q -> emits Q (call_Receive p).
Proof.
  intros HQ. apply emits_one; auto. intros w. unfold call_Receive.
  destruct (media (rdr w)); [|reflexivity].
  destruct (media_Receive p m) as [[[? ?] ?] ?]. simpl. eexists; split; [|reflexivity]; reflexivity.
Qed.

Lemma emits_call_Close Q : sequential Q -> emits Q call_Close.
Proof.
  intros HQ. apply emits_one; auto. intros w. unfold call_Close.
  destruct (media (rdr w)); [|reflexivity].
  destruct (media_Close m). simpl. eexists; split; [|reflexivity]; reflexivity.
Qed.

Lemma emits_call_GetData Q rd reply notify :
  sequential Q -> emits Q (call_GetData rd reply notify).
Proof.
  intros HQ. apply emits_one; auto. intros w. unfold call_GetData.
  destruct (client (rdr w)); [|reflexivity].
  destruct (GetData rd reply notify c) as [[[[[? ?] ?] ?] ?] ?]. simpl. eexists; split; [|reflexivity]; reflexivity.
Qed.

Lemma emits_call_ReceiverReady Q reply :
  sequential Q -> emits Q (call_ReceiverReady reply).
Proof.
  intros HQ. apply emits_one; auto. intros w. unfold call_ReceiverReady.
  destruct (client (rdr w)); [|reflexivity].
  destruct (ReceiverReady reply c) as [[? ?] ?]. simpl. eexists; split; [|reflexivity]; reflexivity.
Qed.

Lemma emits_call_ReadList Q l : sequential Q -> emits Q (call_ReadList l).
Proof.
  intros HQ. apply emits_one; auto. intros w. unfold call_ReadList.
  destruct (client (rdr w)); [|reflexivity].
  destruct (client_ReadList l c) as [[? ?] ?]. simpl. eexists; split; [|reflexivity]; reflexivity.
Qed.

Lemma emits_call_UpdateValues Q l values :
  sequential Q -> emits Q (call_UpdateValues l values).
Proof.
  intros HQ. apply emits_one; auto. intros w. unfold call_UpdateValues.
  destruct (client (rdr w)); [|reflexivity].
  destruct (UpdateValues l values c (objects w)) as [[? ?] ?]. simpl. eexists; split; [|reflexivity]; reflexivity.
Qed.

Lemma emits_call_ReleaseRequest Q : sequential Q -> emits Q call_ReleaseRequest.
Proof.
  intros HQ. apply emits_one; auto. intros w. unfold call_ReleaseRequest.
  destruct (client (rdr w)); [|reflexivity].
  destruct (ReleaseRequest c) as [[? ?] ?]. simpl. eexists; split; [|reflexivity]; reflexivity.
Qed.

Lemma emits_call_DisconnectRequest Q :
  sequential Q -> emits Q call_DisconnectRequest.
Proof.
  intros HQ. apply emits_one; auto. intros w. unfold call_DisconnectRequest.
  destruct (client (rdr w)); [|reflexivity].
  destruct (DisconnectRequest c) as [[? ?] ?]. simpl. eexists; split; [|reflexivity]; reflexivity.
Qed.

End Emits.

Ltac emits_step HQ :=
  match goal with
  | |- emits _ (ret _) => apply emits_ret; apply HQ
  | |- emits _ diverge => apply emits_diverge
  | |- emits _ panic => apply emits_panic; apply HQ
  | |- emits _ (tell _) => apply emits_tell; [exact HQ|reflexivity]
  | |- emits _ get_reader => apply emits_get_reader; apply HQ
  | |- emits _ the_client => apply emits_the_client; apply HQ
  | |- emits _ (deref _) => apply emits_deref; apply HQ
  | |- emits _ (assert_bytes _) => apply emits_assert_bytes; apply HQ
  | |- emits _ (call_Send _) => apply emits_call_Send; exact HQ
  | |- emits _ (call_Receive _) => apply emits_call_Receive; exact HQ
  | |- emits _ call_Close => apply emits_call_Close; exact HQ
  | |- emits _ (call_GetData _ _ _) => apply emits_call_GetData; exact HQ
  | |- emits _ (call_ReceiverReady _) => apply emits_call_ReceiverReady; exact HQ
  | |- emits _ (call_ReadList _) => apply emits_call_ReadList; exact HQ
  | |- emits _ (call_UpdateValues _ _) => apply emits_call_UpdateValues; exact HQ
  | |- emits _ call_ReleaseRequest => apply emits_call_ReleaseRequest; exact HQ
  | |- emits _ call_DisconnectRequest => apply emits_call_DisconnectRequest; exact HQ
  | |- emits _ (bind _ _) => apply emits_bind; [exact HQ| |intros]
  | |- emits _ (match ?x with _ => _ end) => destruct x
  end.

Section EmitsLoops.

Context {T : LibTypes} {Ops : LibOps}.

Variable Q : list Event -> Prop.
Hypothesis HQ : sequential Q.

Lemma emits_writeTrace line : emits Q (writeTrace line).
Proof. unfold writeTrace. repeat emits_step HQ. Qed.

Lemma emits_sendLoop fuel data reply ok attempt p :
  emits Q (sendLoop fuel data reply ok attempt p).
Proof.
  revert ok attempt p. induction fuel as [|fuel IH]; intros; simpl.
  - apply emits_diverge.
  - repeat first [ apply IH | apply emits_writeTrace | emits_step HQ ].
Qed.

Lemma emits_receiveLoop fuel data attempt p :
  emits Q (receiveLoop fuel data attempt p).
Proof.
  revert attempt p. induction fuel as [|fuel IH]; intros; simpl.
  - apply emits_diverge.
  - repeat first [ apply IH | emits_step HQ ].
Qed.

Lemma emits_getDataLoop fuel data rd reply notify attempt p :
  emits Q (getDataLoop fuel data rd reply notify attempt p).
Proof.
  revert rd reply notify attempt p. induction fuel as [|fuel IH]; intros; simpl.
  - apply emits_diverge.
  - repeat first [ apply IH | apply emits_receiveLoop | emits_step HQ ].
Qed.

Lemma emits_transact fuel data reply eop :
  emits Q (transact fuel data reply eop).
Proof.
  unfold transact.
  repeat first [ apply emits_sendLoop | apply emits_getDataLoop
               | apply emits_writeTrace | emits_step HQ ].
Qed.

Lemma emits_end_of_packet : emits Q end_of_packet.
Proof. unfold end_of_packet. repeat emits_step HQ. Qed.

Lemma emits_more_to_read reply : emits Q (more_to_read reply).
Proof. unfold more_to_read. repeat emits_step HQ. Qed.

Lemma emits_next_frame reply : emits Q (next_frame reply).
Proof. unfold next_frame. repeat emits_step HQ. Qed.

End EmitsLoops.

Section LockDiscipline.

Context {T : LibTypes} {Ops : LibOps}.

Lemma quiet_held evs : quiet evs -> held evs = 0.
Proof.
  unfold quiet. induction evs as [|e evs IH]; simpl; auto.
  intros H. apply andb_prop in H as (He & H). rewrite (IH H).
  unfold lock_free_event, lock_step in *.
  destruct (is_lock e), (is_unlock e); simpl in *; try discriminate; lia.
Qed.

Lemma quiet_taken evs : quiet evs -> taken evs = 0.
Proof.
  unfold quiet, taken. induction evs as [|e evs IH]; simpl; auto.
  intros H. apply andb_prop in H as (He & H).
  unfold lock_free_event in He. destruct (is_lock e); simpl in *; [discriminate|auto].
Qed.

Lemma quiet_app a b : quiet a -> quiet b -> quiet (b ++ a).
Proof. unfold quiet. intros Ha Hb. rewrite forallb_app. now rewrite Ha, Hb. Qed.

Lemma sequential_quiet : sequential quiet.
Proof.
  split; [reflexivity|]. split.
  - intros e He. unfold quiet. simpl. now rewrite He.
  - apply quiet_app.
Qed.

Lemma quiet_chain evs : quiet evs -> chain evs.
Proof.
  intros H. split; [now apply quiet_held|].
  rewrite (quiet_taken H). apply deepest_nonneg.
Qed.

Lemma chain_flat evs : chain evs -> flat evs.
Proof. intros (Hh & Ht). split; [exact Hh|lia]. Qed.

Lemma flat_level evs : flat evs -> level evs.
Proof. now intros (Hh & _). Qed.

Lemma sequential_level : sequential level.
Proof.
  unfold level. split; [reflexivity|]. split.
  - intros e He. apply quiet_held. unfold quiet. simpl. now rewrite He.
  - intros a b Ha Hb. rewrite held_app. lia.
Qed.

Lemma sequential_flat : sequential flat.
Proof.
  split; [|split].
  - split; [reflexivity|]. unfold taken. simpl. lia.
  - intros e He. apply chain_flat, quiet_chain. unfold quiet. simpl. now rewrite He.
  - intros a b (Ha & Hta) (Hb & Htb). split.
    + rewrite held_app. lia.
    + rewrite taken_app. intros Ht.
      pose proof (deepest_app_older b a). pose proof (deepest_app_newer b a).
      pose proof (taken_nonneg a). pose proof (taken_nonneg b).
      destruct (Z_le_gt_dec 1 (taken a)); [specialize (Hta ltac:(lia)); lia|].
      specialize (Htb ltac:(lia)). lia.
Qed.

(** A chain after a piece without lock events. *)
Lemma chain_after_quiet c q : quiet q -> chain c -> chain (c ++ q).
Proof.
  intros Hq (Hh & Ht). split.
  - rewrite held_app, (quiet_held Hq). lia.
  - rewrite taken_app, (quiet_taken Hq).
    pose proof (deepest_app_newer c q). rewrite (quiet_held Hq) in *. lia.
Qed.

(** What the lock and its deferred release add around a body, whether the
    body returns or panics. *)
Lemma emits_locked {A} (Q : list Event -> Prop) (m : M A) :
  emits Q m -> emits (locked Q) (bind GetSynchronous (fun _ => defer_unlock m)).
Proof.
  intros Hm w w' He. unfold ends, bind, GetSynchronous, defer_unlock in He.
  destruct (media (rdr w)).
  - destruct (m (emit EvLock w)) as [a w1|w1|] eqn:E.
    + destruct (Hm (emit EvLock w) w1) as (b & Hb & HQ); [left; eauto|].
      destruct He as [[a' H]|H]; inversion H; subst.
      exists (EvUnlock :: b ++ [EvLock]). split.
      * unfold added in *. simpl in *. rewrite Hb. now rewrite <- app_assoc.
      * right. eauto.
    + destruct (Hm (emit EvLock w) w1) as (b & Hb & HQ); [right; auto|].
      destruct He as [[a' H]|H]; inversion H; subst.
      exists (EvUnlock :: b ++ [EvLock]). split.
      * unfold added in *. simpl in *. rewrite Hb. now rewrite <- app_assoc.
      * right. eauto.
    + destruct He as [[a' H]|H]; discriminate.
  - destruct He as [[a' H]|H]; inversion H; subst.
    exists []. split; [reflexivity|now left].
Qed.

Lemma held_locked body : held (EvUnlock :: body ++ [EvLock]) = held body.
Proof. simpl. rewrite held_app. simpl. unfold lock_step. simpl. lia. Qed.

Lemma taken_locked body : taken (EvUnlock :: body ++ [EvLock]) = taken body + 1.
Proof.
  unfold taken. simpl. rewrite filter_app, length_app. simpl. lia.
Qed.

Lemma deepest_locked body : 1 + deepest body <= deepest (EvUnlock :: body ++ [EvLock]).
Proof.
  change (deepest (EvUnlock :: body ++ [EvLock]))
    with (Z.max (held (EvUnlock :: body ++ [EvLock])) (deepest (body ++ [EvLock]))).
  pose proof (deepest_app_newer body [EvLock]) as H.
  change (held [EvLock]) with 1 in H. lia.
Qed.

(** The body of [ReadDLMSPacket] adds a transaction and then, after
    "rejected", what its re-run adds. *)
Lemma locked_chain n q : chain n -> quiet q -> chain (EvUnlock :: (n ++ q) ++ [EvLock]).
Proof.
  intros Hn Hq. pose proof (chain_after_quiet Hq Hn) as (Hh & Ht).
  split.
  - rewrite held_locked. exact Hh.
  - rewrite taken_locked. pose proof (deepest_locked (n ++ q)). lia.
Qed.

Lemma emits_ReadDLMSPacket fuel data reply :
  emits chain (ReadDLMSPacket fuel data reply).
Proof.
  pose proof sequential_quiet as HQ.
  assert (chain []) as Hnil by (apply quiet_chain; reflexivity).
  assert (quiet []) as Hq0 by reflexivity.
  set (inner := fun evs : list Event =>
                  exists n q, evs = n ++ q /\ chain n /\ quiet q).
  assert (inner []) as Hin by (exists [], []; auto).
  assert (forall e1, quiet e1 -> inner e1) as Hin1
    by (intros e1 H1; exists [], e1; auto).
  revert reply. induction fuel as [|fuel IH]; intros [reply|]; simpl;
    try (apply emits_ret; exact Hnil).
  all: destruct (is_nil data && negb (IsStreaming reply));
    [apply emits_ret; exact Hnil|].
  all: apply emits_bind_with with (Q1 := quiet) (Q2 := locked inner);
    [ apply emits_end_of_packet; exact HQ
    | intros eop; apply emits_locked
    | apply quiet_chain
    | intros e1 e2 H1 [->|(b & -> & n & q & -> & Hn & Hq)];
      [ simpl; now apply quiet_chain
      | apply chain_after_quiet; [exact H1|now apply locked_chain] ] ].
  all: apply emits_bind_with with (Q1 := quiet) (Q2 := inner);
    [ apply emits_transact; exact HQ
    |
    | exact Hin1
    | intros e1 e2 H1 (n & q & -> & Hn & Hq); exists n, (q ++ e1);
      split; [symmetry; apply app_assoc|split; [exact Hn|now apply quiet_app]] ].
  all: intros [[err|rd] reply']; try (apply emits_ret; exact Hin).
  all: destruct (negb (Error reply' =? 0)); [|apply emits_ret; exact Hin].
  all: destruct (Error reply' =? ErrorCodeRejected); [|apply emits_ret; exact Hin].
  all: apply emits_bind_with with (Q1 := quiet) (Q2 := chain);
    [ apply emits_tell; [exact HQ|reflexivity]
    |
    | exact Hin1
    | intros e1 e2 H1 H2; exists e2, e1; auto ].
  - intros _. apply emits_diverge.
  - intros _. apply IH.
Qed.

Lemma emits_ReadDataBlock_loop fuel reply :
  emits flat (ReadDataBlock_loop fuel reply).
Proof.
  pose proof sequential_flat as HQ.
  revert reply. induction fuel as [|fuel IH]; intros reply; simpl.
  - apply emits_diverge.
  - repeat first [ apply IH
                 | apply emits_more_to_read; exact HQ
                 | apply emits_next_frame; exact HQ
                 | apply emits_weaken with (Q := chain);
                   [exact chain_flat|apply emits_ReadDLMSPacket]
                 | emits_step HQ ].
Qed.

Lemma emits_ReadDataBlock fuel data reply :
  emits block (ReadDataBlock fuel data reply).
Proof.
  unfold ReadDataBlock.
  apply emits_bind_with with (Q1 := chain) (Q2 := locked flat).
  - apply emits_ReadDLMSPacket.
  - intros [[e|] r].
    + apply emits_ret. now left.
    + apply emits_locked.
      apply emits_bind; [exact sequential_flat| |intros; apply emits_ReadDataBlock_loop].
      apply emits_deref. apply sequential_flat.
  - intros e1 H1. exists e1, []. split; [reflexivity|split; [exact H1|now left]].
  - intros e1 e2 H1 H2. exists e1, e2. auto.
Qed.

Lemma block_level evs : block evs -> level evs.
Proof.
  intros (f & r & -> & (Hf & _) & [->|(b & -> & (Hb & _))]); unfold level.
  - exact Hf.
  - rewrite held_app, held_locked. lia.
Qed.

Lemma block_nests evs : block evs -> 3 <= taken evs -> 2 <= deepest evs.
Proof.
  intros (f & r & -> & (Hf & Htf) & Hr) H3. rewrite taken_app in H3.
  destruct Hr as [->|(b & -> & (Hb & Htb))].
  - change (taken (@nil Event)) with 0 in H3. rewrite app_nil_l. lia.
  - rewrite taken_locked in H3.
    pose proof (deepest_app_older (EvUnlock :: b ++ [EvLock]) f).
    pose proof (deepest_app_newer (EvUnlock :: b ++ [EvLock]) f).
    pose proof (deepest_locked b). pose proof (taken_nonneg b).
    destruct (Z_le_gt_dec 1 (taken b)); [specialize (Htb ltac:(lia)); lia|lia].
Qed.

Lemma emits_ReadDataBlock_level fuel data reply :
  emits level (ReadDataBlock fuel data reply).
Proof.
  apply emits_weaken with (Q := block); [exact block_level|apply emits_ReadDataBlock].
Qed.

Lemma emits_ReadDLMSPacket_level fuel data reply :
  emits level (ReadDLMSPacket fuel data reply).
Proof.
  apply emits_weaken with (Q := chain); [|apply emits_ReadDLMSPacket].
  intros evs H. apply flat_level, chain_flat, H.
Qed.

Lemma emits_ReadDataBlocks_range fuel blocks reply :
  emits level (ReadDataBlocks_range fuel blocks reply).
Proof.
  pose proof sequential_level as HQ.
  revert reply. induction blocks as [|b rest IH]; intros reply; simpl;
    repeat first [ apply IH | apply emits_ReadDataBlock_level | emits_step HQ ].
Qed.

Lemma emits_ReadDataBlocks fuel blocks reply :
  emits level (ReadDataBlocks fuel blocks reply).
Proof.
  pose proof sequential_level as HQ. unfold ReadDataBlocks.
  repeat first [ apply emits_ReadDataBlocks_range | emits_step HQ ].
Qed.

Lemma emits_ReadList_range fuel frames reply values :
  emits level (ReadList_range fuel frames reply values).
Proof.
  pose proof sequential_level as HQ.
  revert reply values. induction frames as [|f rest IH]; intros reply values; simpl;
    repeat first [ apply IH | apply emits_ReadDataBlock_level | emits_step HQ ].
Qed.

Lemma emits_ReadList fuel l : emits level (ReadList fuel l).
Proof.
  pose proof sequential_level as HQ. unfold ReadList.
  repeat first [ apply emits_ReadList_range | emits_step HQ ].
Qed.

Lemma emits_Release fuel : emits level (Release fuel).
Proof.
  pose proof sequential_level as HQ. unfold Release, needs_release.
  repeat first [ apply emits_ReadDataBlocks | emits_step HQ ].
Qed.

Lemma emits_Disconnect fuel : emits level (Disconnect fuel).
Proof.
  pose proof sequential_level as HQ. unfold Disconnect, Disconnect_request.
  repeat first [ apply emits_Release | apply emits_ReadDLMSPacket_level
               | apply emits_writeTrace; exact HQ | emits_step HQ ].
Qed.

Lemma emits_Close fuel : emits level (Close fuel).
Proof.
  pose proof sequential_level as HQ. unfold Close.
  repeat first [ apply emits_Disconnect | emits_step HQ ].
  apply emits_none; [apply HQ|]. intros w. reflexivity.
Qed.

Lemma level_balanced w w' evs : added w w' evs -> level evs -> balanced w w'.
Proof.
  unfold added, level, balanced, locks, releases, count. intros -> H.
  rewrite !filter_app, !length_app.
  assert (held evs = Z.of_nat (List.length (filter is_lock evs))
                     - Z.of_nat (List.length (filter is_unlock evs))) as E.
  { clear H. induction evs as [|e evs IH]; [reflexivity|].
    cbn [held]. rewrite IH. unfold lock_step.
    destruct e; cbn [is_lock is_unlock filter List.length];
      rewrite ?Nat2Z.inj_succ; lia. }
  lia.
Qed.

Lemma added_unique w w' evs evs' : added w w' evs -> added w w' evs' -> evs = evs'.
Proof.
  unfold added. intros H H'. rewrite H in H'. now apply app_inv_tail in H'.
Qed.

(** Property X10.  The lock is released as often as it is taken, on return and on
    panic alike: whenever [ReadDataBlocks], [ReadList] or [Close] (and so
    [ReadDataBlock], [ReadDLMSPacket], [Release] and [Disconnect] under
    them) comes to an end, every [GetSynchronous] of the call has been
    matched by its deferred unlock. *)
Theorem lock_is_released_on_return_and_on_panic :
  forall (fuel : nat) (w w' : World),
    (forall blocks reply,
        ends (ReadDataBlocks fuel blocks reply) w w' -> balanced w w')
    /\ (forall l, ends (ReadList fuel l) w w' -> balanced w w')
    /\ (ends (Close fuel) w w' -> balanced w w').
Proof.
  intros fuel w w'. repeat split.
  - intros blocks reply H.
    destruct (@emits_ReadDataBlocks fuel blocks reply w w' H) as (evs & Ha & Hl).
    exact (level_balanced Ha Hl).
  - intros l H.
    destruct (@emits_ReadList fuel l w w' H) as (evs & Ha & Hl).
    exact (level_balanced Ha Hl).
  - intros H.
    destruct (@emits_Close fuel w w' H) as (evs & Ha & Hl).
    exact (level_balanced Ha Hl).
Qed.

(** Property X11.  The lock is taken again while it is held.  In [ReadDLMSPacket]
    every re-run after "rejected" starts under the lock of the run before
    it, so the lock is held as many times over as it was taken.  In
    [ReadDataBlock] the follow-up transactions run under the lock of
    [ReadDataBlock] itself: a call that takes the lock three times or more
    holds it twice over at some moment. *)
Theorem lock_is_taken_again_while_held :
  forall (fuel : nat) (data : slice byte) (reply : option GXReplyData)
         (w w' : World) (evs : list Event),
    added w w' evs ->
    (ends (ReadDLMSPacket fuel data reply) w w' -> taken evs <= deepest evs)
    /\ (ends (ReadDataBlock fuel data reply) w w' ->
        3 <= taken evs -> 2 <= deepest evs).
Proof.
  intros fuel data reply w w' evs Ha. split.
  - intros H. destruct (@emits_ReadDLMSPacket fuel data reply w w' H) as (evs' & Ha' & Hc).
    rewrite (added_unique Ha Ha'). apply Hc.
  - intros H. destruct (@emits_ReadDataBlock fuel data reply w w' H) as (evs' & Ha' & Hb).
    rewrite (added_unique Ha Ha'). now apply block_nests.
Qed.

End LockDiscipline.

(** ** The command line *)

(** Case analysis on what one turn of the loop came to. *)
Ltac turn_cases H :=
  unfold Params.one_argument, Params.flag_case, Params.needValue, Params.set,
    Params.set_novalue, Params.parse_then in H;
  repeat match type of H with
         | (if ?b then _ else _) = _ => destruct b eqn:?
         | match ?x with _ => _ end = _ => destruct x eqn:?
         | (let _ := _ in _) = _ => cbv zeta in H
         end.

Section CommandLine.

Context {T : LibTypes} {C : Params.CommandLineOps}.

Import Ascii Params.

Lemma one_argument_never_settles a v o s :
  one_argument a v o <> Return (Parsed s).
Proof.
  intros H. turn_cases H; discriminate.
Qed.

(** Without an argument after it a flag takes none, and what it does then
    does not depend on what follows. *)
Lemma one_argument_last a o o' b :
  one_argument a None o = Next o' b ->
  b = false /\ forall v, one_argument a v o = Next o' false.
Proof.
  intros H. unfold one_argument, flag_case, set_novalue in *.
  repeat match type of H with
         | (if ?b then _ else _) = _ => destruct b eqn:?
         end;
    try discriminate H.
  - inversion H; subst. auto.
  - destruct (apply_setting (SetAutoIncreaseInvokeID true) (client o)) as [[msg|] c];
      [discriminate|].
    inversion H; subst. auto.
Qed.

(** An invariant of the settings that every turn on an argument of the
    list keeps holds of the result. *)
Lemma parse_invariant (I : gxSettings -> Prop) (all : list string) :
  (forall a v o o' b, In a all -> I o -> one_argument a v o = Next o' b -> I o') ->
  forall args o s,
    incl args all -> I o -> parse_loop o args = Parsed s -> I s.
Proof.
  intros Hstep args.
  assert (forall n args, (List.length args <= n)%nat -> incl args all ->
          forall o s, I o -> parse_loop o args = Parsed s -> I s) as Hn.
  { induction n as [|n IH]; intros [|a rest] Hlen Hin o s Ho H; simpl in *;
      try (inversion H; subst; assumption); try lia.
    assert (In a all) as Ha by (apply Hin; now left).
    assert (incl rest all) as Hrest by (intros x Hx; apply Hin; now right).
    destruct (one_argument a (hd_error rest) o) as [r|o' [|]] eqn:E.
    - subst r. now apply one_argument_never_settles in E.
    - pose proof (Hstep _ _ _ _ _ Ha Ho E) as Ho'.
      destruct rest as [|v rest'].
      + inversion H; subst; assumption.
      + apply (IH rest') with (o := o');
          [simpl in Hlen; lia|intros x Hx; apply Hrest; now right|exact Ho'|exact H].
    - apply (IH rest) with (o := o'); [lia|exact Hrest|eapply Hstep; eauto|exact H]. }
  intros o s Hin. apply (Hn (List.length args)); [lia|exact Hin].
Qed.

(** The argument of a turn that reached the case of flag [f]. *)
Lemma flag_name a f :
  negb (String.prefix "-" a) || negb (slen a =? 2) = false ->
  String.eqb (slice_of a 1 (slen a)) f = true ->
  a = String "-" f.
Proof.
  intros Hshape Hf. apply orb_false_elim in Hshape as (Hp & Hl).
  apply negb_false_iff in Hp. apply negb_false_iff in Hl.
  apply Z.eqb_eq in Hl. apply String.eqb_eq in Hf. subst f.
  destruct a as [|c [|d [|e rest]]]; unfold slen in Hl; simpl in Hl; try lia.
  cbn [String.prefix] in Hp. destruct (ascii_dec "-" c); [subst c|discriminate].
  reflexivity.
Qed.

Lemma read_objects_positive parts :
  forall acc l,
    Forall (fun kv : string * Z => 1 <= snd kv) acc ->
    read_objects acc parts = inr l ->
    Forall (fun kv : string * Z => 1 <= snd kv) l.
Proof.
  induction parts as [|p rest IH]; intros acc l Hacc H; simpl in H.
  - inversion H; subst; assumption.
  - destruct (String.eqb (TrimSpace p) ""); [eauto|].
    destruct ((LastIndex (TrimSpace p) ":" <=? 0)
              || (LastIndex (TrimSpace p) ":" =? slen (TrimSpace p) - 1));
      [discriminate|].
    destruct (Atoi _) as [attr|]; [|discriminate].
    destruct (attr <=? 0) eqn:E; [discriminate|].
    apply IH in H; auto. apply Forall_app. split; auto.
    constructor; auto. simpl. lia.
Qed.

Lemma one_argument_positive a v o o' b :
  Forall (fun kv : string * Z => 1 <= snd kv) (readObjects o) ->
  one_argument a v o = Next o' b ->
  Forall (fun kv : string * Z => 1 <= snd kv) (readObjects o').
Proof.
  intros Ho H. turn_cases H; try discriminate H;
    inversion H; subst; simpl; auto.
  eapply read_objects_positive; eauto.
Qed.

(** What a turn leaves alone when its argument is not the flag of the
    field. *)
Lemma one_argument_frame a v o o' b :
  one_argument a v o = Next o' b ->
  (a <> "-h"%string -> a <> "-u"%string -> media o = None -> media o' = None)
  /\ (a <> "-x"%string -> WaitTime o' = WaitTime o)
  /\ (a <> "-t"%string -> trace o' = trace o)
  /\ (a <> "-g"%string -> readObjects o' = readObjects o)
  /\ (a <> "-o"%string -> outputFile o' = outputFile o)
  /\ (a <> "-v"%string -> invocationCounterLN o' = invocationCounterLN o).
Proof.
  intros H. turn_cases H; try discriminate H; inversion H; subst o' b;
    repeat split; intros; simpl; try reflexivity; try congruence;
    match goal with
    | Hs : negb _ || negb _ = false, Hf : String.eqb _ ?f = true,
      Hne : a <> String "-" ?f |- _ =>
        exfalso; apply Hne; apply flag_name; [exact Hs|exact Hf]
    end.
Qed.

(** [strings.LastIndex] and [strings.Split] on a string without the
    separator. *)
Lemma last_index_from_spec c s :
  forall i found,
    found < i ->
    last_index_from c s i found = found \/ i <= last_index_from c s i found.
Proof.
  induction s as [|a s IH]; intros i found Hlt; simpl; auto.
  destruct (Ascii.eqb a c).
  - destruct (IH (i + 1) i) as [E|E]; [lia| |]; right; lia.
  - destruct (IH (i + 1) found) as [E|E]; [lia| |]; [now left|right; lia].
Qed.

Lemma Split_without_separator c s :
  forall i found,
    found < i -> last_index_from c s i found = found -> Split s c = [s].
Proof.
  induction s as [|a s IH]; intros i found Hlt H; simpl in *; auto.
  destruct (Ascii.eqb a c).
  - destruct (last_index_from_spec c s (i := i + 1) (found := i)); lia.
  - rewrite (IH (i + 1) found); auto. lia.
Qed.

End CommandLine.

Section CommandLineTheorems.

Context {T : LibTypes} {C : Params.CommandLineOps}.

Import Ascii Params.

(** Property X12.  Every attribute index that [getParameters] returns in
    [readObjects] is at least 1. *)
Theorem readObjects_attribute_indexes_are_positive :
  forall (args : list string) (s : gxSettings),
    getParameters args = Parsed s ->
    Forall (fun kv : string * Z => 1 <= snd kv) (readObjects s).
Proof.
  intros args s H. unfold getParameters in H.
  apply (parse_invariant
           (fun o => Forall (fun kv : string * Z => 1 <= snd kv) (readObjects o)))
    with (all := args) (o := defaults) (args := args).
  - intros a v o o' b _. apply one_argument_positive.
  - apply incl_refl.
  - constructor.
  - exact H.
Qed.

(** The induction behind the next two properties, on a bound of the
    number of arguments, since a turn consumes one or two of them. *)
Lemma parse_append_bounded (more : list string) :
  forall n args, (List.length args <= n)%nat ->
  forall o o', parse_loop o args = Parsed o' ->
               parse_loop o (args ++ more) = parse_loop o' more.
Proof.
  induction n as [|n IH]; intros [|a rest] Hlen o o' H; simpl in *;
    try (inversion H; subst; reflexivity); try lia.
  destruct rest as [|v rest']; simpl in *.
  - destruct (one_argument a None o) as [r|o1 b] eqn:E.
    + subst r. now apply one_argument_never_settles in E.
    + apply one_argument_last in E as (-> & E).
      inversion H; subst. now rewrite E.
  - destruct (one_argument a (Some v) o) as [r|o1 [|]] eqn:E.
    + subst r. now apply one_argument_never_settles in E.
    + apply (IH rest'); auto. lia.
    + apply (IH (v :: rest') ltac:(simpl; lia) _ _ H).
Qed.

(** Property X13.  Settings accumulate from left to right: when an argument list
    parses, parsing it followed by more arguments is parsing those from the
    settings reached. *)
Theorem settings_accumulate_left_to_right :
  forall (args more : list string) (o o' : gxSettings),
    parse_loop o args = Parsed o' ->
    parse_loop o (args ++ more) = parse_loop o' more.
Proof.
  intros args more o o' H.
  apply parse_append_bounded with (n := List.length args); [lia|exact H].
Qed.

(** Property X14.  A flag that takes a value fails with "requires a value" when it
    is the last argument, whatever was parsed before it. *)
Theorem value_flag_at_the_end_fails :
  forall (args : list string) (o o' : gxSettings) (f : string),
    parse_loop o args = Parsed o' -> In f value_flags ->
    parse_loop o (args ++ [String "-" f]) = Failed (ErrRequiresValue f).
Proof.
  intros args o o' f H Hf.
  rewrite (@parse_append_bounded [String "-" f] (List.length args) args
             (Nat.le_refl _) o o' H).
  simpl in Hf.
  repeat (destruct Hf as [<-|Hf]; [reflexivity|]). contradiction.
Qed.

(** Property X15.  No flag other than the 39 of the [switch] is accepted: a dash
    with any other byte (the help spelling [-?] apart) fails as an unknown
    flag, whatever the settings and whatever follows. *)
Theorem unlisted_flag_is_refused :
  forall (o : gxSettings) (c : ascii) (rest : list string),
    c <> "?"%char ->
    ~ In (String c "") (value_flags ++ other_flags) ->
    parse_loop o (String "-" (String c "") :: rest)
    = Failed (ErrUnknownFlag (String "-" (String c ""))).
Proof.
  intros o c rest Hq Hc.
  assert (forall d, In (String d "") (value_flags ++ other_flags) ->
                    Ascii.eqb c d = false) as Hd.
  { intros d Hin. apply Ascii.eqb_neq. intros ->. now apply Hc. }
  assert (Ascii.eqb c "?" = false) as Hq' by now apply Ascii.eqb_neq.
  simpl. unfold one_argument, flag_case. simpl.
  rewrite Hq'.
  destruct (Ascii.eqb c "-"); simpl;
    rewrite !Hd by (simpl; repeat (first [left; reflexivity | right]));
    reflexivity.
Qed.

(** Property X16.  A port given before any host is dropped: with no media yet,
    [-p] with a number changes nothing. *)
Theorem port_before_host_is_dropped :
  forall (o : gxSettings) (v : string) (n : Z) (rest : list string),
    media o = None -> Atoi v = Some n ->
    parse_loop o ("-p"%string :: v :: rest) = parse_loop o rest.
Proof.
  intros o v n rest Hm Hv. simpl.
  unfold one_argument, flag_case, needValue. simpl.
  now rewrite Hv, Hm.
Qed.

(** Property X17.  [-G] with a value that has no colon and whose text is a number
    panics at [tmp[1]]. *)
Theorem gateway_without_colon_panics :
  forall (o : gxSettings) (v : string) (n : Z) (rest : list string),
    LastIndex v ":" = -1 -> Atoi v = Some n ->
    parse_loop o ("-G"%string :: v :: rest) = Crashed.
Proof.
  intros o v n rest Hi Hv. simpl.
  unfold one_argument, flag_case, needValue. simpl.
  rewrite (@Split_without_separator ":"%char v 0 (-1)); [|lia|exact Hi].
  now rewrite Hv.
Qed.

(** Property X18.  A setting changes only by its own flag: when the arguments
    parse, the media is still nil unless [-h] or [-u] occurs among them, and
    the wait time, the trace level, the objects to read, the output file
    and the invocation counter name are the defaults unless [-x], [-t],
    [-g], [-o], [-v] occurs. *)
Theorem settings_change_only_by_their_flag :
  forall (args : list string) (s : gxSettings),
    getParameters args = Parsed s ->
    (~ In "-h"%string args -> ~ In "-u"%string args -> media s = None)
    /\ (~ In "-x"%string args -> WaitTime s = 5000)
    /\ (~ In "-t"%string args -> trace s = TraceLevelInfo)
    /\ (~ In "-g"%string args -> readObjects s = [])
    /\ (~ In "-o"%string args -> outputFile s = ""%string)
    /\ (~ In "-v"%string args -> invocationCounterLN s = ""%string).
Proof.
  intros args s H. unfold getParameters in H.
  assert (forall x a, ~ In x args -> In a args -> a <> x) as Hne
    by (intros x a Hx Ha ->; now apply Hx).
  repeat split.
  - intros Hh Hu.
    apply (parse_invariant (fun o => media o = None))
      with (all := args) (o := defaults) (args := args);
      [|apply incl_refl|reflexivity|exact H].
    intros a v o o' b Ha Ho E.
    apply one_argument_frame in E as (E & _). apply E; eauto.
  - intros Hx.
    apply (parse_invariant (fun o => WaitTime o = 5000))
      with (all := args) (o := defaults) (args := args);
      [|apply incl_refl|reflexivity|exact H].
    intros a v o o' b Ha Ho E.
    apply one_argument_frame in E as (_ & E & _). rewrite E; eauto.
  - intros Hx.
    apply (parse_invariant (fun o => trace o = TraceLevelInfo))
      with (all := args) (o := defaults) (args := args);
      [|apply incl_refl|reflexivity|exact H].
    intros a v o o' b Ha Ho E.
    apply one_argument_frame in E as (_ & _ & E & _). rewrite E; eauto.
  - intros Hx.
    apply (parse_invariant (fun o => readObjects o = []))
      with (all := args) (o := defaults) (args := args);
      [|apply incl_refl|reflexivity|exact H].
    intros a v o o' b Ha Ho E.
    apply one_argument_frame in E as (_ & _ & _ & E & _). rewrite E; eauto.
  - intros Hx.
    apply (parse_invariant (fun o => outputFile o = ""%string))
      with (all := args) (o := defaults) (args := args);
      [|apply incl_refl|reflexivity|exact H].
    intros a v o o' b Ha Ho E.
    apply one_argument_frame in E as (_ & _ & _ & _ & E & _). rewrite E; eauto.
  - intros Hx.
    apply (parse_invariant (fun o => invocationCounterLN o = ""%string))
      with (all := args) (o := defaults) (args := args);
      [|apply incl_refl|reflexivity|exact H].
    intros a v o o' b Ha Ho E.
    apply one_argument_frame in E as (_ & _ & _ & _ & _ & E). rewrite E; eauto.
Qed.

End CommandLineTheorems.

(** * Runs on the simulated device *)

Import Sim.

(** Claim C1: the configured retry bound is not honoured above 3.  On a
    device that never answers, with [RetryCount = 4], the frame transaction
    sends 3 times (not 4), leaves the first loop without an error and
    panics on [p.Reply.([]byte)]; when the failed receives leave bytes in
    [p.Reply], a bound of 5 gives 7 sends before the time-out error.  With
    the default bound of 3 it sends 3 times and returns the time-out
    error. *)
Theorem retry_bound_above_three_not_honoured :
  (exists w',
      ReadDLMSPacket 20 Sim.frame (Some Sim.fresh) (Sim.world 4 []) = Panic w'
      /\ sends w' = 3%nat)
  /\ (exists r w',
        ReadDLMSPacket 20 Sim.frame (Some Sim.fresh)
          (Sim.world 5 [Sim.mkRx false None (Some (any_bytes (Some [])))])
        = Ret (Some ErrNoReply, r) w'
        /\ sends w' = 7%nat)
  /\ (exists r w',
        ReadDLMSPacket 20 Sim.frame (Some Sim.fresh) (Sim.world 3 [])
        = Ret (Some ErrNoReply, r) w'
        /\ sends w' = 3%nat).
Proof.
  repeat split; repeat eexists; vm_compute; reflexivity.
Qed.

Lemma nil_frame_returns_at_once_witness :
  IsStreaming Sim.fresh = false
  /\ ReadDLMSPacket 5 None (Some Sim.fresh) (Sim.world 3 [])
     = Ret (None, Some Sim.fresh) (Sim.world 3 [])
  /\ ReadDLMSPacket 5 (Some []) (Some Sim.fresh) (Sim.world 3 [])
     = Ret (Some ErrPacketEmpty, Some Sim.fresh)
           (emit EvUnlock (emit EvLock (Sim.world 3 [])))
  /\ Some (@nil byte) = Some [].
Proof.
  split; [reflexivity|]. split.
  - apply (proj1 (@nil_frame_returns_at_once Sim.types Sim.ops 5%nat Sim.fresh
                    (Sim.world 3 []) eq_refl)).
  - assert (ReadDLMSPacket 5 (Some []) (Some Sim.fresh) (Sim.world 3 [])
            = Ret (Some ErrPacketEmpty, Some Sim.fresh)
                  (emit EvUnlock (emit EvLock (Sim.world 3 [])))) as H
      by (vm_compute; reflexivity).
    split; [exact H|].
    exact (proj2 (@nil_frame_returns_at_once Sim.types Sim.ops 5%nat Sim.fresh
                    (Sim.world 3 []) eq_refl) _ _ _ H).
Defined.

(** A nil frame has length zero and the fresh accumulator is not
    streaming, yet the call succeeds instead of reporting "packet is
    empty". *)
Lemma nil_frame_is_accepted :
  len (@None (list byte)) = 0
  /\ IsStreaming Sim.fresh = false
  /\ ReadDLMSPacket 5 None (Some Sim.fresh) (Sim.world 3 [])
     = Ret (None, Some Sim.fresh) (Sim.world 3 [])
  /\ ~ (exists r w',
          ReadDLMSPacket 5 None (Some Sim.fresh) (Sim.world 3 [])
          = Ret (Some ErrPacketEmpty, r) w').
Proof.
  repeat split.
  intros (r & w' & H). vm_compute in H. discriminate H.
Qed.

Lemma frame_preconditions_witness :
  IsStreaming (set_Error 0 Sim.fresh) = false
  /\ client (rdr (Sim.world 3 [])) = Some Sim.codec
  /\ media (rdr (Sim.world 3 [])) = Some []
  /\ ReadDLMSPacket 1 (Some []) (Some Sim.fresh) (Sim.world 3 [])
     = Ret (Some ErrPacketEmpty, Some (set_Error 0 Sim.fresh))
           (emit EvUnlock (emit EvLock (Sim.world 3 [])))
  /\ ReadDLMSPacket 1 None (Some Sim.fresh) (Sim.world 3 [])
     = Ret (None, Some Sim.fresh) (Sim.world 3 [])
  /\ IsStreaming (set_Error 0 Sim.streaming_reply) = true
  /\ (forall r w',
        ReadDLMSPacket 5 (Some []) (Some Sim.streaming_reply) (Sim.world 3 [])
        <> Ret (Some ErrPacketEmpty, r) w').
Proof.
  split; [reflexivity|]. split; [reflexivity|]. split; [reflexivity|].
  split.
  { apply (proj1 (proj2 (@frame_preconditions Sim.types Sim.ops))
             0%nat Sim.fresh (Sim.world 3 []) Sim.codec []); reflexivity. }
  split.
  { apply (proj1 (proj2 (proj2 (@frame_preconditions Sim.types Sim.ops)))
             1%nat Sim.fresh (Sim.world 3 [])); reflexivity. }
  split; [reflexivity|].
  intros r w'.
  apply (proj2 (proj2 (proj2 (@frame_preconditions Sim.types Sim.ops)))
           5%nat (Some []) Sim.streaming_reply (Sim.world 3 []) r w'); reflexivity.
Defined.

Lemma Close_twice_witness :
  exists err w',
    Close 5 (Sim.world 3 [Sim.answer [Byte.x00; Byte.x01]]) = Ret err w'
    /\ Close 7 w' = Ret None w'.
Proof.
  eexists. eexists. split.
  - vm_compute. reflexivity.
  - eapply (@Close_twice Sim.types Sim.ops 5 7
              (Sim.world 3 [Sim.answer [Byte.x00; Byte.x01]])).
    vm_compute. reflexivity.
Defined.



(** Two blocks: the first reply announces more data, so the sequencer
    asks for the rest with a receiver-ready frame. *)
Lemma ReadDataBlock_continuation_witness :
  client (rdr (Sim.world 3 [Sim.answer [Byte.x03; Byte.x2a];
                            Sim.answer [Byte.x00; Byte.x2b]])) = Some Sim.codec
  /\ (exists r' w',
        ReadDataBlock 9 Sim.frame (Some Sim.fresh)
          (Sim.world 3 [Sim.answer [Byte.x03; Byte.x2a];
                        Sim.answer [Byte.x00; Byte.x2b]])
        = Ret (None, r') w'
        /\ exists reply' c',
             r' = Some reply' /\ client (rdr w') = Some c'
             /\ continuation_condition reply' c' = false).
Proof.
  split; [reflexivity|].
  do 2 eexists. split; [vm_compute; reflexivity|].
  eapply (proj2 (proj2 (proj2 (proj2 (proj2
            (@ReadDataBlock_continuation Sim.types Sim.ops 9%nat
               (Sim.world 3 [Sim.answer [Byte.x03; Byte.x2a];
                             Sim.answer [Byte.x00; Byte.x2b]])
               Sim.codec eq_refl)))))
            Sim.frame (Some Sim.fresh)).
  vm_compute; reflexivity.
Defined.

Lemma ReadDataBlocks_runs_witness :
  (exists reply' w',
      blocks_done 9 2 [Sim.frame; Sim.frame] Sim.fresh
        (Sim.world 3 [Sim.answer [Byte.x00; Byte.x2a];
                      Sim.answer [Byte.x00; Byte.x2b]])
        reply' w'
      /\ 2%nat = List.length [Sim.frame; Sim.frame]
      /\ ReadDataBlocks 9 (Some [Sim.frame; Sim.frame]) (Some Sim.fresh)
           (Sim.world 3 [Sim.answer [Byte.x00; Byte.x2a];
                         Sim.answer [Byte.x00; Byte.x2b]])
         = Ret (Error reply' =? 0, None, Some reply') w'
      /\ ((Error reply' =? 0) = true <-> Error reply' = 0))
  /\ (exists reply1 w1 r2 w2,
        blocks_done 9 1 [Sim.frame] Sim.fresh
          (Sim.world 3 [Sim.answer [Byte.x00; Byte.x2a]; Sim.answer [Byte.x02]])
          reply1 w1
        /\ ReadDataBlock 9 Sim.frame (Some (Clear reply1)) w1
           = Ret (Some (ErrDlms 1), r2) w2
        /\ (2 <= List.length [Sim.frame; Sim.frame; Sim.frame])%nat
        /\ ReadDataBlocks 9 (Some [Sim.frame; Sim.frame; Sim.frame]) (Some Sim.fresh)
             (Sim.world 3 [Sim.answer [Byte.x00; Byte.x2a]; Sim.answer [Byte.x02]])
           = Ret (false, Some (ErrDlms 1), r2) w2).
Proof.
  split.
  - do 2 eexists. split.
    + eapply blocks_done_cons; [vm_compute; reflexivity|].
      eapply blocks_done_cons; [vm_compute; reflexivity|].
      apply blocks_done_nil.
    + eapply (proj1 (@ReadDataBlocks_runs Sim.types Sim.ops 9%nat
                       [Sim.frame; Sim.frame] Sim.fresh
                       (Sim.world 3 [Sim.answer [Byte.x00; Byte.x2a];
                                     Sim.answer [Byte.x00; Byte.x2b]]))
                2%nat).
      eapply blocks_done_cons; [vm_compute; reflexivity|].
      eapply blocks_done_cons; [vm_compute; reflexivity|].
      apply blocks_done_nil.
  - do 4 eexists.
    match goal with |- ?A /\ _ =>
      assert A as Hdone
        by (eapply blocks_done_cons; [vm_compute; reflexivity|apply blocks_done_nil])
    end.
    split; [exact Hdone|].
    match goal with |- ?A /\ _ => assert A as Hb by (vm_compute; reflexivity) end.
    split; [exact Hb|].
    exact (proj2 (@ReadDataBlocks_runs Sim.types Sim.ops 9%nat
                    [Sim.frame; Sim.frame; Sim.frame] Sim.fresh
                    (Sim.world 3 [Sim.answer [Byte.x00; Byte.x2a];
                                  Sim.answer [Byte.x02]]))
                 1%nat [Sim.frame] Sim.frame [Sim.frame] _ _ _ _ _
                 eq_refl Hdone Hb).
Defined.


(** Two attributes requested, one value decoded. *)
Lemma ReadList_count_mismatch_applies_nothing_witness :
  exists w',
    ReadList 9 [(1%nat, 2); (2%nat, 3)]
      (Sim.world 3 [Sim.answer [Byte.x00; Byte.x2a]])
    = Ret (Some (ErrInvalidReplyCount 1 2)) w'
    /\ updates w' = updates (Sim.world 3 [Sim.answer [Byte.x00; Byte.x2a]])
    /\ objects w' = objects (Sim.world 3 [Sim.answer [Byte.x00; Byte.x2a]]).
Proof.
  eexists. split; [vm_compute; reflexivity|].
  eapply (@ReadList_count_mismatch_applies_nothing Sim.types Sim.ops 9%nat
            [(1%nat, 2); (2%nat, 3)]
            (Sim.world 3 [Sim.answer [Byte.x00; Byte.x2a]]) 1 2).
  vm_compute; reflexivity.
Defined.


(** *** Further runs *)

(** One frame, answered at once. *)
Lemma nil_error_means_error_code_zero_witness :
  is_nil Sim.frame = false
  /\ exists r w',
       ReadDLMSPacket 5 Sim.frame (Some Sim.fresh)
         (Sim.world 3 [Sim.answer [Byte.x00; Byte.x2a]])
       = Ret (None, r) w'
       /\ exists r', r = Some r' /\ Error r' = 0.
Proof.
  split; [reflexivity|].
  do 2 eexists.
  match goal with |- ?A /\ _ => assert A as H by (vm_compute; reflexivity) end.
  split; [exact H|].
  exact (@nil_error_means_error_code_zero Sim.types Sim.ops 5%nat Sim.frame
           Sim.fresh (Sim.world 3 [Sim.answer [Byte.x00; Byte.x2a]]) _ _
           eq_refl H).
Defined.

(** Two frames, both answered. *)
Lemma ReadDataBlocks_ok_whenever_no_error_witness :
  streaming_ignores_error
  /\ Forall (fun b : slice byte => is_nil b = false) [Sim.frame; Sim.frame]
  /\ exists ok r w',
       ReadDataBlocks 9 (Some [Sim.frame; Sim.frame]) (Some Sim.fresh)
         (Sim.world 3 [Sim.answer [Byte.x00; Byte.x2a];
                       Sim.answer [Byte.x00; Byte.x2b]])
       = Ret (ok, None, r) w'
       /\ ok = true /\ exists r', r = Some r' /\ Error r' = 0.
Proof.
  assert (streaming_ignores_error) as Hs by (intros e r; reflexivity).
  assert (Forall (fun b : slice byte => is_nil b = false) [Sim.frame; Sim.frame])
    as Hf by (repeat constructor).
  split; [exact Hs|]. split; [exact Hf|].
  do 3 eexists.
  match goal with |- ?A /\ _ => assert A as H by (vm_compute; reflexivity) end.
  split; [exact H|].
  refine (@ReadDataBlocks_ok_whenever_no_error Sim.types Sim.ops 9%nat
            [Sim.frame; Sim.frame] Sim.fresh
            (Sim.world 3 [Sim.answer [Byte.x00; Byte.x2a];
                          Sim.answer [Byte.x00; Byte.x2b]]) _ _ _
            Hs Hf _ H).
  discriminate.
Defined.

(** The second of two frames is answered with device error 1. *)
Lemma ReadDataBlocks_errors_witness :
  exists ok e r w',
    ReadDataBlocks 9 (Some [Sim.frame; Sim.frame]) (Some Sim.fresh)
      (Sim.world 3 [Sim.answer [Byte.x00; Byte.x2a]; Sim.answer [Byte.x02]])
    = Ret (ok, Some e, r) w'
    /\ ok = false /\ exchange_error e.
Proof.
  do 4 eexists.
  match goal with |- ?A /\ _ => assert A as H by (vm_compute; reflexivity) end.
  split; [exact H|].
  exact (@ReadDataBlocks_errors Sim.types Sim.ops 9%nat
           (Some [Sim.frame; Sim.frame]) (Some Sim.fresh)
           (Sim.world 3 [Sim.answer [Byte.x00; Byte.x2a]; Sim.answer [Byte.x02]])
           _ _ _ _ H).
Defined.

(** A block with more data to follow, which returns; and a retry bound of
    5 on a line on which nothing arrives, which panics at the type
    assertion after the first loop. *)
Lemma lock_is_released_on_return_and_on_panic_witness :
  (exists res w',
      ReadDataBlocks 9 (Some [Sim.frame]) (Some Sim.fresh)
        (Sim.world 3 [Sim.answer [Byte.x03; Byte.x2a];
                      Sim.answer [Byte.x00; Byte.x2b]])
      = Ret res w'
      /\ locks w' = 3%nat
      /\ balanced (Sim.world 3 [Sim.answer [Byte.x03; Byte.x2a];
                                Sim.answer [Byte.x00; Byte.x2b]]) w')
  /\ (exists w',
        ReadDataBlocks 9 (Some [Sim.frame]) (Some Sim.fresh) (Sim.world 5 [])
        = Panic w'
        /\ locks w' = 1%nat
        /\ balanced (Sim.world 5 []) w').
Proof.
  split.
  - do 2 eexists.
    match goal with |- ?A /\ _ => assert A as H by (vm_compute; reflexivity) end.
    split; [exact H|].
    split; [vm_compute; reflexivity|].
    exact (proj1 (@lock_is_released_on_return_and_on_panic Sim.types Sim.ops 9%nat
                    (Sim.world 3 [Sim.answer [Byte.x03; Byte.x2a];
                                  Sim.answer [Byte.x00; Byte.x2b]]) _)
                 (Some [Sim.frame]) (Some Sim.fresh)
                 (or_introl (ex_intro _ _ H))).
  - eexists.
    match goal with |- ?A /\ _ => assert A as H by (vm_compute; reflexivity) end.
    split; [exact H|].
    split; [vm_compute; reflexivity|].
    exact (proj1 (@lock_is_released_on_return_and_on_panic Sim.types Sim.ops 9%nat
                    (Sim.world 5 []) _)
                 (Some [Sim.frame]) (Some Sim.fresh) (or_intror H)).
Defined.

(** One "rejected" before the answer: the lock is taken twice and held
    twice over.  A block with more data to follow: taken three times, held
    twice over while the follow-up is read. *)
Lemma lock_is_taken_again_while_held_witness :
  (exists res w',
      ReadDLMSPacket 9 Sim.frame (Some Sim.fresh)
        (Sim.world 3 [Sim.answer [Byte.x01]; Sim.answer [Byte.x00; Byte.x2b]])
      = Ret res w'
      /\ taken (events w') = 2 /\ taken (events w') <= deepest (events w'))
  /\ (exists res w',
        ReadDataBlock 9 Sim.frame (Some Sim.fresh)
          (Sim.world 3 [Sim.answer [Byte.x03; Byte.x2a];
                        Sim.answer [Byte.x00; Byte.x2b]])
        = Ret res w'
        /\ 3 <= taken (events w') /\ 2 <= deepest (events w')).
Proof.
  split.
  - do 2 eexists.
    match goal with |- ?A /\ _ => assert A as H by (vm_compute; reflexivity) end.
    split; [exact H|].
    split; [vm_compute; reflexivity|].
    refine (proj1 (@lock_is_taken_again_while_held Sim.types Sim.ops 9%nat
                     Sim.frame (Some Sim.fresh)
                     (Sim.world 3 [Sim.answer [Byte.x01];
                                   Sim.answer [Byte.x00; Byte.x2b]]) _ _ _)
                  (or_introl (ex_intro _ _ H))).
    vm_compute; reflexivity.
  - do 2 eexists.
    match goal with |- ?A /\ _ => assert A as H by (vm_compute; reflexivity) end.
    split; [exact H|].
    match goal with |- ?A /\ _ =>
      assert A as H3 by (vm_compute; intros E; discriminate E) end.
    split; [exact H3|].
    refine (proj2 (@lock_is_taken_again_while_held Sim.types Sim.ops 9%nat
                     Sim.frame (Some Sim.fresh)
                     (Sim.world 3 [Sim.answer [Byte.x03; Byte.x2a];
                                   Sim.answer [Byte.x00; Byte.x2b]]) _ _ _)
                  (or_introl (ex_intro _ _ H)) H3).
    vm_compute; reflexivity.
Defined.

Lemma block_sequencer_leaves_alone_witness :
  exists res w',
    ReadDataBlocks 9 (Some [Sim.frame]) (Some Sim.fresh)
      (Sim.world 3 [Sim.timeout; Sim.answer [Byte.x00; Byte.x2b]])
    = Ret res w'
    /\ objects w' = objects (Sim.world 3 [Sim.timeout; Sim.answer [Byte.x00; Byte.x2b]])
    /\ updates w' = updates (Sim.world 3 [Sim.timeout; Sim.answer [Byte.x00; Byte.x2b]])
    /\ closes w' = closes (Sim.world 3 [Sim.timeout; Sim.answer [Byte.x00; Byte.x2b]]).
Proof.
  do 2 eexists.
  match goal with |- ?A /\ _ => assert A as H by (vm_compute; reflexivity) end.
  split; [exact H|].
  pose proof (@block_sequencer_leaves_alone Sim.types Sim.ops 9%nat
                (Some [Sim.frame]) (Some Sim.fresh)
                (Sim.world 3 [Sim.timeout; Sim.answer [Byte.x00; Byte.x2b]])
                _ _ H) as (Ho & Hu & Hc & _).
  split; [exact Ho|]. split; [exact Hu|exact Hc].
Defined.

(** One time-out, one "rejected", then the answer: three sends, all of the
    caller's frame. *)
Lemma only_the_given_frame_is_sent_witness :
  exists res w',
    ReadDLMSPacket 9 Sim.frame (Some Sim.fresh)
      (Sim.world 3 [Sim.timeout; Sim.answer [Byte.x01];
                    Sim.answer [Byte.x00; Byte.x2b]])
    = Ret res w'
    /\ sends w' = 3%nat
    /\ exists evs,
         added (Sim.world 3 [Sim.timeout; Sim.answer [Byte.x01];
                             Sim.answer [Byte.x00; Byte.x2b]]) w' evs
         /\ forall d, In (EvSend d) evs -> d = Sim.frame.
Proof.
  do 2 eexists.
  match goal with |- ?A /\ _ => assert A as H by (vm_compute; reflexivity) end.
  split; [exact H|].
  split; [vm_compute; reflexivity|].
  exact (@only_the_given_frame_is_sent Sim.types Sim.ops 9%nat Sim.frame
           (Some Sim.fresh)
           (Sim.world 3 [Sim.timeout; Sim.answer [Byte.x01];
                         Sim.answer [Byte.x00; Byte.x2b]])
           _ _ H).
Defined.

(** A retry bound of 7 on a line on which nothing arrives: seven receive
    attempts, six re-sends. *)
Lemma second_loop_honours_retry_bound_witness :
  @silent_media Sim.types Faulty.silent
  /\ exists w',
       @receiveLoop Sim.types Faulty.silent (7 + 2) Sim.frame 0
         NewReceiveParameters (Sim.world 7 [])
       = Ret (inl ErrNoReply) w'
       /\ Z.of_nat (receives w') = 7
       /\ Z.of_nat (sends w') = 6.
Proof.
  assert (@silent_media Sim.types Faulty.silent) as Hs.
  { split; [intros d m; reflexivity|intros p m; exists m; reflexivity]. }
  split; [exact Hs|].
  assert (media (rdr (Sim.world 7 [])) <> None) as Hm by discriminate.
  assert (1 <= RetryCount (rdr (Sim.world 7 [])) < 2 ^ 63) as Hn
    by (change (1 <= 7 < 2 ^ 63); lia).
  exact (@second_loop_honours_retry_bound Sim.types Faulty.silent 2%nat
           Sim.frame NewReceiveParameters (Sim.world 7 []) Hs Hm Hn).
Defined.

(** A line that refuses the send, and a line that reports an error on the
    first receive. *)
Lemma media_errors_are_not_retried_witness :
  (exists w',
      @ReadDLMSPacket Sim.types Faulty.broken 3 Sim.frame (Some Sim.fresh)
        (Sim.world 3 [])
      = Ret (Some (ErrExternal "write failed"), Some (set_Error 0 Sim.fresh)) w'
      /\ sends w' = S (sends (Sim.world 3 []))
      /\ receives w' = receives (Sim.world 3 []))
  /\ (exists w',
        ReadDLMSPacket 3 Sim.frame (Some Sim.fresh)
          (Sim.world 3 [Sim.mkRx false (Some "line down"%string) None])
        = Ret (Some (ErrExternal "line down"), Some (set_Error 0 Sim.fresh)) w'
        /\ sends w' = S (sends (Sim.world 3 [Sim.mkRx false (Some "line down"%string) None]))
        /\ receives w'
           = S (receives (Sim.world 3 [Sim.mkRx false (Some "line down"%string) None]))).
Proof.
  split.
  - refine (proj1 (@media_errors_are_not_retried Sim.types Faulty.broken 2%nat
                     Sim.frame Sim.fresh (Sim.world 3 []) Sim.codec []
                     eq_refl eq_refl eq_refl _)
                  "write failed"%string [] eq_refl).
    vm_compute. discriminate.
  - refine (proj2 (@media_errors_are_not_retried Sim.types Sim.ops 2%nat
                     Sim.frame Sim.fresh
                     (Sim.world 3 [Sim.mkRx false (Some "line down"%string) None])
                     Sim.codec [Sim.mkRx false (Some "line down"%string) None]
                     eq_refl eq_refl eq_refl _)
                  "line down"%string
                  [Sim.mkRx false (Some "line down"%string) None] eq_refl _).
    + vm_compute. discriminate.
    + intros p. exists false, p, []. reflexivity.
Defined.

(** An accumulator in the middle of a streamed frame. *)
Lemma streaming_accumulator_never_completes_witness :
  IsStreaming Sim.streaming_reply = true
  /\ continuation_condition Sim.streaming_reply Sim.codec = true
  /\ (forall fuel,
         ReadDLMSPacket fuel Sim.frame (Some Sim.streaming_reply) (Sim.world 3 [])
         = Diverge)
  /\ (forall fuel,
         ReadDataBlock_loop fuel Sim.streaming_reply (Sim.world 3 []) = Diverge).
Proof.
  split; [reflexivity|]. split; [reflexivity|].
  pose proof (@streaming_accumulator_never_completes Sim.types Sim.ops Sim.frame
                Sim.streaming_reply (Sim.world 3 []) Sim.codec []
                eq_refl eq_refl eq_refl eq_refl) as (H1 & H2).
  split; [exact H1|exact (H2 eq_refl)].
Defined.
(** A reader fresh from the constructor, asked for a wait time of 0, on
    a line on which nothing arrives. *)
Lemma new_reader_gives_up_after_three_sends_witness :
  @silent_media Sim.types Faulty.silent
  /\ 0 < WaitTime (NewGXDLMSReader (Some Sim.codec) (Some []) 0 "" 0)
  /\ exists w',
       @ReadDLMSPacket Sim.types Faulty.silent (3 + 0) Sim.frame (Some Sim.fresh)
         (mkWorld (NewGXDLMSReader (Some Sim.codec) (Some []) 0 "" 0) [] [])
       = Ret (Some ErrNoReply, Some (set_Error 0 Sim.fresh)) w'
       /\ sends w' = 3%nat.
Proof.
  assert (@silent_media Sim.types Faulty.silent) as Hs.
  { split; [intros d m; reflexivity|intros p m; exists m; reflexivity]. }
  split; [exact Hs|].
  refine (@new_reader_gives_up_after_three_sends Sim.types Faulty.silent
            Sim.codec [] 0 ""%string 0 [] 0%nat Sim.frame Sim.fresh Hs eq_refl _).
  vm_compute. discriminate.
Defined.

(** *** Command lines *)

Import Ascii SimArgs.

(** Two objects to read, given in one [-g] after the host. *)
Lemma readObjects_attribute_indexes_are_positive_witness :
  exists s,
    Params.getParameters
      ["-h"; "meter"; "-g"; "0.0.1.0.0.255:2; 1.0.1.8.0.255:3"]%string
    = Params.Parsed s
    /\ Params.readObjects s
       = [("0.0.1.0.0.255", 2); ("1.0.1.8.0.255", 3)]%string
    /\ Forall (fun kv : string * Z => 1 <= snd kv) (Params.readObjects s).
Proof.
  eexists.
  match goal with |- ?A /\ _ => assert A as H by (vm_compute; reflexivity) end.
  split; [exact H|]. split; [reflexivity|].
  exact (@readObjects_attribute_indexes_are_positive Sim.types SimArgs.command_line
           ["-h"; "meter"; "-g"; "0.0.1.0.0.255:2; 1.0.1.8.0.255:3"]%string
           _ H).
Defined.

(** The host first, the port after it. *)
Lemma settings_accumulate_left_to_right_witness :
  exists o',
    Params.parse_loop Params.defaults ["-h"; "meter"]%string = Params.Parsed o'
    /\ Params.parse_loop Params.defaults (["-h"; "meter"]%string ++ ["-p"; "4059"]%string)%list
       = Params.parse_loop o' ["-p"; "4059"]%string
    /\ exists s,
         Params.parse_loop o' ["-p"; "4059"]%string = Params.Parsed s
         /\ Params.media s = Some (Params.mkNet 0 "meter" 4059).
Proof.
  eexists.
  match goal with |- ?A /\ _ => assert A as H by (vm_compute; reflexivity) end.
  split; [exact H|].
  split.
  - exact (@settings_accumulate_left_to_right Sim.types SimArgs.command_line
             ["-h"; "meter"]%string ["-p"; "4059"]%string Params.defaults _ H).
  - eexists. split; vm_compute; reflexivity.
Defined.

(** The port first: the host is set, the port is the constructor's 0. *)
Lemma port_before_host_is_dropped_witness :
  Params.parse_loop Params.defaults ["-p"; "4059"; "-h"; "meter"]%string
  = Params.parse_loop Params.defaults ["-h"; "meter"]%string
  /\ exists s,
       Params.getParameters ["-p"; "4059"; "-h"; "meter"]%string = Params.Parsed s
       /\ Params.media s = Some (Params.mkNet 0 "meter" 0).
Proof.
  split.
  - exact (@port_before_host_is_dropped Sim.types SimArgs.command_line Params.defaults
             "4059"%string 4059 ["-h"; "meter"]%string eq_refl eq_refl).
  - eexists. split; vm_compute; reflexivity.
Defined.

Lemma gateway_without_colon_panics_witness :
  Params.LastIndex "7" ":" = -1
  /\ Params.parse_loop Params.defaults ["-G"; "7"]%string = Params.Crashed.
Proof.
  split; [reflexivity|].
  exact (@gateway_without_colon_panics Sim.types SimArgs.command_line Params.defaults
           "7"%string 7 [] eq_refl eq_refl).
Defined.

Lemma value_flag_at_the_end_fails_witness :
  Params.parse_loop Params.defaults (["-h"; "meter"]%string ++ ["-p"%string])%list
  = Params.Failed (Params.ErrRequiresValue "p").
Proof.
  refine (@value_flag_at_the_end_fails Sim.types SimArgs.command_line
            ["-h"; "meter"]%string Params.defaults _ "p"%string _ _).
  - vm_compute; reflexivity.
  - right; left; reflexivity.
Defined.

(** The help text mentions [-q] for MQTT; the parser does not know it. *)
Lemma unlisted_flag_is_refused_witness :
  Params.parse_loop Params.defaults ["-q"; "topic"]%string
  = Params.Failed (Params.ErrUnknownFlag "-q").
Proof.
  refine (@unlisted_flag_is_refused Sim.types SimArgs.command_line Params.defaults
            "q"%char ["topic"%string] _ _).
  - discriminate.
  - simpl. intros H.
    repeat (destruct H as [H|H]; [discriminate H|]). exact H.
Defined.
(** Addresses and a wait time, but no host: the media stays nil. *)
Lemma settings_change_only_by_their_flag_witness :
  exists s,
    Params.getParameters ["-c"; "16"; "-x"; "250"]%string = Params.Parsed s
    /\ Params.WaitTime s = 250
    /\ Params.media s = None
    /\ Params.readObjects s = [].
Proof.
  eexists.
  match goal with |- ?A /\ _ => assert A as H by (vm_compute; reflexivity) end.
  split; [exact H|]. split; [reflexivity|].
  assert (forall x, x <> "-c"%string -> x <> "16"%string -> x <> "-x"%string ->
                    x <> "250"%string ->
                    ~ In x ["-c"; "16"; "-x"; "250"]%string) as Hout.
  { intros x H1 H2 H3 H4 Hin. simpl in Hin.
    destruct Hin as [E|[E|[E|[E|[]]]]]; subst x; congruence. }
  pose proof (@settings_change_only_by_their_flag Sim.types SimArgs.command_line
                ["-c"; "16"; "-x"; "250"]%string _ H)
    as (Hm & _ & _ & Hg & _).
  split.
  - apply Hm; apply Hout; discriminate.
  - apply Hg; apply Hout; discriminate.
Defined.
